(** * PathMover: the control-point graph generator

    A shallow embedding of [layout_gen/generate_control_points_v16.py] and
    the properties of it that the specification states.

    Conventions of the embedding.
    - Python [float] coordinates are exact rationals ([Q]); every call site
      of the generator passes integer column and row numbers and the
      pitches 2 and 5, for which binary64 arithmetic is exact.  The
      tolerance 1e-9 is the rational [1 # 10^9].
    - A Python [dict] is an insertion-ordered association list whose keys
      are compared with the key type's equality ([keq]); assigning to a key
      that is present replaces the value in place.
    - A Python [set] of ids is a duplicate-free list.
    - The worksheet is the grid the script reads: the colour signature
      [color_id(ws.cell(r, c))] of each cell, [max_row], [max_column] and
      the bounds of the merged ranges.
    - A loop that may run forever carries fuel; a subscript that may raise
      returns an [outcome]. *)

From Stdlib Require Import ZArith QArith Qround Qabs Lqa Lia List String Ascii
  Bool DecimalString Sorted Permutation.
Import ListNotations.

Open Scope Z_scope.

(* ================================================================== *)
(** * Part I: the program *)
(* ================================================================== *)

(** ** Outcomes of a run *)

Inductive exn : Type :=
| RuntimeError (msg : string)
| KeyError (key : string).

Inductive outcome (A : Type) : Type :=
| Done (a : A)
| Raised (e : exn)
| Diverges.

Arguments Done {A} a.
Arguments Raised {A} e.
Arguments Diverges {A}.

Definition bind {A B : Type} (m : outcome A) (k : A -> outcome B) : outcome B :=
  match m with
  | Done a => k a
  | Raised e => Raised e
  | Diverges => Diverges
  end.

Notation "x <- m ;; k" := (bind m (fun x => k))
  (at level 61, m at next level, right associativity).
Notation "' p <- m ;; k" := (bind m (fun p => k))
  (at level 61, p pattern, m at next level, right associativity).

(** [for x in l: s = body(x, s)], stopping at the first exception. *)
Fixpoint for_each {A S : Type} (l : list A) (body : A -> S -> outcome S) (s : S)
  : outcome S :=
  match l with
  | [] => Done s
  | a :: l' => s' <- body a s ;; for_each l' body s'
  end.

(** [[f(x) for x in l]] where [f] may raise. *)
Fixpoint map_m {A B : Type} (f : A -> outcome B) (l : list A) : outcome (list B) :=
  match l with
  | [] => Done []
  | a :: l' => b <- f a ;; bs <- map_m f l' ;; Done (b :: bs)
  end.

(** ** Python values *)

(** Equality of dictionary keys ([__eq__]): an equivalence decided by [keq]. *)
Class Hashable (K : Type) : Type := {
  keq : K -> K -> bool;
  keq_refl : forall a, keq a a = true;
  keq_sym : forall a b, keq a b = keq b a;
  keq_trans : forall a b c, keq a b = true -> keq b c = true -> keq a c = true
}.

#[export] Instance Hashable_string : Hashable string.
Proof.
  refine {| keq := String.eqb |}.
  - apply String.eqb_refl.
  - apply String.eqb_sym.
  - intros a b c H1 H2. apply String.eqb_eq in H1, H2. subst. apply String.eqb_refl.
Defined.

#[export] Instance Hashable_Z : Hashable Z.
Proof.
  refine {| keq := Z.eqb |}.
  - apply Z.eqb_refl.
  - apply Z.eqb_sym.
  - intros a b c H1 H2. apply Z.eqb_eq in H1, H2. subst. apply Z.eqb_refl.
Defined.

#[export] Instance Hashable_Q : Hashable Q.
Proof.
  refine {| keq := Qeq_bool |}.
  - apply Qeq_bool_refl.
  - apply Qeq_bool_comm.
  - apply Qeq_bool_trans.
Defined.

#[export] Instance Hashable_pair {A B : Type} `{Hashable A} `{Hashable B}
  : Hashable (A * B).
Proof.
  refine {| keq := fun p q => keq (fst p) (fst q) && keq (snd p) (snd q) |}.
  - intros [a b]. cbn. now rewrite !keq_refl.
  - intros [a b] [c d]. cbn. now rewrite (keq_sym a c), (keq_sym b d).
  - intros [a b] [c d] [e f]. cbn. intros H1 H2.
    apply andb_true_iff in H1 as [H1 H1'], H2 as [H2 H2'].
    now rewrite (keq_trans _ _ _ H1 H2), (keq_trans _ _ _ H1' H2').
Defined.

Section Dict.
Context {K V : Type} `{Hashable K}.

Definition dict : Type := list (K * V).

(** [d.get(k)] *)
Fixpoint dget (d : dict) (k : K) : option V :=
  match d with
  | [] => None
  | (k', v) :: d' => if keq k k' then Some v else dget d' k
  end.

(** [d[k] = v] *)
Fixpoint dset (d : dict) (k : K) (v : V) : dict :=
  match d with
  | [] => [(k, v)]
  | (k', v') :: d' => if keq k k' then (k', v) :: d' else (k', v') :: dset d' k v
  end.

(** [k in d] *)
Definition dmem (d : dict) (k : K) : bool :=
  match dget d k with Some _ => true | None => false end.

(** [d.get(k, dflt)] *)
Definition dget_or (d : dict) (k : K) (dflt : V) : V :=
  match dget d k with Some v => v | None => dflt end.

(** [d.keys()] *)
Definition dkeys (d : dict) : list K := map fst d.

End Dict.

Arguments dict K V : clear implicits.

(** [range(lo, hi)] *)
Definition py_range (lo hi : Z) : list Z :=
  map (fun i => lo + Z.of_nat i) (seq 0 (Z.to_nat (hi - lo))).

(** [enumerate(l, start)] *)
Fixpoint py_enumerate {A : Type} (start : Z) (l : list A) : list (Z * A) :=
  match l with
  | [] => []
  | a :: l' => (start, a) :: py_enumerate (start + 1) l'
  end.

(** [int(round(q))]: to the nearest integer, a tie to the even one. *)
Definition py_round (q : Q) : Z :=
  let f := Qfloor q in
  match (q - inject_Z f ?= 1 # 2)%Q with
  | Lt => f
  | Gt => f + 1
  | Eq => if Z.even f then f else f + 1
  end.

Definition Qlt_bool (a b : Q) : bool := negb (Qle_bool b a).

(** [sorted(l, key=key)] for a rational key: stable. *)
Fixpoint insert_by {A : Type} (key : A -> Q) (a : A) (l : list A) : list A :=
  match l with
  | [] => [a]
  | b :: l' => if Qle_bool (key a) (key b) then a :: b :: l' else b :: insert_by key a l'
  end.

Definition sorted_by {A : Type} (key : A -> Q) (l : list A) : list A :=
  fold_right (insert_by key) [] l.

(** [sorted(s)] for strings, ordered by code point. *)
Fixpoint insert_str (a : string) (l : list string) : list string :=
  match l with
  | [] => [a]
  | b :: l' => if String.leb a b then a :: b :: l' else b :: insert_str a l'
  end.

Definition sorted_str (l : list string) : list string :=
  fold_right insert_str [] l.

(** [str(n)] and the format [{n:0<width>d}]. *)
Definition str_of_Z (n : Z) : string := NilZero.string_of_int (Z.to_int n).

Fixpoint zeros (n : nat) : string :=
  match n with
  | O => EmptyString
  | S n' => String "0" (zeros n')
  end.

Definition pad_left (width : nat) (s : string) : string :=
  String.append (zeros (width - String.length s)) s.

Definition fmt_d (width : nat) (n : Z) : string :=
  if n <? 0
  then String "-" (pad_left (width - 1) (str_of_Z (- n)))
  else pad_left width (str_of_Z n).

Definition cat (l : list string) : string := String.concat EmptyString l.

(** openpyxl's [column_index_from_string]: letters in base 26, ["A"] is 1. *)
Definition column_index_from_string (s : string) : Z :=
  fold_left (fun acc ch => acc * 26 + (Z.of_nat (nat_of_ascii ch) - 64))
    (list_ascii_of_string s) 0.

(** A truthy string ([if pid:]). *)
Definition truthy (s : string) : bool :=
  match s with EmptyString => false | _ => true end.

(** A set of ids: [s.add(b)]. *)
Definition set_add (b : string) (s : list string) : list string :=
  if existsb (String.eqb b) s then s else s ++ [b].

(** ** The data model *)

Inductive region : Type := blue | purple | grey | orange | green.

Definition region_eqb (a b : region) : bool :=
  match a, b with
  | blue, blue | purple, purple | grey, grey | orange, orange | green, green => true
  | _, _ => false
  end.

Inductive kind : Type := KCell | KH | KSeg | KV.

Definition kind_eqb (a b : kind) : bool :=
  match a, b with
  | KCell, KCell | KH, KH | KSeg, KSeg | KV, KV => true
  | _, _ => false
  end.

(** The ["meta"] dictionary of a point, one constructor per literal of the
    script. *)
Inductive meta : Type :=
| MetaCell (row col : Z)
| MetaRow (row : Z)
| MetaBand (band_y : Z)
| MetaSeg (row sg c1 c2 : Z)
| MetaCol (col r1 r2 : Z).

(** [meta.get("kind")] *)
Definition meta_kind (m : meta) : kind :=
  match m with
  | MetaCell _ _ => KCell
  | MetaRow _ | MetaBand _ => KH
  | MetaSeg _ _ _ _ => KSeg
  | MetaCol _ _ _ => KV
  end.

(** [meta["row"]], [meta["col"]], [meta["seg"]]: [None] where the key is absent. *)
Definition meta_row (m : meta) : option Z :=
  match m with
  | MetaCell r _ | MetaRow r | MetaSeg r _ _ _ => Some r
  | _ => None
  end.

Definition meta_col (m : meta) : option Z :=
  match m with
  | MetaCell _ c | MetaCol c _ _ => Some c
  | _ => None
  end.

Definition meta_seg (m : meta) : option Z :=
  match m with
  | MetaSeg _ s _ _ => Some s
  | _ => None
  end.

(** A point; ["inout"] and ["next"] are absent until the last two steps. *)
Record point : Type := mkPoint {
  p_id : string;
  p_x : Q;
  p_y : Q;
  p_region : region;
  p_meta : meta;
  p_inout : option bool;
  p_next : option (list string)
}.

Definition new_point (pid : string) (x y : Q) (reg : region) (m : meta) : point :=
  mkPoint pid x y reg m None None.

Definition p_kind (p : point) : kind := meta_kind (p_meta p).

Definition points_t : Type := dict string point.
Definition coord_t : Type := (Q * Q)%type.
Definition next_map_t : Type := dict string (list string).

(** The sheet as the script reads it. *)
Record worksheet : Type := mkSheet {
  max_row : Z;
  max_column : Z;
  cell_color : Z -> Z -> option string;     (* color_id(ws.cell(row, column)) *)
  merged_ranges : list (Z * Z * Z * Z)       (* (min_col, min_row, max_col, max_row) *)
}.

Definition opt_str_eqb (a b : option string) : bool :=
  match a, b with
  | Some s, Some t => String.eqb s t
  | None, None => true
  | _, _ => false
  end.

(** [color_id(ws.cell(row=r, column=c)) == sig] *)
Definition has_color (ws : worksheet) (r c : Z) (sig : string) : bool :=
  opt_str_eqb (cell_color ws r c) (Some sig).

(** ** RunScanner *)

Definition scan_cell (ws : worksheet) (row : Z) (color_sig : string)
  (st : list (Z * Z) * bool * Z) (c : Z) : list (Z * Z) * bool * Z :=
  let '(segs, in_seg, s) := st in
  if has_color ws row c color_sig
  then (if in_seg then st else (segs, true, c))
  else (if in_seg then (segs ++ [(s, c - 1)], false, s) else st).

Definition contiguous_segments_for_color (ws : worksheet) (row : Z)
  (color_sig : string) (col_min col_max : Z) : list (Z * Z) :=
  let '(segs, in_seg, s) :=
    fold_left (scan_cell ws row color_sig) (py_range col_min (col_max + 1))
      ([], false, 0) in
  if in_seg then segs ++ [(s, col_max)] else segs.

(** ** Sampler *)

Definition EPS : Q := 1 # 1000000000.

(** The [while] loop of [sample_positions_including_end]; [None] when the
    fuel does not suffice. *)
Fixpoint sample_loop (fuel : nat) (x x_end step : Q) (xs : list Q)
  : option (list Q) :=
  if Qle_bool (x + step) (x_end + EPS)
  then match fuel with
       | O => None
       | S fuel' => sample_loop fuel' (x + step)%Q x_end step (xs ++ [(x + step)%Q])
       end
  else Some xs.

Definition sample_close (x_start x_end : Q) (xs : list Q) : list Q :=
  if Qlt_bool EPS (Qabs (last xs x_start - x_end)) then xs ++ [x_end] else xs.

Definition sample_positions_fuel (fuel : nat) (x_start x_end step : Q)
  : option (list Q) :=
  let '(x_start, x_end) :=
    if Qlt_bool x_end x_start then (x_end, x_start) else (x_start, x_end) in
  match sample_loop fuel x_start x_end step [x_start] with
  | Some xs => Some (sample_close x_start x_end xs)
  | None => None
  end.

(** The number of turns of the loop for a positive step; with a step that
    is not positive the loop never ends. *)
Definition sample_turns (x_start x_end step : Q) : nat :=
  if Qlt_bool 0 step
  then Z.to_nat (Qfloor ((Qabs (x_end - x_start) + EPS) / step))
  else O.

Definition sample_positions_including_end (x_start x_end step : Q)
  : option (list Q) :=
  sample_positions_fuel (sample_turns x_start x_end step) x_start x_end step.

Fixpoint sample_int_loop (fuel : nat) (y y_end step : Z) (ys : list Z)
  : option (list Z) :=
  if y + step <=? y_end
  then match fuel with
       | O => None
       | S fuel' => sample_int_loop fuel' (y + step) y_end step (ys ++ [y + step])
       end
  else Some ys.

Definition sample_int_close (y_start y_end : Z) (ys : list Z) : list Z :=
  if last ys y_start =? y_end then ys else ys ++ [y_end].

Definition sample_int_positions_fuel (fuel : nat) (y_start y_end step : Z)
  : option (list Z) :=
  let '(y_start, y_end) :=
    if y_end <? y_start then (y_end, y_start) else (y_start, y_end) in
  match sample_int_loop fuel y_start y_end step [y_start] with
  | Some ys => Some (sample_int_close y_start y_end ys)
  | None => None
  end.

Definition sample_int_turns (y_start y_end step : Z) : nat :=
  if 0 <? step then Z.to_nat (Z.abs (y_end - y_start) / step) else O.

Definition sample_int_positions_including_end (y_start y_end step : Z)
  : option (list Z) :=
  sample_int_positions_fuel (sample_int_turns y_start y_end step) y_start y_end step.

(** A sampler call inside the generator. *)
Definition run_sampler {A : Type} (r : option (list A)) : outcome (list A) :=
  match r with
  | Some xs => Done xs
  | None => Diverges
  end.

(** ** NodeFactory: the generation phase *)

Definition col_E : Z := Eval cbv in column_index_from_string "E".
Definition col_AIL : Z := Eval cbv in column_index_from_string "AIL".
Definition col_AIP : Z := Eval cbv in column_index_from_string "AIP".
Definition col_AIS : Z := Eval cbv in column_index_from_string "AIS".
Definition col_AIT : Z := Eval cbv in column_index_from_string "AIT".
Definition col_AIU : Z := Eval cbv in column_index_from_string "AIU".
Definition col_AIV : Z := Eval cbv in column_index_from_string "AIV".
Definition col_AJB : Z := Eval cbv in column_index_from_string "AJB".
Definition col_AJE : Z := Eval cbv in column_index_from_string "AJE".
Definition col_max_use : Z := col_AIS - 1.

(** The four anchor colours, detected. *)
Record anchors : Type := mkAnchors {
  purple_sig : string;
  blue_sig : string;
  orange_sig : string;
  green_sig : string
}.

Definition anchor_error : exn :=
  RuntimeError "Failed to detect one or more anchor colors (E13/A28/E28/E120).".

(** [ws["E13"]], [ws["A28"]], [ws["E28"]], [ws["E120"]] *)
Definition detect_anchors (ws : worksheet) : outcome anchors :=
  match cell_color ws 13 col_E, cell_color ws 28 1,
        cell_color ws 28 col_E, cell_color ws 120 col_E with
  | Some pu, Some bl, Some og, Some gn => Done (mkAnchors pu bl og gn)
  | _, _, _, _ => Raised anchor_error
  end.

(** [points] and [coord_region]. *)
Definition gen_state : Type := (points_t * dict coord_t region)%type.

(** [points[pid] = {...}; coord_region[(x, y)] = region] *)
Definition put_point (st : gen_state) (pid : string) (x y : Q) (reg : region)
  (m : meta) : gen_state :=
  (dset (fst st) pid (new_point pid x y reg m), dset (snd st) (x, y) reg).

(** [key in coord_region and coord_region[key] == "blue"] *)
Definition blue_at (cr : dict coord_t region) (key : coord_t) : bool :=
  match dget cr key with
  | Some blue => true
  | _ => false
  end.

(** The body shared by every region below blue: skip where blue sits. *)
Definition place (st : gen_state) (pid : string) (x y : Q) (reg : region)
  (m : meta) : gen_state :=
  if blue_at (snd st) (x, y) then st else put_point st pid x y reg m.

Definition blue_id (r c : Z) : string :=
  cat ["BL_R"; fmt_d 3 r; "_C"; fmt_d 4 c]%string.

Definition gen_blue_cell (ws : worksheet) (sig : string) (r : Z)
  (st : gen_state) (c : Z) : gen_state :=
  if has_color ws r c sig
  then put_point st (blue_id r c) (inject_Z (c - 1)) (inject_Z r) blue (MetaCell r c)
  else st.

(** Blue cells of the columns [c_lo .. c_hi]. *)
Definition gen_blue (ws : worksheet) (sig : string) (c_lo c_hi : Z)
  (st : gen_state) : gen_state :=
  fold_left
    (fun st r => fold_left (gen_blue_cell ws sig r) (py_range c_lo (c_hi + 1)) st)
    (py_range 1 (max_row ws + 1)) st.

Definition purple_rows : list Z :=
  py_range 13 17 ++ py_range 22 26 ++ py_range 226 230 ++ py_range 235 239.

Definition purple_h_id (r i : Z) : string :=
  cat ["PUH_R"; fmt_d 3 r; "_"; fmt_d 4 i]%string.

Definition gen_purple_row (ws : worksheet) (sig : string) (r : Z) (st : gen_state)
  : outcome gen_state :=
  if negb (has_color ws r col_E sig) then Done st
  else
    xs <- run_sampler (sample_positions_including_end
                         (inject_Z (col_E - 1)) (inject_Z (col_AIL - 1)) 5) ;;
    Done (fold_left
            (fun st '(i, x) => place st (purple_h_id r i) x (inject_Z r) purple (MetaRow r))
            (py_enumerate 0 xs) st).

(** A grey band: [(row_min, row_max, y)]. *)
Definition grey_bands : list (Z * Z * Z) := [(17, 21, 19); (230, 234, 232)].

Definition band_max_x (ws : worksheet) (row_min row_max : Z) : option Z :=
  fold_left
    (fun max_x '(min_col, min_row, max_col, max_row) =>
       if (min_row =? row_min) && (max_row =? row_max)
       then if min_col >=? col_AIS then max_x
            else let x2 := max_col - 1 in
                 Some (match max_x with None => x2 | Some m => Z.max m x2 end)
       else max_x)
    (merged_ranges ws) None.

Definition grey_h_id (y i : Z) : string :=
  cat ["GYH_Y"; str_of_Z y; "_"; fmt_d 4 i]%string.

Definition gen_grey_band (ws : worksheet) (band : Z * Z * Z) (st : gen_state)
  : outcome gen_state :=
  let '(row_min, row_max, y) := band in
  match band_max_x ws row_min row_max with
  | None => Done st
  | Some max_x =>
      xs <- run_sampler (sample_positions_including_end 4 (inject_Z max_x) 2) ;;
      Done (fold_left
              (fun st '(i, x) => place st (grey_h_id y i) x (inject_Z y) grey (MetaBand y))
              (py_enumerate 0 xs) st)
  end.

Definition seg_id (tag : string) (r s_idx i : Z) : string :=
  cat [tag; "_R"; fmt_d 3 r; "_S"; fmt_d 2 s_idx; "_"; fmt_d 4 i]%string.

Definition gen_segment (tag : string) (reg : region) (r : Z) (seg_ : Z * (Z * Z))
  (st : gen_state) : outcome gen_state :=
  let '(s_idx, (c1, c2)) := seg_ in
  xs <- run_sampler (sample_positions_including_end
                       (inject_Z (c1 - 1)) (inject_Z (c2 - 1)) 5) ;;
  Done (fold_left
          (fun st '(i, x) =>
             place st (seg_id tag r s_idx i) x (inject_Z r) reg (MetaSeg r s_idx c1 c2))
          (py_enumerate 0 xs) st).

(** The orange and the green loops: the same body for a colour signature,
    a region and an id prefix. *)
Definition gen_segments (ws : worksheet) (sig : string) (tag : string)
  (reg : region) (st : gen_state) : outcome gen_state :=
  for_each (py_range 1 (max_row ws + 1))
    (fun r st =>
       let segs := contiguous_segments_for_color ws r sig 1
                     (Z.min (max_column ws) col_max_use) in
       for_each (py_enumerate 1 segs) (gen_segment tag reg r) st)
    st.

Definition vertical_ranges : list (Z * Z) := [(28, 101); (150, 223)].

Definition vertical_id (tag : string) (x r1 i : Z) : string :=
  cat [tag; "_X"; fmt_d 4 x; "_R"; fmt_d 3 r1; "_"; fmt_d 3 i]%string.

Definition add_vertical_points (col_from col_to tag : string) (reg : region)
  (step_v : Z) (st : gen_state) : outcome gen_state :=
  let col1 := column_index_from_string col_from in
  let col2 := column_index_from_string col_to in
  for_each (py_range col1 (col2 + 1))
    (fun col st =>
       let x := col - 1 in
       for_each vertical_ranges
         (fun '(r1, r2) st =>
            ys <- run_sampler (sample_int_positions_including_end r1 r2 step_v) ;;
            Done (fold_left
                    (fun st '(i, y) =>
                       place st (vertical_id tag x r1 i) (inject_Z x) (inject_Z y)
                         reg (MetaCol col r1 r2))
                    (py_enumerate 0 ys) st))
         st)
    st.

Definition generate (ws : worksheet) (a : anchors) : outcome gen_state :=
  let st := gen_blue ws (blue_sig a) 1 col_max_use ([], []) in
  let st := gen_blue ws (blue_sig a) col_AIS col_AIV st in
  st <- for_each purple_rows (gen_purple_row ws (purple_sig a)) st ;;
  st <- for_each grey_bands (gen_grey_band ws) st ;;
  st <- gen_segments ws (orange_sig a) "OR" orange st ;;
  st <- gen_segments ws (green_sig a) "GN" green st ;;
  st <- add_vertical_points "AIS" "AIT" "PUVUP" purple 5 st ;;
  st <- add_vertical_points "AIU" "AIV" "PUVDN" purple 5 st ;;
  st <- add_vertical_points "AJB" "AJE" "PUVDN" purple 5 st ;;
  add_vertical_points "AIY" "AIY" "GYV" grey 2 st.

(** ** SpatialIndex *)

Definition is_empty {A : Type} (l : list A) : bool :=
  match l with [] => true | _ => false end.

(** A [defaultdict(dict)] filled with [out[k1][k2] = pid] for the points
    that [f] keeps. *)
Definition index_by {K1 K2 : Type} `{Hashable K1} `{Hashable K2}
  (f : point -> option (K1 * K2)) (points : points_t) : dict K1 (dict K2 string) :=
  fold_left
    (fun out '(pid, p) =>
       match f p with
       | Some (k1, k2) => dset out k1 (dset (dget_or out k1 []) k2 pid)
       | None => out
       end)
    points [].

(** A [defaultdict(list)] filled with [out[k].append(a)]. *)
Definition group_by {K A : Type} `{Hashable K}
  (f : string -> point -> option (K * A)) (points : points_t) : dict K (list A) :=
  fold_left
    (fun out '(pid, p) =>
       match f pid p with
       | Some (k, a) => dset out k (dget_or out k [] ++ [a])
       | None => out
       end)
    points [].

Definition build_row_index (points : points_t) (reg : region)
  : dict Z (dict Q string) :=
  index_by
    (fun p =>
       if negb (region_eqb (p_region p) reg) then None
       else if negb (kind_eqb (p_kind p) KH || kind_eqb (p_kind p) KSeg) then None
       else Some (py_round (p_y p), p_x p))
    points.

Definition build_rowseg_index (points : points_t) (reg : region)
  : dict (Z * Z) (list string) :=
  let tmp :=
    group_by
      (fun pid p =>
         if negb (region_eqb (p_region p) reg) then None
         else match p_meta p with
              | MetaSeg _ s _ _ => Some ((py_round (p_y p), s), (p_x p, pid))
              | _ => None
              end)
      points in
  map (fun '(key, lst) => (key, map snd (sorted_by fst lst))) tmp.

Definition build_col_index (points : points_t) (reg : region)
  : dict Z (dict Z string) :=
  index_by
    (fun p =>
       if negb (region_eqb (p_region p) reg) then None
       else if negb (kind_eqb (p_kind p) KV) then None
       else Some (py_round (p_x p), py_round (p_y p)))
    points.

Definition ordered_in_row (points_by_row : dict Z (dict Q string)) (row : Z)
  : list (Q * string) :=
  sorted_by fst (dget_or points_by_row row []).

Definition ordered_in_col (points_by_col : dict Z (dict Z string)) (x : Z)
  : list (Z * string) :=
  sorted_by (fun t => inject_Z (fst t)) (dget_or points_by_col x []).

(** The index inside [main] for the orange and green lane changes. *)
Definition build_row_x_index (points : points_t) (reg : region)
  : dict Z (dict Q string) :=
  index_by
    (fun p =>
       if negb (region_eqb (p_region p) reg) then None
       else if negb (kind_eqb (p_kind p) KSeg) then None
       else Some (py_round (p_y p), p_x p))
    points.

(** ** ConnectivityEngine: chains and lane changes *)

Definition add_edge (next_map : next_map_t) (a : string) (b : option string)
  : next_map_t :=
  match b with
  | None => next_map
  | Some b => dset next_map a (set_add b (dget_or next_map a []))
  end.

Inductive direction : Type := Right | Left.

(** [for i in range(len(ids) - 1): add_edge(ids[i], ids[i + 1])] *)
Fixpoint chain_right (nm : next_map_t) (ids : list string) : next_map_t :=
  match ids with
  | a :: ((b :: _) as tl) => chain_right (add_edge nm a (Some b)) tl
  | _ => nm
  end.

(** [for i in range(1, len(ids)): add_edge(ids[i], ids[i - 1])] *)
Fixpoint chain_left (nm : next_map_t) (ids : list string) : next_map_t :=
  match ids with
  | a :: ((b :: _) as tl) => chain_left (add_edge nm b (Some a)) tl
  | _ => nm
  end.

Definition chain (d : direction) (nm : next_map_t) (ids : list string) : next_map_t :=
  match d with
  | Right => chain_right nm ids
  | Left => chain_left nm ids
  end.

Definition connect_purple_rows (purple_row_index : dict Z (dict Q string))
  (rows : list Z) (d : direction) (nm : next_map_t) : next_map_t :=
  fold_left
    (fun nm r =>
       let ordered := ordered_in_row purple_row_index r in
       if (List.length ordered <? 2)%nat then nm
       else chain d nm (map snd ordered))
    rows nm.

(** [for k, pid in a.items(): pid2 = b.get(k); if pid2: add_edge(pid, pid2)] *)
Definition link_same_key {K : Type} `{Hashable K} (a b : dict K string)
  (nm : next_map_t) : next_map_t :=
  fold_left
    (fun nm '(k, pid) =>
       match dget b k with
       | Some pid2 => if truthy pid2 then add_edge nm pid (Some pid2) else nm
       | None => nm
       end)
    a nm.

Definition lane_change (purple_row_index : dict Z (dict Q string))
  (r_from r_to : Z) (allow : bool) (nm : next_map_t) : next_map_t :=
  if negb allow then nm
  else
    let a := dget_or purple_row_index r_from [] in
    let b := dget_or purple_row_index r_to [] in
    if is_empty a || is_empty b then nm else link_same_key a b nm.

(** The purple lane changes of [main], in the order of the calls. *)
Definition purple_lane_pairs : list (Z * Z) :=
  flat_map (fun r => [(r, r + 1); (r + 1, r)]) (py_range 13 16)
  ++ [(22, 23); (23, 22); (23, 24); (24, 23); (24, 25); (25, 24);
      (226, 227); (227, 226); (228, 229); (229, 228); (227, 228); (228, 227)]
  ++ flat_map (fun r => [(r, r + 1); (r + 1, r)]) (py_range 235 238).

Definition purple_lane_changes (purple_row_index : dict Z (dict Q string))
  (nm : next_map_t) : next_map_t :=
  fold_left (fun nm '(r_from, r_to) => lane_change purple_row_index r_from r_to true nm)
    purple_lane_pairs nm.

Definition og_dir (row : Z) : direction :=
  if row =? 125 then Right
  else if row >=? 126 then Left
  else Right.

Definition connect_segments (rowseg : dict (Z * Z) (list string))
  (direction_func : Z -> direction) (nm : next_map_t) : next_map_t :=
  fold_left
    (fun nm '((r, _), ids) =>
       if (List.length ids <? 2)%nat then nm
       else chain (direction_func r) nm ids)
    rowseg nm.

Definition lane_change_og (row_x : dict Z (dict Q string))
  (r_from r_to : Z) (allow : bool) (nm : next_map_t) : next_map_t :=
  if negb allow then nm
  else
    let a := dget_or row_x r_from [] in
    let b := dget_or row_x r_to [] in
    if is_empty a || is_empty b then nm else link_same_key a b nm.

(** [sorted(set(orange_row_x.keys()) | set(green_row_x.keys()))] *)
Definition all_og_rows (orange_row_x green_row_x : dict Z (dict Q string)) : list Z :=
  sorted_by inject_Z (nodup Z.eq_dec (dkeys orange_row_x ++ dkeys green_row_x)).

(** Row 125 cannot reach 126, and the other way round. *)
Definition og_allow (r r_to : Z) : bool :=
  negb (((r =? 125) && (r_to =? 126)) || ((r =? 126) && (r_to =? 125))).

Definition og_lane_step (orange_row_x green_row_x : dict Z (dict Q string))
  (rows : list Z) (r : Z) (nm : next_map_t) (r_to : Z) : next_map_t :=
  if negb (existsb (Z.eqb r_to) rows) then nm
  else
    let allow := og_allow r r_to in
    lane_change_og green_row_x r r_to allow
      (lane_change_og orange_row_x r r_to allow nm).

Definition og_lane_changes (orange_row_x green_row_x : dict Z (dict Q string))
  (nm : next_map_t) : next_map_t :=
  let rows := all_og_rows orange_row_x green_row_x in
  fold_left
    (fun nm r =>
       fold_left (og_lane_step orange_row_x green_row_x rows r) [r - 1; r + 1] nm)
    rows nm.

(** ** ConnectivityEngine: blue cells *)

(** [points[pid]] *)
Definition point_at (points : points_t) (pid : string) : outcome point :=
  match dget points pid with
  | Some p => Done p
  | None => Raised (KeyError pid)
  end.

(** [[x for x in l if f(x)]] where [f] may raise. *)
Fixpoint filter_m {A : Type} (f : A -> outcome bool) (l : list A) : outcome (list A) :=
  match l with
  | [] => Done []
  | a :: l' =>
      keep <- f a ;;
      rest <- filter_m f l' ;;
      Done (if keep then a :: rest else rest)
  end.

(** The first element that [f] accepts; elements after it are not visited. *)
Fixpoint find_m {A : Type} (f : A -> outcome bool) (l : list A) : outcome (option A) :=
  match l with
  | [] => Done None
  | a :: l' =>
      hit <- f a ;;
      if hit then Done (Some a) else find_m f l'
  end.

(** [coord_index[(p["x"], p["y"])].append(pid)] *)
Definition build_coord_index (points : points_t) : dict coord_t (list string) :=
  group_by (fun pid p => Some ((p_x p, p_y p), pid)) points.

Definition region_is (points : points_t) (reg : region) (pid : string) : outcome bool :=
  p <- point_at points pid ;; Done (region_eqb (p_region p) reg).

Definition region_is_not (points : points_t) (reg : region) (pid : string)
  : outcome bool :=
  p <- point_at points pid ;; Done (negb (region_eqb (p_region p) reg)).

Definition get_pid_at (points : points_t) (coord_index : dict coord_t (list string))
  (x y : Q) (prefer_region exclude_region : option region) : outcome (option string) :=
  let cands := dget_or coord_index (x, y) [] in
  if is_empty cands then Done None
  else
    cands <- match exclude_region with
             | Some ex => filter_m (region_is_not points ex) cands
             | None => Done cands
             end ;;
    match cands with
    | [] => Done None
    | first :: _ =>
        match prefer_region with
        | Some pr =>
            hit <- find_m (region_is points pr) cands ;;
            match hit with
            | Some pid => Done (Some pid)
            | None => Done (Some first)
            end
        | None => Done (Some first)
        end
    end.

Definition right_purple_rows : list Z :=
  py_range 13 17 ++ py_range 22 24 ++ py_range 226 228.

Definition left_purple_rows : list Z :=
  py_range 24 26 ++ py_range 228 230 ++ py_range 235 239.

Definition row_lr_dir (r : Z) : direction :=
  if existsb (Z.eqb r) right_purple_rows then Right
  else if existsb (Z.eqb r) left_purple_rows then Left
  else og_dir r.

(** The blue ids of the cells [c1 .. c2] of row [r]. *)
Definition blue_ids_of_segment (points : points_t)
  (coord_index : dict coord_t (list string)) (r c1 c2 : Z) : outcome (list string) :=
  for_each (py_range c1 (c2 + 1))
    (fun c ids =>
       pid <- get_pid_at points coord_index (inject_Z (c - 1)) (inject_Z r)
                (Some blue) None ;;
       match pid with
       | Some pid =>
           if truthy pid
           then is_blue <- region_is points blue pid ;;
                Done (if is_blue then ids ++ [pid] else ids)
           else Done ids
       | None => Done ids
       end)
    [].

(** [if outside and points[outside]["region"] != "blue": add_edge(a, b)],
    the edge [(a, b)] built from the outside id. *)
Definition link_outside (points : points_t) (outside : option string)
  (edge : string -> string * string) (nm : next_map_t) : outcome next_map_t :=
  match outside with
  | Some o =>
      if truthy o
      then ok <- region_is_not points blue o ;;
           Done (if ok then add_edge nm (fst (edge o)) (Some (snd (edge o))) else nm)
      else Done nm
  | None => Done nm
  end.

Definition blue_segment (points : points_t)
  (coord_index : dict coord_t (list string)) (r : Z) (d : direction)
  (sg : Z * Z) (nm : next_map_t) : outcome next_map_t :=
  let '(c1, c2) := sg in
  ids <- blue_ids_of_segment points coord_index r c1 c2 ;;
  if (List.length ids <? 2)%nat then Done nm
  else
    keyed <- map_m (fun pid => p <- point_at points pid ;; Done (p_x p, pid)) ids ;;
    let ids_sorted := map snd (sorted_by fst keyed) in
    let nm := chain d nm ids_sorted in
    (* [ids_sorted[0]] and [ids_sorted[-1]]: the list has two ids or more *)
    let first := hd EmptyString ids_sorted in
    let final := last ids_sorted EmptyString in
    outside_left <- get_pid_at points coord_index (inject_Z ((c1 - 1) - 1))
                      (inject_Z r) None (Some blue) ;;
    outside_right <- get_pid_at points coord_index (inject_Z ((c2 + 1) - 1))
                       (inject_Z r) None (Some blue) ;;
    match d with
    | Right =>
        nm <- link_outside points outside_left (fun o => (o, first)) nm ;;
        link_outside points outside_right (fun o => (final, o)) nm
    | Left =>
        nm <- link_outside points outside_right (fun o => (o, final)) nm ;;
        link_outside points outside_left (fun o => (first, o)) nm
    end.

(** Step 1 of the blue connectivity: the horizontal links of every blue
    segment of every row. *)
Definition blue_horizontal (ws : worksheet) (sig : string) (points : points_t)
  (coord_index : dict coord_t (list string)) (nm : next_map_t) : outcome next_map_t :=
  let col_max_use_blue := Z.min (max_column ws) col_AIV in
  for_each (py_range 1 (max_row ws + 1))
    (fun r nm =>
       let segs := contiguous_segments_for_color ws r sig 1 col_max_use_blue in
       if is_empty segs then Done nm
       else for_each segs (blue_segment points coord_index r (row_lr_dir r)) nm)
    nm.

Inductive vdir : Type := Up | Down.

Definition vdir_eqb (a b : vdir) : bool :=
  match a, b with
  | Up, Up | Down, Down => true
  | _, _ => false
  end.

Definition build_blue_segs_by_row (ws : worksheet) (sig : string)
  : dict Z (list (Z * Z)) :=
  let col_max_use_blue := Z.min (max_column ws) col_AIV in
  fold_left
    (fun out r =>
       let segs := contiguous_segments_for_color ws r sig 1 col_max_use_blue in
       if is_empty segs then out else dset out r segs)
    (py_range 1 (max_row ws + 1)) [].

Definition blue_vertical_dir (blue_segs_by_row : dict Z (list (Z * Z)))
  (row col : Z) : option vdir :=
  match dget blue_segs_by_row row with
  | None => None
  | Some segs =>
      match find (fun '(c1, c2) => (c1 <=? col) && (col <=? c2)) segs with
      | Some (c1, _) => Some (if col - c1 <=? 1 then Up else Down)
      | None => None
      end
  end.

(** [blue_points_by_x[x].append((y, pid, d))]; the subscripts
    [p["meta"]["row"]] and [p["meta"]["col"]] raise where the key is absent. *)
Definition build_blue_points_by_x (blue_segs_by_row : dict Z (list (Z * Z)))
  (points : points_t) : outcome (dict Z (list (Z * string * vdir))) :=
  for_each points
    (fun '(pid, p) out =>
       if negb (region_eqb (p_region p) blue) then Done out
       else
         match meta_row (p_meta p) with
         | None => Raised (KeyError "row")
         | Some row =>
             match meta_col (p_meta p) with
             | None => Raised (KeyError "col")
             | Some col =>
                 match blue_vertical_dir blue_segs_by_row row col with
                 | None => Done out
                 | Some d =>
                     let x := py_round (p_x p) in
                     let y := py_round (p_y p) in
                     Done (dset out x (dget_or out x [] ++ [(y, pid, d)]))
                 end
             end
         end)
    [].

(** [{y: pid for (y, pid, _) in lst}] *)
Definition y_map (lst : list (Z * string * vdir)) : dict Z string :=
  fold_left (fun m '(y, pid, _) => dset m y pid) lst [].

(** The blue links between the columns AIP and AIS at the same [y]. *)
Definition link_aip_ais (blue_points_by_x : dict Z (list (Z * string * vdir)))
  (nm : next_map_t) : next_map_t :=
  let x_AIP := col_AIP - 1 in
  let x_AIS := col_AIS - 1 in
  match dget blue_points_by_x x_AIP, dget blue_points_by_x x_AIS with
  | Some at_aip, Some at_ais =>
      let aip_map := y_map at_aip in
      let ais_map := y_map at_ais in
      (* [for y in set(aip_map.keys()) & set(ais_map.keys())] *)
      fold_left
        (fun nm '(y, pid_aip) =>
           match dget ais_map y with
           | Some pid_ais =>
               match row_lr_dir y with
               | Right => add_edge nm pid_aip (Some pid_ais)
               | Left => add_edge nm pid_ais (Some pid_aip)
               end
           | None => nm
           end)
        aip_map nm
  | _, _ => nm
  end.

Definition ids_of_dir (d : vdir) (lst : list (Z * string * vdir)) : list (Z * string) :=
  map (fun '(y, pid, _) => (y, pid))
    (filter (fun '(_, _, d') => vdir_eqb d' d) lst).

(** The vertical chains of the blue columns: up columns link to the next
    smaller [y], down columns to the next larger. *)
Definition blue_vertical_chains (blue_points_by_x : dict Z (list (Z * string * vdir)))
  (nm : next_map_t) : next_map_t :=
  fold_left
    (fun nm '(x, lst) =>
       let ups := sorted_by (fun t => inject_Z (fst t)) (ids_of_dir Up lst) in
       let dns := sorted_by (fun t => inject_Z (fst t)) (ids_of_dir Down lst) in
       chain_right (chain_left nm (map snd ups)) (map snd dns))
    blue_points_by_x nm.

(** ** ConnectivityEngine: the vertical corridors AIS..AJE *)

Definition x_AIS : Z := col_AIS - 1.
Definition x_AIT : Z := col_AIT - 1.
Definition x_AIU : Z := col_AIU - 1.
Definition x_AIV : Z := col_AIV - 1.
Definition x_AJB : Z := col_AJB - 1.
Definition x_AJE : Z := col_AJE - 1.
Definition x_E : Z := col_E - 1.
Definition x_AIL : Z := col_AIL - 1.

Definition step_v_purple : Z := 5.

(** [ordered[i][0] - ordered[i-1][0] <= step_v_purple + 1e-9] *)
Definition close_enough (y_lo y_hi : Z) : bool :=
  Qle_bool (inject_Z (y_hi - y_lo)) (inject_Z step_v_purple + EPS).

(** Up: from each entry to the one before it, when close enough. *)
Fixpoint chain_up_within (nm : next_map_t) (ordered : list (Z * string)) : next_map_t :=
  match ordered with
  | (y0, a) :: (((y1, b) :: _) as tl) =>
      chain_up_within (if close_enough y0 y1 then add_edge nm b (Some a) else nm) tl
  | _ => nm
  end.

(** Down: from each entry to the one after it, when close enough. *)
Fixpoint chain_down_within (nm : next_map_t) (ordered : list (Z * string)) : next_map_t :=
  match ordered with
  | (y0, a) :: (((y1, b) :: _) as tl) =>
      chain_down_within (if close_enough y0 y1 then add_edge nm a (Some b) else nm) tl
  | _ => nm
  end.

Definition in_range (r1 r2 : Z) (t : Z * string) : bool :=
  (r1 <=? fst t) && (fst t <=? r2).

Definition purple_vertical_chains (purple_col_index : dict Z (dict Z string))
  (nm : next_map_t) : next_map_t :=
  fold_left
    (fun nm '(r1, r2) =>
       let nm :=
         fold_left
           (fun nm x =>
              chain_up_within nm
                (filter (in_range r1 r2) (ordered_in_col purple_col_index x)))
           (py_range x_AIS (x_AIT + 1)) nm in
       fold_left
         (fun nm x =>
            chain_down_within nm
              (filter (in_range r1 r2) (ordered_in_col purple_col_index x)))
         (py_range x_AIU (x_AIV + 1) ++ py_range x_AJB (x_AJE + 1)) nm)
    vertical_ranges nm.

(** [{(int(round(x)), int(round(y))): pid for blue cells}] *)
Definition build_blue_index (points : points_t) : dict (Z * Z) string :=
  fold_left
    (fun out '(pid, p) =>
       if region_eqb (p_region p) blue && kind_eqb (p_kind p) KCell
       then dset out (py_round (p_x p), py_round (p_y p)) pid
       else out)
    points [].

(** [d.get(k)] followed by [if pid:]. *)
Definition get_truthy {K : Type} `{Hashable K} (d : dict K string) (k : K)
  : option string :=
  match dget d k with
  | Some pid => if truthy pid then Some pid else None
  | None => None
  end.

(** [for d in range(1, 6): hit = f(y + sign * d); if hit: ...; break], with
    the [if y_to < 0: break] of the upward searches when [guard] is set. *)
Fixpoint first_within {B : Type} (f : Z -> option B) (guard : bool) (y sign : Z)
  (ds : list Z) : option (Z * B) :=
  match ds with
  | [] => None
  | d :: ds' =>
      let y_to := y + sign * d in
      if guard && (y_to <? 0) then None
      else match f y_to with
           | Some b => Some (d, b)
           | None => first_within f guard y sign ds'
           end
  end.

(** [sorted({y for (xx, y) in blue_index.keys() if xx == x})] *)
Definition blue_ys (blue_index : dict (Z * Z) string) (x : Z) : list Z :=
  sorted_by inject_Z
    (nodup Z.eq_dec (map snd (filter (fun k => fst k =? x) (dkeys blue_index)))).

(** Blue to the nearest blue above ([sign = -1]) or below ([sign = 1])
    within five rows, in the columns [x_lo .. x_hi]. *)
Definition blue_vertical_bridge (blue_index : dict (Z * Z) string)
  (x_lo x_hi sign : Z) (nm : next_map_t) : next_map_t :=
  fold_left
    (fun nm x =>
       fold_left
         (fun nm y =>
            match dget blue_index (x, y),
                  first_within (fun y' => get_truthy blue_index (x, y')) false y sign
                    (py_range 1 6) with
            | Some pid, Some (_, pid2) => add_edge nm pid (Some pid2)
            | _, _ => nm
            end)
         (blue_ys blue_index x) nm)
    (py_range x_lo (x_hi + 1)) nm.

(** The candidate [(d, abs(y_from), pid_b_from)] and its tuple order. *)
Definition cand_t : Type := (Z * Z * string)%type.

Definition cand_ltb (a b : cand_t) : bool :=
  let '(d1, y1, s1) := a in
  let '(d2, y2, s2) := b in
  (d1 <? d2)
  || ((d1 =? d2) && ((y1 <? y2) || ((y1 =? y2) && String.ltb s1 s2))).

Definition best_t : Type := dict string (cand_t * string).

Definition MAX_DY : Z := 5.

(** [purple_col_index.get(xi, {}).get(y)] *)
Definition purple_at (purple_col_index : dict Z (dict Z string)) (xi y : Z)
  : option string :=
  get_truthy (dget_or purple_col_index xi []) y.

(** [add_adj_bp_edge_up] ([sign = -1], [guard = true]) and
    [add_adj_bp_edge_down] ([sign = 1], [guard = false]). *)
Definition add_adj_bp_edge (purple_col_index : dict Z (dict Z string))
  (blue_index : dict (Z * Z) string) (guard : bool) (sign : Z) (xi y_from : Z)
  (st : best_t * next_map_t) : best_t * next_map_t :=
  let '(best, nm) := st in
  let ds := py_range 1 (MAX_DY + 1) in
  let best :=
    match get_truthy blue_index (xi, y_from) with
    | Some pid_b_from =>
        match first_within (purple_at purple_col_index xi) guard y_from sign ds with
        | Some (d, pid_p_to) =>
            let cand := (d, Z.abs y_from, pid_b_from) in
            match dget best pid_p_to with
            | None => dset best pid_p_to (cand, pid_b_from)
            | Some cur =>
                if cand_ltb cand (fst cur) then dset best pid_p_to (cand, pid_b_from)
                else best
            end
        | None => best
        end
    | None => best
    end in
  let nm :=
    match purple_at purple_col_index xi y_from with
    | Some pid_p_from =>
        match first_within (fun y' => get_truthy blue_index (xi, y')) guard y_from sign ds with
        | Some (_, pid_b_to) => add_edge nm pid_p_from (Some pid_b_to)
        | None => nm
        end
    | None => nm
    end in
  (best, nm).

(** [set(purple_col_index.get(x, {}).keys()) | {y for (xx, y) in blue_index.keys() if xx == x}],
    enumerated in a fixed order. *)
Definition bp_ys (purple_col_index : dict Z (dict Z string))
  (blue_index : dict (Z * Z) string) (x : Z) : list Z :=
  nodup Z.eq_dec
    (dkeys (dget_or purple_col_index x [])
     ++ map snd (filter (fun k => fst k =? x) (dkeys blue_index))).

Definition bp_group (purple_col_index : dict Z (dict Z string))
  (blue_index : dict (Z * Z) string) (guard : bool) (sign x_lo x_hi : Z)
  (st : best_t * next_map_t) : best_t * next_map_t :=
  fold_left
    (fun st x =>
       fold_left
         (fun st y => add_adj_bp_edge purple_col_index blue_index guard sign x y st)
         (bp_ys purple_col_index blue_index x) st)
    (py_range x_lo (x_hi + 1)) st.

(** The blue/purple adjacency of the columns AIS..AIV, with the commit of
    the nearest blue of each purple point. *)
Definition blue_purple_adjacency (purple_col_index : dict Z (dict Z string))
  (blue_index : dict (Z * Z) string) (nm : next_map_t) : next_map_t :=
  let st := bp_group purple_col_index blue_index true (-1) x_AIS x_AIT ([], nm) in
  let st := bp_group purple_col_index blue_index false 1 x_AIU x_AIV st in
  fold_left (fun nm '(pid_pu, (_, pid_bl)) => add_edge nm pid_bl (Some pid_pu))
    (fst st) (snd st).

Definition lane_change_cols (purple_col_index : dict Z (dict Z string))
  (x_from x_to : Z) (allow : bool) (nm : next_map_t) : next_map_t :=
  if negb allow then nm
  else link_same_key (dget_or purple_col_index x_from [])
         (dget_or purple_col_index x_to []) nm.

(** The column lane changes of [main], in the order of the calls. *)
Definition col_lane_pairs : list (Z * Z) :=
  [(x_AIS, x_AIS + 1); (x_AIT, x_AIT - 1)]
  ++ flat_map (fun x => if x =? x_AIU then [(x, x + 1)] else [(x, x - 1); (x, x + 1)])
       (py_range x_AIU (x_AIV + 1))
  ++ [(x_AIT, x_AIU); (x_AIU, x_AIT)]
  ++ flat_map (fun x => if x =? x_AJB then [(x, x + 1)]
                        else if x =? x_AJE then [(x, x - 1)]
                        else [(x, x - 1); (x, x + 1)])
       (py_range x_AJB (x_AJE + 1)).

Definition col_lane_changes (purple_col_index : dict Z (dict Z string))
  (nm : next_map_t) : next_map_t :=
  fold_left (fun nm '(x_from, x_to) => lane_change_cols purple_col_index x_from x_to true nm)
    col_lane_pairs nm.

(** ** ConnectivityEngine: boundary bridging *)

(** A candidate [(pid, x, y)]. *)
Definition cand3 : Type := (string * Q * Q)%type.

Definition c_id (c : cand3) : string := fst (fst c).
Definition c_x (c : cand3) : Q := snd (fst c).
Definition c_y (c : cand3) : Q := snd c.

Definition cand_of (pid : string) (p : point) : cand3 := (pid, p_x p, p_y p).

Definition in_middle (yi : Z) : bool := (102 <=? yi) && (yi <=? 149).

(** [aiv_candidates] (purple or blue on column AIV, the middle blue left
    out) and [ajb_candidates] (purple on column AJB), filled by one loop. *)
Definition boundary_step (out : list cand3 * list cand3) (item : string * point)
  : list cand3 * list cand3 :=
  let '(pid, p) := item in
  let '(aiv, ajb) := out in
  let xi := py_round (p_x p) in
  let on_aiv :=
    (xi =? x_AIV) && (region_eqb (p_region p) purple || region_eqb (p_region p) blue) in
  if on_aiv && region_eqb (p_region p) blue && in_middle (py_round (p_y p))
  then out                                            (* continue *)
  else
    let aiv := if on_aiv then aiv ++ [cand_of pid p] else aiv in
    let ajb := if (xi =? x_AJB) && region_eqb (p_region p) purple
               then ajb ++ [cand_of pid p] else ajb in
    (aiv, ajb).

Definition build_boundary_candidates (points : points_t) : list cand3 * list cand3 :=
  fold_left boundary_step points ([], []).

Definition in_grey_band (ry : Z) : bool :=
  ((17 <=? ry) && (ry <=? 21)) || ((230 <=? ry) && (ry <=? 234)).

(** [grey_v] and [grey_h], filled by one loop. *)
Definition grey_step (out : list cand3 * list cand3) (item : string * point)
  : list cand3 * list cand3 :=
  let '(gid, gp) := item in
  let '(grey_v, grey_h) := out in
  if negb (region_eqb (p_region gp) grey) then out
  else if kind_eqb (p_kind gp) KV then (grey_v ++ [cand_of gid gp], grey_h)
  else if kind_eqb (p_kind gp) KH && in_grey_band (py_round (p_y gp))
       then (grey_v, grey_h ++ [cand_of gid gp])
       else out.

Definition build_grey (points : points_t) : list cand3 * list cand3 :=
  fold_left grey_step points ([], []).

(** The running minimum shared by the four nearest-neighbour searches:
    [best] and [best_ids], a new best when [d < best - EPS], a tie when
    [abs(d - best) <= EPS]. *)
Definition nearest_step (dist : cand3 -> Q) (st : option Q * list string) (c : cand3)
  : option Q * list string :=
  let d := dist c in
  match fst st with
  | None => (Some d, [c_id c])
  | Some best =>
      if Qlt_bool d (best - EPS) then (Some d, [c_id c])
      else if Qle_bool (Qabs (d - best)) EPS then (Some best, snd st ++ [c_id c])
      else st
  end.

Definition best_ids_of (dist : cand3 -> Q) (cands : list cand3) : list string :=
  snd (fold_left (nearest_step dist) cands (None, [])).

(** [for pid in best_ids: if pid not in out: out.append(pid)] *)
Definition uniq (ids : list string) : list string :=
  fold_left (fun out pid => if existsb (String.eqb pid) out then out else out ++ [pid])
    ids [].

(** [bisect.bisect_left(ys, y)] on a sorted list. *)
Fixpoint bisect_left (ys : list Q) (y : Q) : nat :=
  match ys with
  | [] => O
  | a :: ys' => if Qlt_bool a y then S (bisect_left ys' y) else O
  end.

Definition nth_list {A : Type} (l : list A) (j : nat) : list A :=
  match nth_error l j with
  | Some a => [a]
  | None => []
  end.

Definition nearest_by_y_ids (cands : list cand3) (y : Q) (cap : nat) : list string :=
  if is_empty cands then []
  else
    let c_sorted := sorted_by c_y cands in
    let ys := map c_y c_sorted in
    let i := bisect_left ys y in
    (* [for j in (i - 1, i): if 0 <= j < len(c_sorted)] *)
    let neigh := match i with
                 | O => []
                 | S j => nth_list c_sorted j
                 end ++ nth_list c_sorted i in
    if is_empty neigh then []
    else firstn cap (uniq (best_ids_of (fun c => Qabs (c_y c - y)) neigh)).

Definition nearest_by_x_ids (cands : list cand3) (x : Q) (cap : nat) : list string :=
  if is_empty cands then []
  else firstn cap (uniq (best_ids_of (fun c => Qabs (c_x c - x)) cands)).

Definition nearest_grey_by_x_in_band (bx : Q) (band : list cand3) (cap : nat)
  : list string :=
  if is_empty band then []
  else firstn cap (uniq (best_ids_of (fun c => Qabs (c_x c - bx)) band)).

(** [for pid in ids: add_edge(a, pid); add_edge(pid, a)] *)
Definition link_both (a : string) (ids : list string) (nm : next_map_t) : next_map_t :=
  fold_left (fun nm pid => add_edge (add_edge nm a (Some pid)) pid (Some a)) ids nm.

(** Step 1: every vertical grey point to its nearest AIV and AJB points. *)
Definition link_grey_v (grey_v aiv_candidates ajb_candidates : list cand3)
  (nm : next_map_t) : next_map_t :=
  fold_left
    (fun nm g =>
       link_both (c_id g) (nearest_by_y_ids ajb_candidates (c_y g) 2)
         (link_both (c_id g) (nearest_by_y_ids aiv_candidates (c_y g) 2) nm))
    grey_v nm.

(** The purple and blue points whose rounded [y] is [row]. *)
Definition pb_row (points : points_t) (row : Z) : list cand3 :=
  fold_left
    (fun out '(pid, p) =>
       if negb (region_eqb (p_region p) purple || region_eqb (p_region p) blue)
       then out
       else if py_round (p_y p) =? row then out ++ [cand_of pid p] else out)
    points [].

Definition link_grey_h (points : points_t) (grey_h : list cand3) (nm : next_map_t)
  : next_map_t :=
  let pb_row16 := pb_row points 16 in
  let pb_row22 := pb_row points 22 in
  let pb_row229 := pb_row points 229 in
  let pb_row235 := pb_row points 235 in
  fold_left
    (fun nm g =>
       let ry := py_round (c_y g) in
       if (17 <=? ry) && (ry <=? 21)
       then link_both (c_id g) (nearest_by_x_ids pb_row22 (c_x g) 2)
              (link_both (c_id g) (nearest_by_x_ids pb_row16 (c_x g) 2) nm)
       else link_both (c_id g) (nearest_by_x_ids pb_row235 (c_x g) 2)
              (link_both (c_id g) (nearest_by_x_ids pb_row229 (c_x g) 2) nm))
    grey_h nm.

(** Rows 22 and 229: the blue cells of the columns E..AIL link to the
    nearest grey of the band above or below. *)
Definition link_blue_rows (points : points_t) (grey_h : list cand3) (nm : next_map_t)
  : next_map_t :=
  let grey_band_17_21 :=
    filter (fun g => (17 <=? py_round (c_y g)) && (py_round (c_y g) <=? 21)) grey_h in
  let grey_band_230_234 :=
    filter (fun g => (230 <=? py_round (c_y g)) && (py_round (c_y g) <=? 234)) grey_h in
  fold_left
    (fun nm '(pid, p) =>
       if negb (region_eqb (p_region p) blue) then nm
       else if negb (kind_eqb (p_kind p) KCell) then nm
       else
         let x := py_round (p_x p) in
         let y := py_round (p_y p) in
         if (x <? x_E) || (x >? x_AIL) then nm
         else if y =? 22
              then link_both pid (nearest_grey_by_x_in_band (p_x p) grey_band_17_21 2) nm
              else if y =? 229
                   then link_both pid
                          (nearest_grey_by_x_in_band (p_x p) grey_band_230_234 2) nm
                   else nm)
    points nm.

(** ** ConnectivityEngine: the fallback for the blue points of column AIV *)

(** [any(f(t) for t in outs)], stopping at the first hit. *)
Fixpoint any_m {A : Type} (f : A -> outcome bool) (l : list A) : outcome bool :=
  match l with
  | [] => Done false
  | a :: l' => hit <- f a ;; if hit then Done true else any_m f l'
  end.

Definition has_any_grey_neighbor (points : points_t) (nm : next_map_t) (pid : string)
  : outcome bool :=
  let outs := dget_or nm pid [] in
  if is_empty outs then Done false
  else any_m (region_is points grey) outs.

(** The grey points strictly to the right of [bx]. *)
Definition right_of (bx : Q) (all_grey : list cand3) : list cand3 :=
  filter (fun g => Qlt_bool (bx + EPS) (c_x g)) all_grey.

(** [(gx - bx) ** 2 + (gy - by) ** 2] *)
Definition sq_dist (bx b_y : Q) (g : cand3) : Q :=
  ((c_x g - bx) * (c_x g - bx) + (c_y g - b_y) * (c_y g - b_y))%Q.

(** The grey points the fallback links to a blue point at [(bx, by)]. *)
Definition fallback_targets (bx b_y : Q) (all_grey : list cand3) : list string :=
  let candidates := right_of bx all_grey in
  if is_empty candidates then []
  else firstn 2 (uniq (best_ids_of (sq_dist bx b_y) candidates)).

Definition fallback_point (points : points_t) (all_grey : list cand3)
  (item : string * point) (nm : next_map_t) : outcome next_map_t :=
  let '(pid, p) := item in
  if negb (region_eqb (p_region p) blue) then Done nm
  else if negb (py_round (p_x p) =? x_AIV) then Done nm
  else
    has_grey <- has_any_grey_neighbor points nm pid ;;
    if has_grey then Done nm
    else if in_middle (py_round (p_y p)) then Done nm
    else Done (link_both pid (fallback_targets (p_x p) (p_y p) all_grey) nm).

(** Step 2: the blue points of column AIV that still have no grey neighbour. *)
Definition fallback_bridge (points : points_t) (all_grey : list cand3)
  (nm : next_map_t) : outcome next_map_t :=
  for_each points (fallback_point points all_grey) nm.

(** ** IOFlagger *)

Definition inout_rows_purple : list Z := [13; 14; 15; 16; 235; 236; 237; 238].
Definition inout_rows_orange : list Z :=
  [31; 54; 57; 80; 83; 106; 109; 142; 145; 168; 171; 194; 197; 220].
Definition inout_rows_green : list Z := [120; 131].

Definition zmem (z : Z) (l : list Z) : bool := existsb (Z.eqb z) l.

Definition inout_flag (p : point) : bool :=
  let x := py_round (p_x p) in
  let y := py_round (p_y p) in
  match p_region p with
  | grey => true
  | purple => zmem y inout_rows_purple || ((x_AJB <=? x) && (x <=? x_AJE))
  | orange => zmem y inout_rows_orange
  | green => zmem y inout_rows_green
  | blue => false
  end.

(** [p["inout"] = bool(flag)] *)
Definition set_inout (p : point) (flag : bool) : point :=
  mkPoint (p_id p) (p_x p) (p_y p) (p_region p) (p_meta p) (Some flag) (p_next p).

Definition flag_inout (points : points_t) : points_t :=
  map (fun '(pid, p) => (pid, set_inout p (inout_flag p))) points.

(** ** GraphAssembler *)

(** [p["next"] = sorted(next_map.get(pid, set()))] *)
Definition set_next (p : point) (next : list string) : point :=
  mkPoint (p_id p) (p_x p) (p_y p) (p_region p) (p_meta p) (p_inout p) (Some next).

Definition attach_next (next_map : next_map_t) (points : points_t) : points_t :=
  map (fun '(pid, p) => (pid, set_next p (sorted_str (dget_or next_map pid [])))) points.

(** ** The connectivity phase and [main] *)

Definition connect (ws : worksheet) (a : anchors) (points : points_t)
  : outcome next_map_t :=
  let nm : next_map_t := [] in
  let purple_row_index := build_row_index points purple in
  let orange_rowseg := build_rowseg_index points orange in
  let green_rowseg := build_rowseg_index points green in
  let purple_col_index := build_col_index points purple in
  let nm := connect_purple_rows purple_row_index (py_range 13 17 ++ py_range 22 24) Right nm in
  let nm := connect_purple_rows purple_row_index (py_range 24 26) Left nm in
  let nm := connect_purple_rows purple_row_index (py_range 226 228) Right nm in
  let nm := connect_purple_rows purple_row_index (py_range 228 230 ++ py_range 235 239) Left nm in
  let nm := purple_lane_changes purple_row_index nm in
  let nm := connect_segments orange_rowseg og_dir nm in
  let nm := connect_segments green_rowseg og_dir nm in
  let nm := og_lane_changes (build_row_x_index points orange)
              (build_row_x_index points green) nm in
  let coord_index := build_coord_index points in
  nm <- blue_horizontal ws (blue_sig a) points coord_index nm ;;
  blue_points_by_x <- build_blue_points_by_x
                        (build_blue_segs_by_row ws (blue_sig a)) points ;;
  let nm := link_aip_ais blue_points_by_x nm in
  let nm := blue_vertical_chains blue_points_by_x nm in
  let nm := purple_vertical_chains purple_col_index nm in
  let blue_index := build_blue_index points in
  let nm := blue_vertical_bridge blue_index x_AIS x_AIT (-1) nm in
  let nm := blue_vertical_bridge blue_index x_AIU x_AIV 1 nm in
  let nm := blue_purple_adjacency purple_col_index blue_index nm in
  let nm := col_lane_changes purple_col_index nm in
  let '(aiv_candidates, ajb_candidates) := build_boundary_candidates points in
  let '(grey_v, grey_h) := build_grey points in
  let all_grey := grey_v ++ grey_h in
  let nm := link_grey_v grey_v aiv_candidates ajb_candidates nm in
  let nm := link_grey_h points grey_h nm in
  let nm := link_blue_rows points grey_h nm in
  fallback_bridge points all_grey nm.

(** The exported ["points"] list: [list(points.values())]. *)
Definition main (ws : worksheet) : outcome (list point) :=
  a <- detect_anchors ws ;;
  st <- generate ws a ;;
  let points := fst st in
  nm <- connect ws a points ;;
  let points := flag_inout points in
  let points := attach_next nm points in
  Done (map snd points).

(** ** Specification predicates *)

(** Consecutive elements increase strictly, by [step] at most. *)
Fixpoint gaps_ok (step : Q) (xs : list Q) : Prop :=
  match xs with
  | a :: ((b :: _) as tl) => (a < b)%Q /\ (b - a <= step)%Q /\ gaps_ok step tl
  | _ => True
  end.

Fixpoint int_gaps_ok (step : Z) (ys : list Z) : Prop :=
  match ys with
  | a :: ((b :: _) as tl) => a < b /\ b - a <= step /\ int_gaps_ok step tl
  | _ => True
  end.

(** Keys pairwise distinct for the key equality. *)
Fixpoint dwf {K V : Type} `{Hashable K} (d : dict K V) : Prop :=
  match d with
  | [] => True
  | (k, _) :: d' => dget d' k = None /\ dwf d'
  end.

(** An edge between two different ids of [points]. *)
Definition good (points : points_t) (a b : string) : Prop :=
  a <> b /\ dget points a <> None /\ dget points b <> None.

(** Every edge of [nm] is good. *)
Definition nm_ok (points : points_t) (nm : next_map_t) : Prop :=
  forall a outs b, dget nm a = Some outs -> In b outs -> good points a b.

(** [b in next_map.get(a, set())] *)
Definition edge (nm : next_map_t) (a b : string) : Prop :=
  In b (dget_or nm a []).

(** Every edge of [nm] is an edge of [nm']. *)
Definition nm_le (nm nm' : next_map_t) : Prop :=
  forall a b, edge nm a b -> edge nm' a b.

(** A row of an index holds ids of [points], under the keys [f] gives them. *)
Definition row_sound {K1 K2 : Type} `{Hashable K1} `{Hashable K2}
  (f : point -> option (K1 * K2)) (points : points_t) (k1 : K1)
  (row : dict K2 string) : Prop :=
  dwf row /\
  forall k2 pid, In (k2, pid) row ->
    exists p k1' k2', In (pid, p) points /\ f p = Some (k1', k2')
                     /\ keq k1 k1' = true /\ keq k2 k2' = true.

(** What one point adds to the group of key [k]. *)
Definition group_sel {K A : Type} `{Hashable K}
  (f : string -> point -> option (K * A)) (k : K) (item : string * point) : list A :=
  match f (fst item) (snd item) with
  | Some (k', a) => if keq k k' then [a] else []
  | None => []
  end.

(** [pid] is the id of a blue point of [points] in the column of cell [c]. *)
Definition blue_cell_id (points : points_t) (c : Z) (pid : string) : Prop :=
  exists p, dget points pid = Some p /\ p_region p = blue
            /\ (inject_Z (c - 1) == p_x p)%Q.

(** What a point adds to [blue_points_by_x], its subscripts granted. *)
Definition bpx_entry (blue_segs_by_row : dict Z (list (Z * Z))) (pid : string)
  (p : point) : option (Z * (Z * string * vdir)) :=
  if negb (region_eqb (p_region p) blue) then None
  else match meta_row (p_meta p), meta_col (p_meta p) with
       | Some row, Some col =>
           match blue_vertical_dir blue_segs_by_row row col with
           | Some d => Some (py_round (p_x p), (py_round (p_y p), pid, d))
           | None => None
           end
       | _, _ => None
       end.

(** Every blue point is a cell. *)
Definition blue_are_cells (points : points_t) : Prop :=
  forall pid p, In (pid, p) points -> p_region p = blue ->
    exists r c, p_meta p = MetaCell r c.

(** The blue index maps a rounded coordinate to a blue cell at it. *)
Definition blue_key (p : point) : Z * Z := (py_round (p_x p), py_round (p_y p)).

(** Every pending blue-to-purple edge is good. *)
Definition best_ok (points : points_t) (best : best_t) : Prop :=
  forall pid_pu c pid_bl, In (pid_pu, (c, pid_bl)) best -> good points pid_bl pid_pu.

(** The candidates of [l] are points of [points] that satisfy [P]. *)
Definition cands_of (points : points_t) (P : point -> Prop) (l : list cand3) : Prop :=
  forall c, In c l ->
    exists pid p, In (pid, p) points /\ c = cand_of pid p /\ P p.

Definition is_purple_or_blue (p : point) : Prop :=
  p_region p = purple \/ p_region p = blue.

Definition is_grey (p : point) : Prop := p_region p = grey.

(** The two segment loops: id prefix, colour signature and region. *)
Definition seg_family (a : anchors) (tag sig : string) (reg : region) : Prop :=
  (tag = "OR"%string /\ sig = orange_sig a /\ reg = orange)
  \/ (tag = "GN"%string /\ sig = green_sig a /\ reg = green).

(** Where a point of [points] comes from: one case per site of the
    generation phase that creates points. *)
Inductive origin (ws : worksheet) (a : anchors) : string -> point -> Prop :=
| origin_blue (r c : Z) :
    origin ws a (blue_id r c)
      (new_point (blue_id r c) (inject_Z (c - 1)) (inject_Z r) blue (MetaCell r c))
| origin_purple_h (r i : Z) (x : Q) :
    origin ws a (purple_h_id r i)
      (new_point (purple_h_id r i) x (inject_Z r) purple (MetaRow r))
| origin_grey_h (y i : Z) (x : Q) :
    origin ws a (grey_h_id y i)
      (new_point (grey_h_id y i) x (inject_Z y) grey (MetaBand y))
| origin_seg (tag sig : string) (reg : region) (r s c1 c2 i : Z) (x : Q) (xs : list Q) :
    seg_family a tag sig reg ->
    In (s, (c1, c2))
       (py_enumerate 1 (contiguous_segments_for_color ws r sig 1
                          (Z.min (max_column ws) col_max_use))) ->
    sample_positions_including_end (inject_Z (c1 - 1)) (inject_Z (c2 - 1)) 5 = Some xs ->
    In (i, x) (py_enumerate 0 xs) ->
    origin ws a (seg_id tag r s i)
      (new_point (seg_id tag r s i) x (inject_Z r) reg (MetaSeg r s c1 c2))
| origin_vertical (tag : string) (reg : region) (x r1 r2 i y col : Z) :
    reg <> blue ->
    origin ws a (vertical_id tag x r1 i)
      (new_point (vertical_id tag x r1 i) (inject_Z x) (inject_Z y) reg
         (MetaCol col r1 r2)).

(** The state of the generation phase: distinct ids, every point with an
    origin, every blue coordinate marked blue in [coord_region] and no
    other point on a coordinate marked blue. *)
Definition gen_inv (ws : worksheet) (a : anchors) (st : gen_state) : Prop :=
  dwf (fst st)
  /\ (forall pid p, In (pid, p) (fst st) -> origin ws a pid p)
  /\ (forall pid p, In (pid, p) (fst st) -> p_region p = blue ->
        blue_at (snd st) (p_x p, p_y p) = true)
  /\ (forall pid p, In (pid, p) (fst st) -> p_region p <> blue ->
        blue_at (snd st) (p_x p, p_y p) = false).

(** The same while only blue cells have been generated. *)
Definition blue_inv (ws : worksheet) (a : anchors) (st : gen_state) : Prop :=
  dwf (fst st)
  /\ (forall pid p, In (pid, p) (fst st) -> origin ws a pid p)
  /\ (forall pid p, In (pid, p) (fst st) ->
        p_region p = blue /\ blue_at (snd st) (p_x p, p_y p) = true).

(** All four anchor cells carry a colour signature. *)
Definition anchors_found (ws : worksheet) : bool :=
  match cell_color ws 13 col_E, cell_color ws 28 1,
        cell_color ws 28 col_E, cell_color ws 120 col_E with
  | Some _, Some _, Some _, Some _ => true
  | _, _, _, _ => false
  end.

(** The order of [sorted] on ids. *)
Definition str_le (s t : string) : Prop := String.leb s t = true.



(** A small sheet: the four anchors, and one orange cell in the purple
    row 13 at column J, where the purple row is sampled as well. *)
Definition sheet_color (r c : Z) : option string :=
  if (r =? 13) && (c =? 5) then Some "FFB4A7D6"%string
  else if (r =? 28) && (c =? 1) then Some "FF00B0F0"%string
  else if (r =? 28) && (c =? 5) then Some "FFFFC000"%string
  else if (r =? 120) && (c =? 5) then Some "FF92D050"%string
  else if (r =? 13) && (c =? 10) then Some "FFFFC000"%string
  else None.

Definition small_sheet : worksheet := mkSheet 120 10 sheet_color [].

Definition small_anchors : anchors :=
  mkAnchors "FFB4A7D6" "FF00B0F0" "FFFFC000" "FF92D050".


(** [b] comes right after [a] in [l]. *)
Definition follows {A : Type} (l : list A) (a b : A) : Prop :=
  exists l1 l2, l = l1 ++ a :: b :: l2.

(** The points [build_row_index] puts in row [r] of region [reg]. *)
Definition in_row (reg : region) (r : Z) (p : point) : Prop :=
  p_region p = reg /\ (p_kind p = KH \/ p_kind p = KSeg) /\ py_round (p_y p) = r.

(** The points [build_rowseg_index] puts in segment [s] of row [r]. *)
Definition in_segment (reg : region) (r s : Z) (p : point) : Prop :=
  p_region p = reg /\ meta_seg (p_meta p) = Some s /\ py_round (p_y p) = r.

(** Among the points that satisfy [member], [b] is the one with the next
    larger [x] after [a]. *)
Definition next_larger (points : points_t) (member : point -> Prop) (a b : string)
  : Prop :=
  exists pa pb,
    In (a, pa) points /\ In (b, pb) points /\ member pa /\ member pb
    /\ (p_x pa < p_x pb)%Q
    /\ forall c pc, In (c, pc) points -> member pc ->
         ~ (p_x pa < p_x pc /\ p_x pc < p_x pb)%Q.

(** An edge [a -> b] of a chain of direction [d]. *)
Definition directed (d : direction) (points : points_t) (member : point -> Prop)
  (a b : string) : Prop :=
  match d with
  | Right => next_larger points member a b
  | Left => next_larger points member b a
  end.

(** [b in next_map.get(a, set())], as a test. *)
Definition has_edge (nm : next_map_t) (a b : string) : bool :=
  existsb (String.eqb b) (dget_or nm a []).

(** A sheet with the four anchors and an orange cell in column J of each
    of the rows 125, 126 and 127. *)
Definition og_sheet_color (r c : Z) : option string :=
  if (r =? 13) && (c =? 5) then Some "FFB4A7D6"%string
  else if (r =? 28) && (c =? 1) then Some "FF00B0F0"%string
  else if (r =? 28) && (c =? 5) then Some "FFFFC000"%string
  else if (r =? 120) && (c =? 5) then Some "FF92D050"%string
  else if (125 <=? r) && (r <=? 127) && (c =? 10) then Some "FFFFC000"%string
  else None.

Definition og_sheet : worksheet := mkSheet 127 10 og_sheet_color [].

(** The edges the orange and green lane changes may add: from the id at
    key [k] of a row to the id at the same key of an adjacent row of the
    same index, the pair 125, 126 apart. *)
Definition og_lane_edge (orange_row_x green_row_x : dict Z (dict Q string))
  (x y : string) : Prop :=
  exists row_x r r_to k,
    (row_x = orange_row_x \/ row_x = green_row_x)
    /\ (r_to = r - 1 \/ r_to = r + 1)
    /\ og_allow r r_to = true
    /\ In (k, x) (dget_or row_x r [])
    /\ dget (dget_or row_x r_to []) k = Some y.





(** The running minimum after the candidates [done]: no candidate is more
    than [EPS] below [best], and every id kept is a candidate at most
    [EPS] above it. *)
Definition near_inv (dist : cand3 -> Q) (done : list cand3)
  (st : option Q * list string) : Prop :=
  match fst st with
  | None => done = [] /\ snd st = []
  | Some best =>
      (forall c, In c done -> (best - EPS <= dist c)%Q)
      /\ (forall id, In id (snd st) ->
            exists c, In c done /\ c_id c = id /\ (dist c <= best + EPS)%Q)
      /\ snd st <> []
  end.

(** ** Specification predicates of the further properties *)

(** The cells [a .. b] of the row have the colour, inside
    [col_min .. col_max], and the run cannot be extended there. *)
Definition maximal_run (ws : worksheet) (row : Z) (sig : string)
  (col_min col_max : Z) (sg : Z * Z) : Prop :=
  col_min <= fst sg <= snd sg /\ snd sg <= col_max
  /\ (forall c, fst sg <= c <= snd sg -> has_color ws row c sig = true)
  /\ (fst sg = col_min \/ has_color ws row (fst sg - 1) sig = false)
  /\ (snd sg = col_max \/ has_color ws row (snd sg + 1) sig = false).

(** Segments in increasing order, with a gap between two of them. *)
Definition segs_apart (segs : list (Z * Z)) : Prop :=
  StronglySorted (fun u w => snd u + 1 < fst w) segs.

(** The state of the scan of a row before column [c]. *)
Definition scan_inv (ws : worksheet) (row : Z) (sig : string) (col_min c : Z)
  (st : list (Z * Z) * bool * Z) : Prop :=
  let '(segs, in_seg, s) := st in
  (forall sg, In sg segs ->
     col_min <= fst sg <= snd sg /\ snd sg + 1 < c
     /\ (in_seg = true -> snd sg + 1 < s)
     /\ (forall j, fst sg <= j <= snd sg -> has_color ws row j sig = true)
     /\ (fst sg = col_min \/ has_color ws row (fst sg - 1) sig = false)
     /\ has_color ws row (snd sg + 1) sig = false)
  /\ (in_seg = true ->
        col_min <= s < c
        /\ (forall j, s <= j < c -> has_color ws row j sig = true)
        /\ (s = col_min \/ has_color ws row (s - 1) sig = false))
  /\ (forall j, col_min <= j < c -> has_color ws row j sig = true ->
        (exists sg, In sg segs /\ fst sg <= j <= snd sg) \/ (in_seg = true /\ s <= j))
  /\ segs_apart segs.

(** The neighbour sets of a map: one entry per id, no id twice in a set. *)
Definition sets_ok (nm : next_map_t) : Prop :=
  dwf nm /\ forall a outs, dget nm a = Some outs -> NoDup outs.

(** The points [build_col_index] puts in column [x] of region [reg]. *)
Definition in_col (reg : region) (x : Z) (p : point) : Prop :=
  p_region p = reg /\ p_kind p = KV /\ py_round (p_x p) = x.

(** [points[pid]["x"]], 0 for an id that is absent. *)
Definition x_of (points : points_t) (pid : string) : Q :=
  match dget points pid with
  | Some p => p_x p
  | None => 0
  end.

(** Three points by hand: two of the purple row 13 and one of segment 1 of
    the orange row 31. *)
Definition three_points : points_t :=
  [("P2"%string, new_point "P2" 9 13 purple (MetaRow 13));
   ("P1"%string, new_point "P1" 4 13 purple (MetaRow 13));
   ("O1"%string, new_point "O1" 7 31 orange (MetaSeg 31 1 8 8));
   ("V1"%string, new_point "V1" 928 30 purple (MetaCol 929 28 101))].

(** The edges the purple lane changes may add: from the id at key [k] of
    a row to the id at the same key of the other row of a listed pair. *)
Definition purple_lane_edge (idx : dict Z (dict Q string)) (x y : string) : Prop :=
  exists r r_to k,
    In (r, r_to) purple_lane_pairs
    /\ In (k, x) (dget_or idx r [])
    /\ dget (dget_or idx r_to []) k = Some y.

(** A sheet with the four anchors and a purple cell E14 under the purple
    anchor E13. *)
Definition lane_sheet_color (r c : Z) : option string :=
  if ((r =? 13) || (r =? 14)) && (c =? 5) then Some "FFB4A7D6"%string
  else if (r =? 28) && (c =? 1) then Some "FF00B0F0"%string
  else if (r =? 28) && (c =? 5) then Some "FFFFC000"%string
  else if (r =? 120) && (c =? 5) then Some "FF92D050"%string
  else None.

Definition lane_sheet : worksheet := mkSheet 120 10 lane_sheet_color [].

(** [points[pid]["region"] != ex] and [points[pid]["region"] == pr], false
    for an id that is absent. *)
Definition not_in_region (points : points_t) (ex : region) (pid : string) : bool :=
  match dget points pid with
  | Some p => negb (region_eqb (p_region p) ex)
  | None => false
  end.

Definition in_region (points : points_t) (pr : region) (pid : string) : bool :=
  match dget points pid with
  | Some p => region_eqb (p_region p) pr
  | None => false
  end.

(** The two edges between [a] and an id of [ids]. *)
Definition both_ways (a : string) (ids : list string) (x y : string) : Prop :=
  exists t, In t ids /\ ((x = a /\ y = t) \/ (x = t /\ y = a)).

(** The two grey bands, as [link_blue_rows] filters them. *)
Definition grey_band_17_21 (grey_h : list cand3) : list cand3 :=
  filter (fun g => (17 <=? py_round (c_y g)) && (py_round (c_y g) <=? 21)) grey_h.

Definition grey_band_230_234 (grey_h : list cand3) : list cand3 :=
  filter (fun g => (230 <=? py_round (c_y g)) && (py_round (c_y g) <=? 234)) grey_h.

(** The vertical points of column [x] of a region with rounded [y] in
    [r1 .. r2]. *)
Definition in_col_range (reg : region) (x r1 r2 : Z) (p : point) : Prop :=
  in_col reg x p /\ r1 <= py_round (p_y p) <= r2.

(** Among the points that satisfy [member], [b] is the one with the next
    larger rounded [y] after [a], at most [step_v_purple] rows further. *)
Definition next_below (points : points_t) (member : point -> Prop) (a b : string)
  : Prop :=
  exists pa pb,
    In (a, pa) points /\ In (b, pb) points /\ member pa /\ member pb
    /\ py_round (p_y pa) < py_round (p_y pb)
    /\ py_round (p_y pb) - py_round (p_y pa) <= step_v_purple
    /\ forall c pc, In (c, pc) points -> member pc ->
         ~ (py_round (p_y pa) < py_round (p_y pc) < py_round (p_y pb)).

(** Three vertical purple points of column AIS by hand. *)
Definition column_points : points_t :=
  [("V2"%string, new_point "V2" 928 35 purple (MetaCol 929 28 101));
   ("V1"%string, new_point "V1" 928 30 purple (MetaCol 929 28 101));
   ("V3"%string, new_point "V3" 928 50 purple (MetaCol 929 28 101))].

(** The edges the column lane changes may add: from the id at the
    rounded [y] of a column to the id at the same [y] of the other column
    of a listed pair. *)
Definition col_lane_edge (idx : dict Z (dict Z string)) (x y : string) : Prop :=
  exists x_from x_to k,
    In (x_from, x_to) col_lane_pairs
    /\ In (k, x) (dget_or idx x_from [])
    /\ dget (dget_or idx x_to []) k = Some y.

(* ================================================================== *)
(** * Part II: the properties *)
(* ================================================================== *)

(** ** Booleans of the rational order *)

Lemma Qlt_bool_true (a b : Q) : Qlt_bool a b = true <-> (a < b)%Q.
Proof.
  unfold Qlt_bool. rewrite negb_true_iff. split; intro E.
  - apply Qnot_le_lt. intro L. apply Qle_bool_iff in L. congruence.
  - destruct (Qle_bool b a) eqn:L; auto. apply Qle_bool_iff in L.
    exfalso. apply (Qlt_not_le _ _ E L).
Qed.

Lemma Qlt_bool_false (a b : Q) : Qlt_bool a b = false <-> (b <= a)%Q.
Proof.
  unfold Qlt_bool. rewrite negb_false_iff. apply Qle_bool_iff.
Qed.

Lemma Qle_bool_false (a b : Q) : Qle_bool a b = false <-> (b < a)%Q.
Proof.
  split; intro E.
  - apply Qnot_le_lt. intro L. apply Qle_bool_iff in L. congruence.
  - destruct (Qle_bool a b) eqn:L; auto. apply Qle_bool_iff in L.
    exfalso. apply (Qlt_not_le _ _ E L).
Qed.

Lemma gaps_ok_snoc (step : Q) (xs : list Q) (d x y : Q) :
  gaps_ok step xs -> xs <> [] -> last xs d = x -> (x < y)%Q -> (y - x <= step)%Q ->
  gaps_ok step (xs ++ [y]).
Proof.
  induction xs as [|a [|b tl] IH]; intros G N L Hlt Hle.
  - congruence.
  - cbn in *. subst. auto.
  - destruct G as (G1 & G2 & G3). cbn [app gaps_ok]. repeat split; auto.
    apply IH; auto. discriminate.
Qed.

Lemma last_nonempty {A} (xs : list A) (d d' : A) : xs <> [] -> last xs d = last xs d'.
Proof.
  induction xs as [|a [|b tl] IH]; intros N; try congruence; auto.
  change (last (b :: tl) d = last (b :: tl) d'). apply IH. discriminate.
Qed.

Lemma hd_error_app {A} (xs ys : list A) a : hd_error xs = Some a -> hd_error (xs ++ ys) = Some a.
Proof. destruct xs; cbn; congruence. Qed.

Lemma sample_loop_spec (x_end step : Q) (fuel : nat) :
  (0 < step)%Q ->
  forall (x : Q) (xs : list Q) (s : Q),
    (x_end + EPS - x < (inject_Z (Z.of_nat fuel) + 1) * step)%Q ->
    xs <> [] -> last xs s = x -> hd_error xs = Some s -> gaps_ok step xs ->
    exists xs',
      sample_loop fuel x x_end step xs = Some xs'
      /\ hd_error xs' = Some s
      /\ gaps_ok step xs'
      /\ xs' <> []
      /\ (x_end + EPS < last xs' s + step)%Q
      /\ ((x <= x_end + EPS)%Q -> (last xs' s <= x_end + EPS)%Q).
Proof.
  intros Hstep. induction fuel as [|fuel IH]; intros x xs s Hfuel Hne Hlast Hhd Hg.
  - cbn [sample_loop]. destruct (Qle_bool (x + step) (x_end + EPS)) eqn:E.
    + apply Qle_bool_iff in E. change (inject_Z (Z.of_nat 0)) with 0%Q in Hfuel. lra.
    + apply Qle_bool_false in E. exists xs. rewrite Hlast. repeat split; auto.
  - cbn [sample_loop]. destruct (Qle_bool (x + step) (x_end + EPS)) eqn:E.
    + apply Qle_bool_iff in E.
      destruct (IH (x + step)%Q (xs ++ [(x + step)%Q]) s) as (xs' & R & H1 & H2 & H3 & H4 & H5).
      * rewrite Nat2Z.inj_succ, <- Z.add_1_r, inject_Z_plus in Hfuel.
        change (inject_Z 1) with 1%Q in Hfuel. lra.
      * destruct xs; discriminate.
      * apply last_last.
      * now apply hd_error_app.
      * apply gaps_ok_snoc with (d := s) (x := x); auto; lra.
      * exists xs'. repeat split; auto.
    + apply Qle_bool_false in E. exists xs. rewrite Hlast. repeat split; auto.
Qed.


Lemma int_gaps_ok_snoc (step : Z) (ys : list Z) (d x y : Z) :
  int_gaps_ok step ys -> ys <> [] -> last ys d = x -> x < y -> y - x <= step ->
  int_gaps_ok step (ys ++ [y]).
Proof.
  induction ys as [|a [|b tl] IH]; intros G N L Hlt Hle.
  - congruence.
  - cbn in *. subst. auto.
  - destruct G as (G1 & G2 & G3). cbn [app int_gaps_ok]. repeat split; auto.
    apply IH; auto. discriminate.
Qed.

Lemma sample_int_loop_spec (y_end step : Z) (fuel : nat) :
  0 < step ->
  forall (y : Z) (ys : list Z) (s : Z),
    y_end - y < (Z.of_nat fuel + 1) * step ->
    ys <> [] -> last ys s = y -> hd_error ys = Some s -> int_gaps_ok step ys ->
    exists ys',
      sample_int_loop fuel y y_end step ys = Some ys'
      /\ hd_error ys' = Some s
      /\ int_gaps_ok step ys'
      /\ ys' <> []
      /\ y_end < last ys' s + step
      /\ (y <= y_end -> last ys' s <= y_end).
Proof.
  intros Hstep. induction fuel as [|fuel IH]; intros y ys s Hfuel Hne Hlast Hhd Hg.
  - cbn [sample_int_loop]. destruct (y + step <=? y_end) eqn:E.
    + apply Z.leb_le in E. lia.
    + apply Z.leb_gt in E. exists ys. rewrite Hlast. repeat split; auto; lia.
  - cbn [sample_int_loop]. destruct (y + step <=? y_end) eqn:E.
    + apply Z.leb_le in E.
      destruct (IH (y + step) (ys ++ [y + step]) s) as (ys' & R & H1 & H2 & H3 & H4 & H5).
      * lia.
      * destruct ys; discriminate.
      * apply last_last.
      * now apply hd_error_app.
      * apply int_gaps_ok_snoc with (d := s) (x := y); auto; lia.
      * exists ys'. repeat split; auto.
    + apply Z.leb_gt in E. exists ys. rewrite Hlast. repeat split; auto; lia.
Qed.




(** ** Dictionaries *)

Section DictFacts.
Context {K V : Type} `{Hashable K}.

Lemma keq_true_sym (a b : K) : keq a b = true -> keq b a = true.
Proof. now rewrite keq_sym. Qed.

Lemma keq_false_trans (a b c : K) : keq a b = true -> keq a c = false -> keq b c = false.
Proof.
  intros E1 E2. destruct (keq b c) eqn:E; auto.
  now rewrite (keq_trans _ _ _ E1 E) in E2.
Qed.

Lemma dget_keq (d : dict K V) (k k' : K) : keq k k' = true -> dget d k = dget d k'.
Proof.
  intros E. induction d as [|[k0 v0] d IH]; cbn; auto.
  destruct (keq k k0) eqn:E1.
  - rewrite (keq_trans _ _ _ (keq_true_sym _ _ E) E1). reflexivity.
  - rewrite (keq_false_trans _ _ _ E E1). exact IH.
Qed.

Lemma dget_dset_eq (d : dict K V) (k k' : K) (v : V) :
  keq k' k = true -> dget (dset d k v) k' = Some v.
Proof.
  intros E. induction d as [|[k0 v0] d IH]; cbn.
  - now rewrite E.
  - destruct (keq k k0) eqn:E1; cbn.
    + now rewrite (keq_trans _ _ _ E E1).
    + rewrite (keq_false_trans _ _ _ (keq_true_sym _ _ E) E1). exact IH.
Qed.

Lemma dget_dset_neq (d : dict K V) (k k' : K) (v : V) :
  keq k' k = false -> dget (dset d k v) k' = dget d k'.
Proof.
  intros E. induction d as [|[k0 v0] d IH]; cbn.
  - now rewrite E.
  - destruct (keq k k0) eqn:E1; cbn.
    + destruct (keq k' k0) eqn:E2; auto.
      rewrite (keq_trans _ _ _ E2 (keq_true_sym _ _ E1)) in E. discriminate.
    + destruct (keq k' k0); auto.
Qed.

Lemma dget_dset (d : dict K V) (k k' : K) (v : V) :
  dget (dset d k v) k' = if keq k' k then Some v else dget d k'.
Proof.
  destruct (keq k' k) eqn:E.
  - now apply dget_dset_eq.
  - now apply dget_dset_neq.
Qed.

Lemma dget_In (d : dict K V) (k : K) (v : V) :
  dget d k = Some v -> exists k', In (k', v) d /\ keq k k' = true.
Proof.
  induction d as [|[k0 v0] d IH]; cbn; [discriminate|].
  destruct (keq k k0) eqn:E; intros G.
  - inversion G; subst. exists k0. auto.
  - destruct (IH G) as (k' & I & E'). exists k'. auto.
Qed.

Lemma In_dget_some (d : dict K V) (k : K) (v : V) :
  In (k, v) d -> dget d k <> None.
Proof.
  induction d as [|[k0 v0] d IH]; cbn; [tauto|].
  intros [E|I].
  - inversion E; subst. now rewrite keq_refl.
  - destruct (keq k k0); [discriminate|auto].
Qed.

Lemma In_dget (d : dict K V) (k : K) (v : V) :
  dwf d -> In (k, v) d -> dget d k = Some v.
Proof.
  induction d as [|[k0 v0] d IH]; cbn; [tauto|].
  intros [N W] [E|I].
  - inversion E; subst. now rewrite keq_refl.
  - destruct (keq k k0) eqn:E.
    + exfalso. apply (In_dget_some _ _ _ I). now rewrite (dget_keq _ _ _ E).
    + auto.
Qed.

Lemma In_dset (d : dict K V) (k k0 : K) (v v0 : V) :
  In (k0, v0) (dset d k v) -> (v0 = v /\ keq k k0 = true) \/ In (k0, v0) d.
Proof.
  induction d as [|[k1 v1] d IH]; cbn.
  - intros [E|[]]. inversion E; subst. left. split; auto. apply keq_refl.
  - destruct (keq k k1) eqn:E; cbn.
    + intros [E'|I]; [|auto]. inversion E'; subst. auto.
    + intros [E'|I]; [auto|]. destruct (IH I); auto.
Qed.

Lemma dwf_dset (d : dict K V) (k : K) (v : V) : dwf d -> dwf (dset d k v).
Proof.
  induction d as [|[k0 v0] d IH]; cbn.
  - auto.
  - intros [N W]. destruct (keq k k0) eqn:E; cbn.
    + auto.
    + split; [|auto]. rewrite dget_dset_neq; auto. now rewrite keq_sym.
Qed.

Lemma dkeys_dset (d : dict K V) (k : K) (v : V) (k0 : K) :
  In k0 (dkeys (dset d k v)) -> k0 = k \/ In k0 (dkeys d).
Proof.
  unfold dkeys. induction d as [|[k1 v1] d IH]; cbn.
  - intros [E|[]]; auto.
  - destruct (keq k k1); cbn; intros [E|I]; auto. destruct (IH I); auto.
Qed.

Lemma dget_or_In (d : dict K (list V)) (k : K) (v : V) :
  In v (dget_or d k []) -> exists l, dget d k = Some l /\ In v l.
Proof.
  unfold dget_or. destruct (dget d k) as [l|]; [|intros []]. eauto.
Qed.

(** The values of a well-formed dictionary are distinct when each value
    determines its key. *)
Lemma dwf_values_NoDup (d : dict K V) (key_of : V -> option K) :
  dwf d ->
  (forall k v, In (k, v) d -> exists k', key_of v = Some k' /\ keq k k' = true) ->
  NoDup (map snd d).
Proof.
  induction d as [|[k0 v0] d IH]; cbn; intros W S.
  - constructor.
  - destruct W as [N W]. constructor.
    + intros I. apply in_map_iff in I as ([k1 v1] & E & I). cbn in E. subst v1.
      destruct (S k0 v0 (or_introl eq_refl)) as (ka & Ea & Ka).
      destruct (S k1 v0 (or_intror I)) as (kb & Eb & Kb).
      rewrite Ea in Eb. inversion Eb; subst kb.
      apply (In_dget_some _ _ _ I).
      rewrite (dget_keq d k1 k0); auto.
      apply (keq_trans _ _ _ Kb). now apply keq_true_sym.
    + apply IH; auto.
Qed.

End DictFacts.

Lemma str_keq (a b : string) : keq a b = true <-> a = b.
Proof. apply String.eqb_eq. Qed.

Lemma str_keq_false (a b : string) : keq a b = false <-> a <> b.
Proof. apply String.eqb_neq. Qed.

Lemma Z_keq (a b : Z) : keq a b = true <-> a = b.
Proof. apply Z.eqb_eq. Qed.

Lemma sdget_In {V} (d : dict string V) (k : string) (v : V) :
  dget d k = Some v -> In (k, v) d.
Proof.
  intros G. apply dget_In in G as (k' & I & E). apply str_keq in E. now subst.
Qed.

(** ** Outcomes *)

Lemma bind_done {A B} (m : outcome A) (k : A -> outcome B) (b : B) :
  bind m k = Done b -> exists a, m = Done a /\ k a = Done b.
Proof. destruct m; cbn; try discriminate. eauto. Qed.

Lemma for_each_inv {A S} (P : S -> Prop) (l : list A) (body : A -> S -> outcome S) :
  (forall a s, In a l -> P s -> exists s', body a s = Done s' /\ P s') ->
  forall s, P s -> exists s', for_each l body s = Done s' /\ P s'.
Proof.
  induction l as [|a l IH]; cbn; intros Hb s Hs.
  - eauto.
  - destruct (Hb a s (or_introl eq_refl) Hs) as (s1 & E1 & P1).
    rewrite E1. cbn. apply IH; auto.
Qed.

Lemma fold_left_inv {A S} (P : S -> Prop) (l : list A) (f : S -> A -> S) :
  (forall a s, In a l -> P s -> P (f s a)) ->
  forall s, P s -> P (fold_left f l s).
Proof.
  induction l as [|a l IH]; cbn; intros Hf s Hs; auto.
Qed.

(** ** Sorting *)

Lemma insert_by_perm {A} (key : A -> Q) (a : A) (l : list A) :
  Permutation (insert_by key a l) (a :: l).
Proof.
  induction l as [|b l IH]; cbn; auto.
  destruct (Qle_bool (key a) (key b)); auto.
  rewrite IH. apply perm_swap.
Qed.

Lemma sorted_by_perm {A} (key : A -> Q) (l : list A) :
  Permutation (sorted_by key l) l.
Proof.
  induction l as [|a l IH]; cbn; auto.
  rewrite insert_by_perm. now constructor.
Qed.

Lemma sorted_by_In {A} (key : A -> Q) (l : list A) (a : A) :
  In a (sorted_by key l) <-> In a l.
Proof.
  split; apply Permutation_in; [|symmetry]; apply sorted_by_perm.
Qed.

Lemma sorted_by_length {A} (key : A -> Q) (l : list A) :
  List.length (sorted_by key l) = List.length l.
Proof. apply Permutation_length, sorted_by_perm. Qed.

Lemma insert_by_sorted {A} (key : A -> Q) (a : A) (l : list A) :
  StronglySorted (fun u w => (key u <= key w)%Q) l ->
  StronglySorted (fun u w => (key u <= key w)%Q) (insert_by key a l).
Proof.
  induction l as [|b l IH]; cbn; intros S.
  - repeat constructor.
  - inversion S as [|? ? S' F]; subst.
    destruct (Qle_bool (key a) (key b)) eqn:E.
    + apply Qle_bool_iff in E. constructor; auto. constructor; auto.
      eapply Forall_impl; [|exact F]. cbn. intros c Hc. lra.
    + apply Qle_bool_false in E. constructor; auto.
      apply Forall_forall. intros c Hc.
      apply (Permutation_in _ (insert_by_perm key a l)) in Hc. destruct Hc as [->|Hc].
      * lra.
      * rewrite Forall_forall in F. auto.
Qed.

Lemma sorted_by_sorted {A} (key : A -> Q) (l : list A) :
  StronglySorted (fun u w => (key u <= key w)%Q) (sorted_by key l).
Proof.
  induction l as [|a l IH]; cbn; [constructor|]. now apply insert_by_sorted.
Qed.

Lemma sorted_by_map_NoDup {A B} (key : A -> Q) (f : A -> B) (l : list A) :
  NoDup (map f l) -> NoDup (map f (sorted_by key l)).
Proof.
  apply Permutation_NoDup. apply Permutation_map. symmetry. apply sorted_by_perm.
Qed.

Lemma insert_str_perm (a : string) (l : list string) :
  Permutation (insert_str a l) (a :: l).
Proof.
  induction l as [|b l IH]; cbn; auto.
  destruct (String.leb a b); auto. rewrite IH. apply perm_swap.
Qed.

Lemma sorted_str_perm (l : list string) : Permutation (sorted_str l) l.
Proof.
  induction l as [|a l IH]; cbn; auto.
  rewrite insert_str_perm. now constructor.
Qed.

Lemma sorted_str_In (l : list string) (a : string) : In a (sorted_str l) <-> In a l.
Proof.
  split; apply Permutation_in; [|symmetry]; apply sorted_str_perm.
Qed.

(** ** Edges *)

Lemma set_add_In (b : string) (s : list string) (x : string) :
  In x (set_add b s) <-> x = b \/ In x s.
Proof.
  unfold set_add. destruct (existsb (String.eqb b) s) eqn:E.
  - split; auto. intros [->|I]; auto.
    apply existsb_exists in E as (y & I & E). apply String.eqb_eq in E. now subst.
  - rewrite in_app_iff. cbn. intuition.
Qed.

Lemma edge_add_edge (nm : next_map_t) (a b a' b' : string) :
  edge (add_edge nm a (Some b)) a' b' <-> (a' = a /\ b' = b) \/ edge nm a' b'.
Proof.
  unfold edge, add_edge, dget_or. rewrite dget_dset.
  destruct (keq a' a) eqn:E.
  - apply str_keq in E. subst a'. rewrite set_add_In. intuition.
  - apply str_keq_false in E. intuition.
Qed.

Lemma nm_le_refl (nm : next_map_t) : nm_le nm nm.
Proof. intros a b; auto. Qed.

Lemma nm_le_trans (n1 n2 n3 : next_map_t) : nm_le n1 n2 -> nm_le n2 n3 -> nm_le n1 n3.
Proof. intros H1 H2 a b E. auto. Qed.

Lemma nm_le_add_edge (nm : next_map_t) (a : string) (b : option string) :
  nm_le nm (add_edge nm a b).
Proof.
  destruct b as [b|]; [|apply nm_le_refl].
  intros x y E. apply edge_add_edge. auto.
Qed.

Lemma nm_ok_edge (points : points_t) (nm : next_map_t) :
  nm_ok points nm <-> forall a b, edge nm a b -> good points a b.
Proof.
  unfold nm_ok, edge, dget_or. split.
  - intros Hok a b E. destruct (dget nm a) as [outs|] eqn:G; [|destruct E]. eauto.
  - intros Hok a outs b G I. apply Hok. now rewrite G.
Qed.

Lemma nm_ok_nil (points : points_t) : nm_ok points [].
Proof. intros a outs b G. discriminate. Qed.

Lemma good_sym (points : points_t) (a b : string) : good points a b -> good points b a.
Proof. unfold good. intuition. Qed.

Lemma add_edge_ok (points : points_t) (nm : next_map_t) (a b : string) :
  nm_ok points nm -> good points a b -> nm_ok points (add_edge nm a (Some b)).
Proof.
  rewrite !nm_ok_edge. intros Hok G x y E.
  apply edge_add_edge in E as [[-> ->]|E]; auto.
Qed.

Lemma link_both_ok (points : points_t) (a : string) (ids : list string) (nm : next_map_t) :
  nm_ok points nm -> (forall b, In b ids -> good points a b) ->
  nm_ok points (link_both a ids nm).
Proof.
  unfold link_both. intros Hok Hg. revert Hok.
  apply fold_left_inv. intros b s I Hs.
  apply add_edge_ok; [apply add_edge_ok|]; auto. apply good_sym; auto.
Qed.

Lemma chain_right_ok (points : points_t) (ids : list string) :
  Sorted (good points) ids ->
  forall nm, nm_ok points nm -> nm_ok points (chain_right nm ids).
Proof.
  induction ids as [|a [|b tl] IH]; cbn [chain_right]; intros S nm Hok; auto.
  inversion S as [|? ? S' Hd]; subst. inversion Hd; subst.
  apply IH; auto. apply add_edge_ok; auto.
Qed.

Lemma chain_left_ok (points : points_t) (ids : list string) :
  Sorted (good points) ids ->
  forall nm, nm_ok points nm -> nm_ok points (chain_left nm ids).
Proof.
  induction ids as [|a [|b tl] IH]; cbn [chain_left]; intros S nm Hok; auto.
  inversion S as [|? ? S' Hd]; subst. inversion Hd; subst.
  apply IH; auto. apply add_edge_ok; auto. now apply good_sym.
Qed.

Lemma chain_ok (points : points_t) (d : direction) (ids : list string) (nm : next_map_t) :
  Sorted (good points) ids -> nm_ok points nm -> nm_ok points (chain d nm ids).
Proof.
  intros S Hok. destruct d; cbn; [apply chain_right_ok|apply chain_left_ok]; auto.
Qed.

Lemma NoDup_Sorted_good (points : points_t) (ids : list string) :
  NoDup ids -> (forall a, In a ids -> dget points a <> None) ->
  Sorted (good points) ids.
Proof.
  induction ids as [|a ids IH]; intros N P; constructor.
  - inversion N; subst. apply IH; auto. intros; apply P; now right.
  - inversion N as [|? ? Ni N']; subst. destruct ids as [|b ids]; constructor.
    repeat split.
    + intros ->. apply Ni. now left.
    + apply P. now left.
    + apply P. right. now left.
Qed.

(** ** The spatial indexes *)

Lemma dwf_NoDup_keys {V} (d : dict string V) : dwf d -> NoDup (map fst d).
Proof.
  induction d as [|[k v0] d IH]; cbn; intros W; constructor.
  - destruct W as [N _]. intros I. apply in_map_iff in I as ([k' v'] & E & I).
    cbn in E. subst k'. now apply In_dget_some in I.
  - apply IH. tauto.
Qed.

Section IndexBy.
Context {K1 K2 : Type} `{Hashable K1} `{Hashable K2}.
Variable f : point -> option (K1 * K2).
Variable points : points_t.

Lemma row_sound_keq (k1 k1' : K1) (row : dict K2 string) :
  keq k1' k1 = true -> row_sound f points k1 row -> row_sound f points k1' row.
Proof.
  intros E [W S]. split; auto. intros k2 pid I.
  destruct (S k2 pid I) as (p & ka & kb & I' & F & E1 & E2).
  exists p, ka, kb. repeat split; auto. eapply keq_trans; eauto.
Qed.

Lemma index_by_sound (k1 : K1) (row : dict K2 string) :
  dget (index_by f points) k1 = Some row -> row_sound f points k1 row.
Proof.
  unfold index_by. revert k1 row.
  apply (fold_left_inv
    (fun out => forall k1 row, dget out k1 = Some row -> row_sound f points k1 row)).
  - intros [pid p] out I IHout k1 row. destruct (f p) as [[ka kb]|] eqn:F; auto.
    rewrite dget_dset. destruct (keq k1 ka) eqn:E; auto.
    intros G. inversion G; subst row; clear G.
    assert (Hold : row_sound f points k1 (dget_or out ka [])).
    { unfold dget_or. destruct (dget out ka) as [r|] eqn:G.
      - apply row_sound_keq with (k1 := ka); auto.
      - split; cbn; auto. intros ? ? []. }
    destruct Hold as [W S]. split; [now apply dwf_dset|].
    intros k2 pid' I'. apply In_dset in I' as [[-> E']|I'].
    + exists p, ka, kb. repeat split; auto. now rewrite keq_sym.
    + auto.
  - intros k1 row G. discriminate.
Qed.

End IndexBy.

Section IndexByPoints.
Context {K1 K2 : Type} `{Hashable K1} `{Hashable K2}.
Variable f : point -> option (K1 * K2).
Variable points : points_t.
Hypothesis points_wf : dwf points.

Lemma index_by_entry (k1 : K1) (k2 : K2) (pid : string) :
  In (k2, pid) (dget_or (index_by f points) k1 []) ->
  exists p k1' k2', dget points pid = Some p /\ f p = Some (k1', k2')
                   /\ keq k1 k1' = true /\ keq k2 k2' = true.
Proof.
  unfold dget_or. destruct (dget (index_by f points) k1) as [row|] eqn:G; [|intros []].
  intros I. destruct (index_by_sound f points k1 row G) as [_ S].
  destruct (S k2 pid I) as (p & ka & kb & I' & R).
  exists p, ka, kb. split; auto. now apply In_dget.
Qed.

Lemma index_by_get (k1 : K1) (k2 : K2) (pid : string) :
  dget (dget_or (index_by f points) k1 []) k2 = Some pid ->
  exists p k1' k2', dget points pid = Some p /\ f p = Some (k1', k2')
                   /\ keq k1 k1' = true /\ keq k2 k2' = true.
Proof.
  intros G. apply dget_In in G as (k2' & I & E).
  destruct (index_by_entry k1 k2' pid I) as (p & ka & kb & G & F & E1 & E2).
  exists p, ka, kb. repeat split; auto. eapply keq_trans; eauto.
Qed.

Lemma index_by_row_wf (k1 : K1) : dwf (dget_or (index_by f points) k1 []).
Proof.
  unfold dget_or. destruct (dget (index_by f points) k1) as [row|] eqn:G; cbn; auto.
  apply (index_by_sound f points k1 row G).
Qed.

Lemma index_by_row_NoDup (k1 : K1) :
  NoDup (map snd (dget_or (index_by f points) k1 [])).
Proof.
  apply dwf_values_NoDup with
    (key_of := fun pid => match dget points pid with
                          | Some p => option_map snd (f p)
                          | None => None
                          end).
  - apply index_by_row_wf.
  - intros k2 pid I. destruct (index_by_entry k1 k2 pid I) as (p & ka & kb & G & F & _ & E).
    exists kb. rewrite G, F. auto.
Qed.

End IndexByPoints.

Section GroupBy.
Context {K A : Type} `{Hashable K}.
Variable f : string -> point -> option (K * A).

Lemma group_by_spec (points : points_t) (k : K) :
  dget_or (group_by f points) k [] = flat_map (group_sel f k) points.
Proof.
  unfold group_by.
  enough (G : forall out,
    dget_or (fold_left
      (fun out '(pid, p) =>
         match f pid p with
         | Some (k, a) => dset out k (dget_or out k [] ++ [a])
         | None => out
         end) points out) k []
    = dget_or out k [] ++ flat_map (group_sel f k) points) by apply (G []).
  induction points as [|[pid p] l IH]; cbn [fold_left flat_map]; intros out.
  - now rewrite app_nil_r.
  - rewrite IH. unfold group_sel at 2. cbn [fst snd].
    destruct (f pid p) as [[k' a]|]; auto.
    unfold dget_or at 1. rewrite dget_dset. destruct (keq k k') eqn:E.
    + rewrite <- app_assoc. cbn. f_equal.
      unfold dget_or. now rewrite (dget_keq out k k').
    + reflexivity.
Qed.

Lemma group_by_In (points : points_t) (k : K) (a : A) :
  In a (dget_or (group_by f points) k []) ->
  exists pid p k', In (pid, p) points /\ f pid p = Some (k', a) /\ keq k k' = true.
Proof.
  rewrite group_by_spec. intros I. apply in_flat_map in I as ([pid p] & I & S).
  unfold group_sel in S. cbn in S. destruct (f pid p) as [[k' a']|] eqn:F; [|destruct S].
  destruct (keq k k') eqn:E; [|destruct S]. destruct S as [->|[]].
  exists pid, p, k'. auto.
Qed.

Lemma group_by_NoDup (points : points_t) (k : K) (g : A -> string) :
  dwf points ->
  (forall pid p k' a, f pid p = Some (k', a) -> g a = pid) ->
  NoDup (map g (dget_or (group_by f points) k [])).
Proof.
  intros W Hg. rewrite group_by_spec. apply dwf_NoDup_keys in W.
  induction points as [|[pid p] l IH]; cbn; [constructor|].
  inversion W as [|? ? Ni N']; subst. rewrite map_app.
  unfold group_sel at 1. cbn [fst snd].
  destruct (f pid p) as [[k' a]|] eqn:F; cbn; auto.
  destruct (keq k k'); cbn; auto. constructor; auto.
  intros I. apply in_map_iff in I as (a' & E & I).
  apply in_flat_map in I as ([pid' p'] & I & S).
  unfold group_sel in S. cbn in S. destruct (f pid' p') as [[k2 a2]|] eqn:F'; [|destruct S].
  destruct (keq k k2); [|destruct S]. destruct S as [->|[]].
  apply Ni. rewrite (Hg _ _ _ _ F') in E. rewrite (Hg _ _ _ _ F) in E. subst.
  apply in_map_iff. exists (pid, p'). auto.
Qed.

End GroupBy.

(** ** Chains and lane changes keep the edges good *)

Lemma group_by_wf {K A} `{Hashable K} (f : string -> point -> option (K * A))
  (points : points_t) : dwf (group_by f points).
Proof.
  unfold group_by. apply fold_left_inv; cbn; auto.
  intros [pid p] out _ W. destruct (f pid p) as [[k a]|]; auto. now apply dwf_dset.
Qed.

Lemma index_by_wf {K1 K2} `{Hashable K1} `{Hashable K2}
  (f : point -> option (K1 * K2)) (points : points_t) : dwf (index_by f points).
Proof.
  unfold index_by. apply fold_left_inv; cbn; auto.
  intros [pid p] out _ W. destruct (f p) as [[k a]|]; auto. now apply dwf_dset.
Qed.

Lemma some_not_none {A} (o : option A) (a : A) : o = Some a -> o <> None.
Proof. congruence. Qed.

Section Steps.
Variable points : points_t.
Hypothesis points_wf : dwf points.

Section OneIndex.
Context {K1 K2 : Type} `{Hashable K1} `{Hashable K2}.
Variable f : point -> option (K1 * K2).

Lemma index_ids_sorted_good (k1 : K1) (key : K2 * string -> Q) :
  Sorted (good points) (map snd (sorted_by key (dget_or (index_by f points) k1 []))).
Proof.
  apply NoDup_Sorted_good.
  - apply sorted_by_map_NoDup. now apply index_by_row_NoDup.
  - intros a I. apply in_map_iff in I as ([k2 pid] & E & I). cbn in E. subst pid.
    apply sorted_by_In in I.
    destruct (index_by_entry f points points_wf k1 k2 a I) as (p & _ & _ & G & _).
    now rewrite G.
Qed.

Lemma link_same_key_ok (r1 r2 : K1) (nm : next_map_t) :
  keq r1 r2 = false -> nm_ok points nm ->
  nm_ok points (link_same_key (dget_or (index_by f points) r1 [])
                  (dget_or (index_by f points) r2 []) nm).
Proof.
  intros Hne. unfold link_same_key. apply fold_left_inv.
  intros [k pid] s I Hs.
  destruct (dget (dget_or (index_by f points) r2 []) k) as [pid2|] eqn:G; auto.
  destruct (truthy pid2); auto.
  apply add_edge_ok; auto.
  destruct (index_by_entry f points points_wf r1 k pid I) as (p & ka & kb & Gp & Fp & Ea & _).
  destruct (index_by_get f points points_wf r2 k pid2 G) as (q & kc & kd & Gq & Fq & Ec & _).
  repeat split; try congruence.
  intros ->. rewrite Gp in Gq. inversion Gq; subst q. rewrite Fp in Fq.
  inversion Fq; subst. rewrite (keq_trans _ _ _ Ea (keq_true_sym _ _ Ec)) in Hne.
  discriminate.
Qed.

End OneIndex.

Lemma connect_purple_rows_ok (reg : region) (rows : list Z) (d : direction)
  (nm : next_map_t) :
  nm_ok points nm ->
  nm_ok points (connect_purple_rows (build_row_index points reg) rows d nm).
Proof.
  unfold connect_purple_rows. apply fold_left_inv. intros r s _ Hs.
  destruct (List.length _ <? 2)%nat; auto.
  apply chain_ok; auto. apply index_ids_sorted_good.
Qed.

Lemma lane_change_ok (reg : region) (r_from r_to : Z) (allow : bool) (nm : next_map_t) :
  r_from <> r_to -> nm_ok points nm ->
  nm_ok points (lane_change (build_row_index points reg) r_from r_to allow nm).
Proof.
  intros Hne Hok. unfold lane_change. destruct (negb allow); auto.
  destruct (_ || _); auto. apply link_same_key_ok; auto.
  cbn. now apply Z.eqb_neq.
Qed.

Lemma lane_change_og_ok (reg : region) (r_from r_to : Z) (allow : bool) (nm : next_map_t) :
  r_from <> r_to -> nm_ok points nm ->
  nm_ok points (lane_change_og (build_row_x_index points reg) r_from r_to allow nm).
Proof.
  intros Hne Hok. unfold lane_change_og. destruct (negb allow); auto.
  destruct (_ || _); auto. apply link_same_key_ok; auto.
  cbn. now apply Z.eqb_neq.
Qed.

Lemma lane_change_cols_ok (reg : region) (x_from x_to : Z) (allow : bool) (nm : next_map_t) :
  x_from <> x_to -> nm_ok points nm ->
  nm_ok points (lane_change_cols (build_col_index points reg) x_from x_to allow nm).
Proof.
  intros Hne Hok. unfold lane_change_cols. destruct (negb allow); auto.
  apply link_same_key_ok; auto. cbn. now apply Z.eqb_neq.
Qed.

Lemma pairs_distinct (l : list (Z * Z)) :
  forallb (fun '(a, b) => negb (a =? b)) l = true ->
  forall a b, In (a, b) l -> a <> b.
Proof.
  intros F a b I. rewrite forallb_forall in F. specialize (F _ I). cbn in F.
  apply negb_true_iff in F. now apply Z.eqb_neq.
Qed.

Lemma purple_lane_changes_ok (nm : next_map_t) :
  nm_ok points nm ->
  nm_ok points (purple_lane_changes (build_row_index points purple) nm).
Proof.
  unfold purple_lane_changes. apply fold_left_inv. intros [a b] s I Hs.
  apply lane_change_ok; auto. revert a b I. now apply pairs_distinct.
Qed.

Lemma col_lane_changes_ok (nm : next_map_t) :
  nm_ok points nm ->
  nm_ok points (col_lane_changes (build_col_index points purple) nm).
Proof.
  unfold col_lane_changes. apply fold_left_inv. intros [a b] s I Hs.
  apply lane_change_cols_ok; auto. revert a b I. now apply pairs_distinct.
Qed.

Lemma rowseg_ids_good (reg : region) (key : Z * Z) (ids : list string) :
  In (key, ids) (build_rowseg_index points reg) -> Sorted (good points) ids.
Proof.
  unfold build_rowseg_index. intros I.
  apply in_map_iff in I as ([key' lst] & E & I). inversion E; subst; clear E.
  set (f := fun pid p =>
         if negb (region_eqb (p_region p) reg) then None
         else match p_meta p with
              | MetaSeg _ s _ _ => Some ((py_round (p_y p), s), (p_x p, pid))
              | _ => None
              end) in *.
  assert (L : lst = dget_or (group_by f points) key []).
  { unfold dget_or. rewrite (In_dget _ _ _ (group_by_wf f points) I). reflexivity. }
  apply NoDup_Sorted_good.
  - apply sorted_by_map_NoDup. rewrite L. apply group_by_NoDup; auto.
    intros pid p k' a. unfold f. destruct (negb _); [discriminate|].
    destruct (p_meta p); try discriminate. intros E. inversion E. reflexivity.
  - intros a Ia. apply in_map_iff in Ia as ([x pid] & E & Ia). cbn in E. subst pid.
    apply sorted_by_In in Ia. rewrite L in Ia.
    apply group_by_In in Ia as (pid & p & k' & Ip & F & _).
    unfold f in F. destruct (negb _); [discriminate|].
    destruct (p_meta p); try discriminate. inversion F; subst.
    apply In_dget_some with (v := p). exact Ip.
Qed.

Lemma connect_segments_ok (reg : region) (dir : Z -> direction) (nm : next_map_t) :
  nm_ok points nm ->
  nm_ok points (connect_segments (build_rowseg_index points reg) dir nm).
Proof.
  unfold connect_segments. apply fold_left_inv. intros [[r s] ids] nm' I Hs.
  destruct (List.length ids <? 2)%nat; auto.
  apply chain_ok; auto. eapply rowseg_ids_good; eauto.
Qed.

Lemma og_lane_changes_ok (nm : next_map_t) :
  nm_ok points nm ->
  nm_ok points (og_lane_changes (build_row_x_index points orange)
                  (build_row_x_index points green) nm).
Proof.
  unfold og_lane_changes. apply fold_left_inv. intros r s _ Hs. revert Hs.
  apply fold_left_inv. intros r_to s' I Hs'. unfold og_lane_step.
  destruct (negb _); auto.
  assert (r <> r_to) by (cbn in I; lia).
  apply lane_change_og_ok; auto. apply lane_change_og_ok; auto.
Qed.

End Steps.

(** ** The blue segments *)

Lemma good_by {A} (points : points_t) (f : point -> A) (a b : string) (p q : point) :
  dget points a = Some p -> dget points b = Some q -> f p <> f q -> good points a b.
Proof.
  intros Ga Gb N. repeat split; congruence.
Qed.

Lemma region_eqb_eq (a b : region) : region_eqb a b = true <-> a = b.
Proof. destruct a, b; cbn; split; intros; congruence. Qed.

Lemma region_eqb_neq (a b : region) : region_eqb a b = false <-> a <> b.
Proof. destruct a, b; cbn; split; intros; congruence. Qed.

Lemma kind_eqb_eq (a b : kind) : kind_eqb a b = true <-> a = b.
Proof. destruct a, b; cbn; split; intros; congruence. Qed.

Lemma filter_m_done {A} (f : A -> outcome bool) (l : list A) :
  (forall a, In a l -> exists b, f a = Done b) ->
  exists l', filter_m f l = Done l'
             /\ forall a, In a l' -> In a l /\ f a = Done true.
Proof.
  induction l as [|a l IH]; cbn; intros Hf.
  - exists []. split; auto. intros ? [].
  - destruct (Hf a (or_introl eq_refl)) as (b & Eb). rewrite Eb. cbn.
    destruct IH as (l' & El & Hl); [intros; apply Hf; auto|]. rewrite El. cbn.
    destruct b.
    + exists (a :: l'). split; auto. intros x [->|I]; auto.
      destruct (Hl x I). auto.
    + exists l'. split; auto. intros x I. destruct (Hl x I). auto.
Qed.

Lemma find_m_done {A} (f : A -> outcome bool) (l : list A) :
  (forall a, In a l -> exists b, f a = Done b) ->
  exists r, find_m f l = Done r
            /\ forall a, r = Some a -> In a l /\ f a = Done true.
Proof.
  induction l as [|a l IH]; cbn; intros Hf.
  - exists None. split; auto. discriminate.
  - destruct (Hf a (or_introl eq_refl)) as (b & Eb). rewrite Eb. cbn.
    destruct b.
    + exists (Some a). split; auto. intros x E. inversion E; subst. auto.
    + destruct IH as (r & Er & Hr); [intros; apply Hf; auto|].
      exists r. split; auto. intros x E. destruct (Hr x E). auto.
Qed.

Lemma any_m_done {A} (f : A -> outcome bool) (l : list A) :
  (forall a, In a l -> exists b, f a = Done b) ->
  exists r, any_m f l = Done r.
Proof.
  induction l as [|a l IH]; cbn; intros Hf; eauto.
  destruct (Hf a (or_introl eq_refl)) as (b & Eb). rewrite Eb. cbn.
  destruct b; eauto.
Qed.

Lemma map_m_done {A B} (f : A -> outcome B) (g : A -> B) (l : list A) :
  (forall a, In a l -> f a = Done (g a)) -> map_m f l = Done (map g l).
Proof.
  induction l as [|a l IH]; cbn; intros Hf; auto.
  rewrite (Hf a (or_introl eq_refl)). cbn. rewrite IH; auto.
Qed.

Lemma hd_In {A} (d : A) (l : list A) : l <> [] -> In (hd d l) l.
Proof. destruct l; cbn; [congruence|auto]. Qed.

Lemma last_In {A} (d : A) (l : list A) : l <> [] -> In (last l d) l.
Proof.
  induction l as [|a [|b tl] IH]; intros N; [congruence|cbn; auto|].
  right. apply IH. discriminate.
Qed.

Lemma inject_Z_keq (a b : Z) : (inject_Z a == inject_Z b)%Q -> a = b.
Proof. unfold Qeq. cbn. lia. Qed.

Section Blue.
Variable points : points_t.
Hypothesis points_wf : dwf points.

Lemma point_at_done (pid : string) (p : point) :
  dget points pid = Some p -> point_at points pid = Done p.
Proof. unfold point_at. now intros ->. Qed.

Lemma region_is_done (reg : region) (pid : string) (p : point) :
  dget points pid = Some p ->
  region_is points reg pid = Done (region_eqb (p_region p) reg).
Proof. intros G. unfold region_is. now rewrite (point_at_done _ _ G). Qed.

Lemma region_is_not_done (reg : region) (pid : string) (p : point) :
  dget points pid = Some p ->
  region_is_not points reg pid = Done (negb (region_eqb (p_region p) reg)).
Proof. intros G. unfold region_is_not. now rewrite (point_at_done _ _ G). Qed.

(** The ids of the coordinate index are ids of [points] at that coordinate. *)
Lemma coord_index_In (x y : Q) (pid : string) :
  In pid (dget_or (build_coord_index points) (x, y) []) ->
  exists p, dget points pid = Some p /\ (x == p_x p)%Q /\ (y == p_y p)%Q.
Proof.
  unfold build_coord_index. intros I.
  apply group_by_In in I as (pid' & p & k' & Ip & F & E).
  inversion F; subst. exists p. split; [now apply In_dget|].
  cbn in E. apply andb_true_iff in E as [E1 E2].
  split; now apply Qeq_bool_eq.
Qed.

Lemma get_pid_at_done (x y : Q) (prefer exclude : option region) :
  exists r,
    get_pid_at points (build_coord_index points) x y prefer exclude = Done r
    /\ forall pid, r = Some pid ->
         exists p, dget points pid = Some p /\ (x == p_x p)%Q /\ (y == p_y p)%Q
                   /\ forall ex, exclude = Some ex -> p_region p <> ex.
Proof.
  unfold get_pid_at.
  set (cands := dget_or (build_coord_index points) (x, y) []).
  assert (Hc : forall pid, In pid cands ->
             exists p, dget points pid = Some p /\ (x == p_x p)%Q /\ (y == p_y p)%Q)
    by (intros pid; apply coord_index_In).
  destruct (is_empty cands) eqn:Em.
  { exists None. split; auto. discriminate. }
  assert (Hf : exists cands',
    match exclude with
    | Some ex => filter_m (region_is_not points ex) cands
    | None => Done cands
    end = Done cands'
    /\ forall pid, In pid cands' ->
         In pid cands /\ forall ex p, exclude = Some ex -> dget points pid = Some p ->
                                      p_region p <> ex).
  { destruct exclude as [ex|].
    - destruct (filter_m_done (region_is_not points ex) cands) as (l' & El & Hl).
      + intros a Ia. destruct (Hc a Ia) as (p & G & _).
        rewrite (region_is_not_done _ _ _ G). eauto.
      + exists l'. split; auto. intros pid I. destruct (Hl pid I) as [I' T].
        split; auto. intros ex' p E G. inversion E; subst ex'.
        rewrite (region_is_not_done _ _ _ G) in T. inversion T as [T'].
        apply negb_true_iff in T'. now apply region_eqb_neq.
    - exists cands. split; auto. intros pid I. split; auto. discriminate. }
  destruct Hf as (cands' & -> & Hcands'). cbn.
  assert (Hres : forall pid, In pid cands' ->
     exists p, dget points pid = Some p /\ (x == p_x p)%Q /\ (y == p_y p)%Q
               /\ forall ex, exclude = Some ex -> p_region p <> ex).
  { intros pid I. destruct (Hcands' pid I) as [I' R].
    destruct (Hc pid I') as (p & G & Ex & Ey). exists p. split; [exact G|]. split; [exact Ex|]. split; [exact Ey|].
    intros ex E. eapply R; eauto. }
  destruct cands' as [|first rest].
  { exists None. split; auto. discriminate. }
  destruct prefer as [pr|].
  - destruct (find_m_done (region_is points pr) (first :: rest)) as (r & Er & Hr).
    + intros a Ia. destruct (Hres a Ia) as (p & G & _).
      rewrite (region_is_done _ _ _ G). eauto.
    + rewrite Er. cbn. destruct r as [pid|].
      * exists (Some pid). split; auto. intros pid' E. inversion E; subst pid'.
        apply Hres. now apply (Hr pid).
      * exists (Some first). split; auto. intros pid' E. inversion E; subst pid'.
        apply Hres. now left.
  - exists (Some first). split; auto. intros pid' E. inversion E; subst pid'.
    apply Hres. now left.
Qed.

Lemma blue_ids_loop (r : Z) (l : list Z) :
  NoDup l ->
  forall acc,
  exists rest,
    for_each l
      (fun c ids =>
         pid <- get_pid_at points (build_coord_index points) (inject_Z (c - 1))
                  (inject_Z r) (Some blue) None ;;
         match pid with
         | Some pid =>
             if truthy pid
             then is_blue <- region_is points blue pid ;;
                  Done (if is_blue then ids ++ [pid] else ids)
             else Done ids
         | None => Done ids
         end) acc = Done (acc ++ rest)
    /\ NoDup rest
    /\ forall pid, In pid rest -> exists c, In c l /\ blue_cell_id points c pid.
Proof.
  induction l as [|c l IH]; intros N acc.
  - exists []. cbn. rewrite app_nil_r. repeat split; auto. constructor. intros ? [].
  - inversion N as [|? ? Nc N']; subst. cbn [for_each].
    destruct (get_pid_at_done (inject_Z (c - 1)) (inject_Z r) (Some blue) None)
      as (o & -> & Ho). cbn [bind].
    assert (Hstep : exists new,
      match o with
      | Some pid =>
          if truthy pid
          then is_blue <- region_is points blue pid ;;
               Done (if is_blue then acc ++ [pid] else acc)
          else Done acc
      | None => Done acc
      end = Done (acc ++ new)
      /\ (new = [] \/ exists pid, new = [pid] /\ blue_cell_id points c pid)).
    { destruct o as [pid|].
      - destruct (Ho pid eq_refl) as (p & G & Ex & _).
        destruct (truthy pid).
        + rewrite (region_is_done _ _ _ G). cbn.
          destruct (region_eqb (p_region p) blue) eqn:Eb.
          * exists [pid]. split; auto. right. exists pid. split; auto.
            exists p. repeat split; auto. now apply region_eqb_eq.
          * exists []. rewrite app_nil_r. auto.
        + exists []. rewrite app_nil_r. auto.
      - exists []. rewrite app_nil_r. auto. }
    destruct Hstep as (new & -> & Hnew). cbn [bind].
    destruct (IH N' (acc ++ new)) as (rest & -> & Nr & Hr).
    exists (new ++ rest). rewrite app_assoc. split; auto.
    destruct Hnew as [->|(pid & -> & Hb)]; cbn.
    + split; auto. intros pid I. destruct (Hr pid I) as (c' & Ic & B). eauto.
    + split.
      * constructor; auto. intros I. destruct (Hr pid I) as (c' & Ic & B').
        destruct Hb as (p & G & _ & E), B' as (p' & G' & _ & E').
        rewrite G in G'. inversion G'; subst p'.
        assert (c - 1 = c' - 1) by (apply inject_Z_keq; rewrite E, E'; reflexivity).
        apply Nc. replace c with c' by lia. exact Ic.
      * intros pid' [<-|I]; [exists c; auto|].
        destruct (Hr pid' I) as (c' & Ic & B). eauto.
Qed.

Lemma py_range_NoDup (lo hi : Z) : NoDup (py_range lo hi).
Proof.
  unfold py_range. apply Finite.Injective_map_NoDup; [|apply seq_NoDup].
  intros a b E. lia.
Qed.

Lemma py_range_In (lo hi z : Z) : In z (py_range lo hi) <-> lo <= z < hi.
Proof.
  unfold py_range. rewrite in_map_iff. split.
  - intros (i & <- & I). apply in_seq in I. lia.
  - intros Hz. exists (Z.to_nat (z - lo)). split; [lia|]. apply in_seq. lia.
Qed.

Lemma blue_ids_of_segment_done (r c1 c2 : Z) :
  exists ids,
    blue_ids_of_segment points (build_coord_index points) r c1 c2 = Done ids
    /\ NoDup ids
    /\ forall pid, In pid ids ->
         exists p, dget points pid = Some p /\ p_region p = blue.
Proof.
  unfold blue_ids_of_segment.
  destruct (blue_ids_loop r (py_range c1 (c2 + 1)) (py_range_NoDup _ _) [])
    as (rest & E & N & H).
  exists rest. cbn in E. split; auto. split; auto.
  intros pid I. destruct (H pid I) as (c & _ & p & G & B & _). eauto.
Qed.

Lemma link_outside_ok (outside : option string) (edge_of : string -> string * string)
  (nm : next_map_t) :
  nm_ok points nm ->
  (forall o p, outside = Some o -> dget points o = Some p -> p_region p <> blue ->
               good points (fst (edge_of o)) (snd (edge_of o))) ->
  (forall o, outside = Some o -> exists p, dget points o = Some p) ->
  exists nm', link_outside points outside edge_of nm = Done nm' /\ nm_ok points nm'.
Proof.
  intros Hok Hg Hin. unfold link_outside. destruct outside as [o|]; eauto.
  destruct (truthy o); eauto.
  destruct (Hin o eq_refl) as (p & G). rewrite (region_is_not_done _ _ _ G). cbn.
  destruct (negb (region_eqb (p_region p) blue)) eqn:E; eauto.
  eexists. split; eauto. apply add_edge_ok; auto. eapply Hg; eauto.
  apply negb_true_iff in E. now apply region_eqb_neq.
Qed.

Lemma blue_segment_ok (r : Z) (d : direction) (sg : Z * Z) (nm : next_map_t) :
  nm_ok points nm ->
  exists nm', blue_segment points (build_coord_index points) r d sg nm = Done nm'
              /\ nm_ok points nm'.
Proof.
  intros Hok. destruct sg as [c1 c2]. unfold blue_segment.
  destruct (blue_ids_of_segment_done r c1 c2) as (ids & -> & Nd & Hids). cbn [bind].
  destruct (List.length ids <? 2)%nat eqn:Len; eauto.
  apply Nat.ltb_ge in Len.
  rewrite (map_m_done _ (fun pid => (match dget points pid with
                                     | Some p => p_x p
                                     | None => 0%Q
                                     end, pid))).
  2:{ intros a Ia. destruct (Hids a Ia) as (p & G & _).
      rewrite (point_at_done _ _ G), G. reflexivity. }
  cbn [bind].
  set (keyed := map _ ids).
  set (ids_sorted := map snd (sorted_by fst keyed)).
  assert (Hperm : Permutation ids_sorted ids).
  { unfold ids_sorted. rewrite (Permutation_map snd (sorted_by_perm fst keyed)).
    unfold keyed. rewrite map_map. cbn. now rewrite map_id. }
  assert (Hin : forall a, In a ids_sorted -> exists p, dget points a = Some p /\ p_region p = blue).
  { intros a Ia. apply Hids. eapply Permutation_in; eauto. }
  assert (Hne : ids_sorted <> []).
  { intros E. rewrite E in Hperm. apply Permutation_length in Hperm. cbn in Hperm. lia. }
  assert (Hchain : nm_ok points (chain d nm ids_sorted)).
  { apply chain_ok; auto. apply NoDup_Sorted_good.
    - eapply Permutation_NoDup; [symmetry; exact Hperm|exact Nd].
    - intros a Ia. destruct (Hin a Ia) as (p & G & _). congruence. }
  destruct (Hin _ (hd_In EmptyString ids_sorted Hne)) as (pf & Gf & Bf).
  destruct (Hin _ (last_In EmptyString ids_sorted Hne)) as (pl & Gl & Bl).
  destruct (get_pid_at_done (inject_Z (c1 - 1 - 1)) (inject_Z r) None (Some blue))
    as (ol & -> & Hol).
  destruct (get_pid_at_done (inject_Z (c2 + 1 - 1)) (inject_Z r) None (Some blue))
    as (or & -> & Hor). cbn [bind].
  assert (Hout : forall o x, (forall pid, o = Some pid ->
             exists p, dget points pid = Some p /\ (x == p_x p)%Q /\ (inject_Z r == p_y p)%Q
                       /\ forall ex, Some blue = Some ex -> p_region p <> ex) ->
             forall pid, o = Some pid -> exists p, dget points pid = Some p).
  { intros o x H pid E. destruct (H pid E) as (p & G & _). eauto. }
  destruct d.
  - destruct (link_outside_ok ol (fun o => (o, hd EmptyString ids_sorted))
                (chain Right nm ids_sorted)) as (nm1 & -> & Hok1); eauto.
    { intros o p _ G Nb. cbn. eapply good_by with (f := p_region); eauto. congruence. }
    cbn [bind].
    apply link_outside_ok; eauto.
    intros o p _ G Nb. cbn. eapply good_by with (f := p_region); eauto. congruence.
  - destruct (link_outside_ok or (fun o => (o, last ids_sorted EmptyString))
                (chain Left nm ids_sorted)) as (nm1 & -> & Hok1); eauto.
    { intros o p _ G Nb. cbn. eapply good_by with (f := p_region); eauto. congruence. }
    cbn [bind].
    apply link_outside_ok; eauto.
    intros o p _ G Nb. cbn. eapply good_by with (f := p_region); eauto. congruence.
Qed.

Lemma blue_horizontal_ok (ws : worksheet) (sig : string) (nm : next_map_t) :
  nm_ok points nm ->
  exists nm', blue_horizontal ws sig points (build_coord_index points) nm = Done nm'
              /\ nm_ok points nm'.
Proof.
  unfold blue_horizontal. apply for_each_inv. intros r s _ Hs.
  destruct (is_empty _); eauto.
  revert Hs. apply for_each_inv. intros sg s' _ Hs'. now apply blue_segment_ok.
Qed.

End Blue.

(** ** The vertical links *)

Lemma NoDup_map_filter {A B} (g : A -> B) (q : A -> bool) (l : list A) :
  NoDup (map g l) -> NoDup (map g (filter q l)).
Proof.
  induction l as [|a l IH]; cbn; intros N; auto.
  inversion N as [|? ? Ni N']; subst. destruct (q a); cbn; auto.
  constructor; auto. intros I. apply Ni.
  apply in_map_iff in I as (x & E & I). apply filter_In in I as [I _].
  apply in_map_iff. eauto.
Qed.

Lemma Sorted_good_map (points : points_t) {A} (g : A -> string) (l : list A) :
  Sorted (good points) (map g l) ->
  Sorted (fun a b => good points (g a) (g b)) l.
Proof.
  induction l as [|a l IH]; cbn; intros S; constructor; inversion S; subst; auto.
  destruct l; cbn in *; constructor. inversion H2; auto.
Qed.

Lemma chain_up_within_ok (points : points_t) (l : list (Z * string)) :
  Sorted (fun a b => good points (snd a) (snd b)) l ->
  forall nm, nm_ok points nm -> nm_ok points (chain_up_within nm l).
Proof.
  induction l as [|[y0 a] [|[y1 b] tl] IH]; cbn [chain_up_within]; intros S nm Hok; auto.
  inversion S as [|? ? S' Hd]; subst. inversion Hd; subst. cbn in *.
  apply IH; auto. destruct (close_enough y0 y1); auto.
  apply add_edge_ok; auto. now apply good_sym.
Qed.

Lemma chain_down_within_ok (points : points_t) (l : list (Z * string)) :
  Sorted (fun a b => good points (snd a) (snd b)) l ->
  forall nm, nm_ok points nm -> nm_ok points (chain_down_within nm l).
Proof.
  induction l as [|[y0 a] [|[y1 b] tl] IH]; cbn [chain_down_within]; intros S nm Hok; auto.
  inversion S as [|? ? S' Hd]; subst. inversion Hd; subst. cbn in *.
  apply IH; auto. destruct (close_enough y0 y1); auto.
  apply add_edge_ok; auto.
Qed.

Lemma first_within_Some {B} (f : Z -> option B) (guard : bool) (y sign : Z)
  (ds : list Z) (d : Z) (b : B) :
  first_within f guard y sign ds = Some (d, b) ->
  In d ds /\ f (y + sign * d) = Some b.
Proof.
  induction ds as [|d0 ds IH]; cbn; [discriminate|].
  destruct (guard && (y + sign * d0 <? 0)); [discriminate|].
  destruct (f (y + sign * d0)) as [b0|] eqn:F.
  - intros E. inversion E; subst. auto.
  - intros E. destruct (IH E). auto.
Qed.

Lemma get_truthy_Some {K} `{Hashable K} (d : dict K string) (k : K) (pid : string) :
  get_truthy d k = Some pid -> dget d k = Some pid.
Proof.
  unfold get_truthy. destruct (dget d k) as [p|]; [|discriminate].
  destruct (truthy p); congruence.
Qed.

Lemma y_map_In (lst : list (Z * string * vdir)) (y : Z) (pid : string) :
  In (y, pid) (y_map lst) -> exists d, In (y, pid, d) lst.
Proof.
  unfold y_map.
  enough (G : forall m, (forall y pid, In (y, pid) m -> exists d, In (y, pid, d) lst) ->
    forall y pid, In (y, pid)
      (fold_left (fun m '(y, pid, _) => dset m y pid) lst m) -> exists d, In (y, pid, d) lst).
  { apply G. intros ? ? []. }
  intros m Hm. revert m Hm.
  assert (Hincl : incl lst lst) by apply incl_refl. revert Hincl.
  generalize lst at 1 4 as l.
  induction l as [|[[y0 p0] d0] l IH]; cbn; intros Hincl m Hm y' pid'; auto.
  apply IH.
  - intros x Ix. apply Hincl. now right.
  - intros y1 p1 I. apply In_dset in I as [[-> E]|I]; auto.
    apply Z_keq in E. subst y1. exists d0. apply Hincl. now left.
Qed.

Section Vertical.
Variable points : points_t.
Hypothesis points_wf : dwf points.

Section BluePoints.
Variable segs : dict Z (list (Z * Z)).
Hypothesis blue_cells : blue_are_cells points.

Lemma build_blue_points_by_x_done :
  build_blue_points_by_x segs points = Done (group_by (bpx_entry segs) points).
Proof.
  unfold build_blue_points_by_x, group_by.
  assert (Hincl : incl points points) by apply incl_refl. revert Hincl.
  generalize (@nil (Z * list (Z * string * vdir))) as out.
  generalize points at 1 3 4 as l.
  induction l as [|[pid p] l IH]; cbn [for_each fold_left]; intros out Hincl; auto.
  cbv beta iota.
  match goal with
  | |- bind ?m _ = _ =>
      assert (Hstep : m = Done (match bpx_entry segs pid p with
                                | Some (k, a) => dset out k (dget_or out k [] ++ [a])
                                | None => out
                                end))
  end.
  { unfold bpx_entry. destruct (negb (region_eqb (p_region p) blue)) eqn:E; auto.
    apply negb_false_iff, region_eqb_eq in E.
    destruct (blue_cells pid p (Hincl _ (or_introl eq_refl)) E) as (r & c & ->). cbn.
    destruct (blue_vertical_dir segs r c); auto. }
  rewrite Hstep. cbn [bind]. apply IH. intros x Ix. apply Hincl. now right.
Qed.

Lemma bpx_In (x y : Z) (pid : string) (d : vdir) :
  In (y, pid, d) (dget_or (group_by (bpx_entry segs) points) x []) ->
  exists p, dget points pid = Some p /\ p_region p = blue
            /\ py_round (p_x p) = x /\ py_round (p_y p) = y.
Proof.
  intros I. apply group_by_In in I as (pid' & p & k' & Ip & F & E).
  unfold bpx_entry in F. destruct (negb (region_eqb (p_region p) blue)) eqn:Eb;
    [discriminate|]. apply negb_false_iff, region_eqb_eq in Eb.
  destruct (meta_row (p_meta p)); [|discriminate].
  destruct (meta_col (p_meta p)); [|discriminate].
  destruct (blue_vertical_dir segs z z0); [|discriminate].
  inversion F; subst. apply Z_keq in E. exists p. repeat split; auto.
  now apply In_dget.
Qed.

Lemma bpx_NoDup (x : Z) :
  NoDup (map (fun t => snd (fst t)) (dget_or (group_by (bpx_entry segs) points) x [])).
Proof.
  apply group_by_NoDup; auto. intros pid p k' a. unfold bpx_entry.
  destruct (negb _); [discriminate|].
  destruct (meta_row (p_meta p)); [|discriminate].
  destruct (meta_col (p_meta p)); [|discriminate].
  destruct (blue_vertical_dir segs z z0); [|discriminate].
  intros E. inversion E. reflexivity.
Qed.

Lemma bpx_get (x : Z) (lst : list (Z * string * vdir)) :
  dget (group_by (bpx_entry segs) points) x = Some lst ->
  lst = dget_or (group_by (bpx_entry segs) points) x [].
Proof. unfold dget_or. now intros ->. Qed.

Lemma link_aip_ais_ok (nm : next_map_t) :
  nm_ok points nm ->
  nm_ok points (link_aip_ais (group_by (bpx_entry segs) points) nm).
Proof.
  intros Hok. unfold link_aip_ais.
  destruct (dget _ (col_AIP - 1)) as [at_aip|] eqn:Ga; auto.
  destruct (dget _ (col_AIS - 1)) as [at_ais|] eqn:Gs; auto.
  apply bpx_get in Ga, Gs. revert Hok. apply fold_left_inv.
  intros [y pa] s I Hs.
  destruct (dget (y_map at_ais) y) as [pb|] eqn:G; auto.
  apply y_map_In in I as (da & Ia). rewrite Ga in Ia.
  apply bpx_In in Ia as (p & Gp & _ & Xp & _).
  apply dget_In in G as (y' & Ib & _). apply y_map_In in Ib as (db & Ib).
  rewrite Gs in Ib. apply bpx_In in Ib as (q & Gq & _ & Xq & _).
  assert (Hg : good points pa pb).
  { eapply good_by with (f := fun p => py_round (p_x p)); eauto.
    rewrite Xp, Xq. discriminate. }
  destruct (row_lr_dir y); apply add_edge_ok; auto. now apply good_sym.
Qed.

Lemma ids_of_dir_good (d : vdir) (x : Z) :
  Sorted (good points)
    (map snd (sorted_by (fun t => inject_Z (fst t))
                (ids_of_dir d (dget_or (group_by (bpx_entry segs) points) x [])))).
Proof.
  set (lst := dget_or _ x []).
  assert (Hmap : map snd (ids_of_dir d lst)
                 = map (fun t => snd (fst t)) (filter (fun '(_, _, d') => vdir_eqb d' d) lst)).
  { unfold ids_of_dir. rewrite map_map. apply map_ext. now intros [[y pid] d']. }
  apply NoDup_Sorted_good.
  - apply sorted_by_map_NoDup. rewrite Hmap. apply NoDup_map_filter, bpx_NoDup.
  - intros a Ia. apply in_map_iff in Ia as ([y pid] & E & Ia). cbn in E. subst pid.
    apply sorted_by_In in Ia. unfold ids_of_dir in Ia.
    apply in_map_iff in Ia as ([[y' pid'] d'] & E & Ia). inversion E; subst.
    apply filter_In in Ia as [Ia _]. apply bpx_In in Ia as (p & G & _). congruence.
Qed.

Lemma blue_vertical_chains_ok (nm : next_map_t) :
  nm_ok points nm ->
  nm_ok points (blue_vertical_chains (group_by (bpx_entry segs) points) nm).
Proof.
  unfold blue_vertical_chains. apply fold_left_inv. intros [x lst] s I Hs.
  assert (L : lst = dget_or (group_by (bpx_entry segs) points) x []).
  { unfold dget_or. now rewrite (In_dget _ _ _ (group_by_wf _ points) I). }
  rewrite L. apply chain_right_ok; [apply ids_of_dir_good|].
  apply chain_left_ok; [apply ids_of_dir_good|]. exact Hs.
Qed.

End BluePoints.

Lemma col_ids_good (reg : region) (r1 r2 x : Z) :
  Sorted (fun a b => good points (snd a) (snd b))
    (filter (in_range r1 r2) (ordered_in_col (build_col_index points reg) x)).
Proof.
  apply Sorted_good_map. apply NoDup_Sorted_good.
  - apply NoDup_map_filter. unfold ordered_in_col. apply sorted_by_map_NoDup.
    now apply index_by_row_NoDup.
  - intros a Ia. apply in_map_iff in Ia as ([y pid] & E & Ia). cbn in E. subst pid.
    apply filter_In in Ia as [Ia _]. apply sorted_by_In in Ia.
    unfold build_col_index in Ia.
    destruct (index_by_entry _ points points_wf x y a Ia) as (p & _ & _ & G & _).
    congruence.
Qed.

Lemma purple_vertical_chains_ok (nm : next_map_t) :
  nm_ok points nm ->
  nm_ok points (purple_vertical_chains (build_col_index points purple) nm).
Proof.
  unfold purple_vertical_chains. apply fold_left_inv. intros [r1 r2] s _ Hs.
  apply fold_left_inv.
  - intros x s' _ Hs'. apply chain_down_within_ok; auto. apply col_ids_good.
  - revert Hs. apply fold_left_inv. intros x s' _ Hs'.
    apply chain_up_within_ok; auto. apply col_ids_good.
Qed.

Lemma blue_index_In (k : Z * Z) (pid : string) :
  In (k, pid) (build_blue_index points) ->
  exists p, dget points pid = Some p /\ p_region p = blue /\ blue_key p = k.
Proof.
  unfold build_blue_index. revert k pid.
  apply (fold_left_inv (fun out => forall k pid, In (k, pid) out ->
           exists p, dget points pid = Some p /\ p_region p = blue /\ blue_key p = k)).
  - intros [pid p] out I IHout k pid'.
    destruct (region_eqb (p_region p) blue && kind_eqb (p_kind p) KCell) eqn:E; auto.
    intros I'. apply In_dset in I' as [[-> E']|I']; auto.
    apply andb_true_iff in E as [Eb _]. apply region_eqb_eq in Eb.
    exists p. split; [now apply In_dget|]. split; auto.
    cbn in E'. apply andb_true_iff in E' as [E1 E2].
    apply Z.eqb_eq in E1, E2. destruct k. cbn in *. unfold blue_key. congruence.
  - intros ? ? [].
Qed.

Lemma blue_index_get (k : Z * Z) (pid : string) :
  dget (build_blue_index points) k = Some pid ->
  exists p, dget points pid = Some p /\ p_region p = blue /\ blue_key p = k.
Proof.
  intros G. apply dget_In in G as (k' & I & E).
  apply blue_index_In in I as (p & G & B & K). exists p. repeat split; auto.
  cbn in E. apply andb_true_iff in E as [E1 E2]. apply Z.eqb_eq in E1, E2.
  destruct k, k'. cbn in *. congruence.
Qed.

Lemma blue_vertical_bridge_ok (x_lo x_hi sign : Z) (nm : next_map_t) :
  sign <> 0 -> nm_ok points nm ->
  nm_ok points (blue_vertical_bridge (build_blue_index points) x_lo x_hi sign nm).
Proof.
  intros Hs. unfold blue_vertical_bridge. apply fold_left_inv. intros x s _.
  apply fold_left_inv. intros y s' _ Hok.
  destruct (dget (build_blue_index points) (x, y)) as [pid|] eqn:G; auto.
  destruct (first_within _ false y sign (py_range 1 6)) as [[d pid2]|] eqn:F; auto.
  apply first_within_Some in F as [Id F]. apply get_truthy_Some in F.
  apply py_range_In in Id.
  apply blue_index_get in G as (p & Gp & _ & Kp).
  apply blue_index_get in F as (q & Gq & _ & Kq).
  apply add_edge_ok; auto. eapply good_by with (f := blue_key); eauto.
  rewrite Kp, Kq. intros E. inversion E. nia.
Qed.

Lemma purple_at_Some (xi y : Z) (pid : string) :
  purple_at (build_col_index points purple) xi y = Some pid ->
  exists p, dget points pid = Some p /\ p_region p = purple.
Proof.
  unfold purple_at. intros G. apply get_truthy_Some in G.
  unfold build_col_index in G.
  destruct (index_by_get _ points points_wf xi y pid G) as (p & ka & kb & Gp & F & _).
  exists p. split; auto.
  destruct (negb (region_eqb (p_region p) purple)) eqn:E; [discriminate|].
  now apply negb_false_iff, region_eqb_eq in E.
Qed.

Lemma add_adj_bp_edge_ok (guard : bool) (sign xi y_from : Z) (st : best_t * next_map_t) :
  best_ok points (fst st) /\ nm_ok points (snd st) ->
  best_ok points (fst (add_adj_bp_edge (build_col_index points purple)
                         (build_blue_index points) guard sign xi y_from st))
  /\ nm_ok points (snd (add_adj_bp_edge (build_col_index points purple)
                          (build_blue_index points) guard sign xi y_from st)).
Proof.
  destruct st as [best nm]. cbn [fst snd]. intros [Hb Hn].
  unfold add_adj_bp_edge. cbn [fst snd]. split.
  - destruct (get_truthy (build_blue_index points) (xi, y_from)) as [pb|] eqn:Gb; auto.
    destruct (first_within (purple_at _ xi) guard y_from sign _) as [[d pp]|] eqn:F; auto.
    apply first_within_Some in F as [_ F]. apply purple_at_Some in F as (q & Gq & Rq).
    apply get_truthy_Some, blue_index_get in Gb as (p & Gp & Rp & _).
    assert (Hnew : best_ok points (dset best pp (d, Z.abs y_from, pb, pb))).
    { intros pu c bl I. apply In_dset in I as [[E K]|I]; [|eapply Hb; eauto].
      inversion E; subst. apply str_keq in K. subst pu.
      eapply good_by with (f := p_region); eauto. congruence. }
    destruct (dget best pp) as [cur|]; auto.
    destruct (cand_ltb _ _); auto.
  - destruct (purple_at _ xi y_from) as [pp|] eqn:Gp; auto.
    destruct (first_within _ guard y_from sign _) as [[d pb]|] eqn:F; auto.
    apply first_within_Some in F as [_ F].
    apply get_truthy_Some, blue_index_get in F as (p & Gb & Rb & _).
    apply purple_at_Some in Gp as (q & Gq & Rq).
    apply add_edge_ok; auto. eapply good_by with (f := p_region); eauto. congruence.
Qed.

Lemma bp_group_ok (guard : bool) (sign x_lo x_hi : Z) (st : best_t * next_map_t) :
  best_ok points (fst st) /\ nm_ok points (snd st) ->
  best_ok points (fst (bp_group (build_col_index points purple)
                         (build_blue_index points) guard sign x_lo x_hi st))
  /\ nm_ok points (snd (bp_group (build_col_index points purple)
                          (build_blue_index points) guard sign x_lo x_hi st)).
Proof.
  unfold bp_group.
  apply (fold_left_inv (fun st => best_ok points (fst st) /\ nm_ok points (snd st))).
  intros x s _.
  apply (fold_left_inv (fun st => best_ok points (fst st) /\ nm_ok points (snd st))).
  intros y s' _. apply add_adj_bp_edge_ok.
Qed.

Lemma blue_purple_adjacency_ok (nm : next_map_t) :
  nm_ok points nm ->
  nm_ok points (blue_purple_adjacency (build_col_index points purple)
                  (build_blue_index points) nm).
Proof.
  intros Hok. unfold blue_purple_adjacency.
  set (st1 := bp_group _ _ true (-1) x_AIS x_AIT ([], nm)).
  set (st2 := bp_group _ _ false 1 x_AIU x_AIV st1).
  assert (H1 : best_ok points (fst st1) /\ nm_ok points (snd st1)).
  { apply bp_group_ok. cbn. split; auto. intros ? ? ? []. }
  assert (H2 : best_ok points (fst st2) /\ nm_ok points (snd st2))
    by now apply bp_group_ok.
  destruct H2 as [Hb Hn]. revert Hn.
  apply fold_left_inv. intros [pu [c bl]] s I Hs.
  apply add_edge_ok; auto. eapply Hb; eauto.
Qed.

End Vertical.

(** ** Boundary bridging and the fallback *)

Lemma nearest_step_ids (dist : cand3 -> Q) (st : option Q * list string) (c : cand3)
  (id : string) :
  In id (snd (nearest_step dist st c)) -> id = c_id c \/ In id (snd st).
Proof.
  unfold nearest_step. destruct st as [[best|] ids]; cbn.
  - destruct (Qlt_bool _ _); cbn; [intuition|].
    destruct (Qle_bool _ _); cbn; auto. rewrite in_app_iff. cbn. intuition.
  - intuition.
Qed.

Lemma best_ids_of_In (dist : cand3 -> Q) (cands : list cand3) (id : string) :
  In id (best_ids_of dist cands) -> exists c, In c cands /\ c_id c = id.
Proof.
  unfold best_ids_of.
  enough (G : forall st, In id (snd (fold_left (nearest_step dist) cands st)) ->
            In id (snd st) \/ exists c, In c cands /\ c_id c = id).
  { intros I. destruct (G _ I) as [[]|]; auto. }
  induction cands as [|c l IH]; cbn; intros st I; auto.
  destruct (IH _ I) as [I'|(c' & Ic & E)].
  - apply nearest_step_ids in I' as [->|I']; eauto.
  - eauto.
Qed.

Lemma uniq_In (ids : list string) (id : string) : In id (uniq ids) <-> In id ids.
Proof.
  unfold uniq.
  enough (G : forall out, In id (fold_left
              (fun out pid => if existsb (String.eqb pid) out then out else out ++ [pid])
              ids out) <-> In id out \/ In id ids).
  { rewrite G. cbn. tauto. }
  induction ids as [|a l IH]; cbn; intros out; [tauto|].
  rewrite IH. destruct (existsb (String.eqb a) out) eqn:E.
  - apply existsb_exists in E as (x & Ix & Ex). apply String.eqb_eq in Ex. subst x.
    intuition. subst. auto.
  - rewrite in_app_iff. cbn. intuition.
Qed.

Lemma uniq_NoDup (ids : list string) : NoDup (uniq ids).
Proof.
  unfold uniq.
  enough (G : forall out, NoDup out -> NoDup (fold_left
              (fun out pid => if existsb (String.eqb pid) out then out else out ++ [pid])
              ids out)) by (apply G; constructor).
  induction ids as [|a l IH]; cbn; intros out N; auto.
  apply IH. destruct (existsb (String.eqb a) out) eqn:E; auto.
  apply NoDup_app; auto.
  - constructor; [intros []|constructor].
  - intros x Ix [E'|[]]. subst x.
    assert (existsb (String.eqb a) out = true).
    { apply existsb_exists. exists a. split; auto. apply String.eqb_refl. }
    congruence.
Qed.

Lemma firstn_In {A} (n : nat) (l : list A) (a : A) : In a (firstn n l) -> In a l.
Proof.
  revert n. induction l as [|b l IH]; intros [|n]; cbn; try tauto.
  intros [E|I]; auto. right. eapply IH; eauto.
Qed.

Lemma nth_list_In {A} (l : list A) (j : nat) (a : A) : In a (nth_list l j) -> In a l.
Proof.
  unfold nth_list. destruct (nth_error l j) eqn:E; [|intros []].
  intros [<-|[]]. eapply nth_error_In; eauto.
Qed.

Lemma nearest_by_y_ids_In (cands : list cand3) (y : Q) (cap : nat) (id : string) :
  In id (nearest_by_y_ids cands y cap) -> exists c, In c cands /\ c_id c = id.
Proof.
  unfold nearest_by_y_ids. destruct (is_empty cands); [intros []|].
  destruct (is_empty _); [intros []|].
  intros I. apply firstn_In, uniq_In, best_ids_of_In in I as (c & Ic & E).
  exists c. split; auto. apply in_app_iff in Ic. apply (sorted_by_In c_y).
  destruct Ic as [Ic|Ic].
  - destruct (bisect_left _ _); [destruct Ic|]. eapply nth_list_In; eauto.
  - eapply nth_list_In; eauto.
Qed.

Lemma nearest_by_x_ids_In (cands : list cand3) (x : Q) (cap : nat) (id : string) :
  In id (nearest_by_x_ids cands x cap) -> exists c, In c cands /\ c_id c = id.
Proof.
  unfold nearest_by_x_ids. destruct (is_empty cands); [intros []|].
  intros I. now apply firstn_In, uniq_In, best_ids_of_In in I.
Qed.

Lemma nearest_grey_by_x_in_band_In (bx : Q) (band : list cand3) (cap : nat) (id : string) :
  In id (nearest_grey_by_x_in_band bx band cap) -> exists c, In c band /\ c_id c = id.
Proof.
  unfold nearest_grey_by_x_in_band. destruct (is_empty band); [intros []|].
  intros I. now apply firstn_In, uniq_In, best_ids_of_In in I.
Qed.

Lemma fallback_targets_In (bx b_y : Q) (all_grey : list cand3) (id : string) :
  In id (fallback_targets bx b_y all_grey) ->
  exists c, In c all_grey /\ c_id c = id /\ (bx + EPS < c_x c)%Q.
Proof.
  unfold fallback_targets. destruct (is_empty _); [intros []|].
  intros I. apply firstn_In, uniq_In, best_ids_of_In in I as (c & Ic & E).
  apply filter_In in Ic as [Ic R]. apply Qlt_bool_true in R. eauto.
Qed.

Lemma cands_of_nil (points : points_t) (P : point -> Prop) : cands_of points P [].
Proof. intros c []. Qed.

Lemma cands_of_snoc (points : points_t) (P : point -> Prop) (l : list cand3)
  (pid : string) (p : point) :
  cands_of points P l -> In (pid, p) points -> P p ->
  cands_of points P (l ++ [cand_of pid p]).
Proof.
  intros H I Pp c Ic. apply in_app_iff in Ic as [Ic|[<-|[]]]; eauto.
Qed.

Lemma cands_of_app (points : points_t) (P : point -> Prop) (l l' : list cand3) :
  cands_of points P l -> cands_of points P l' -> cands_of points P (l ++ l').
Proof. intros H H' c Ic. apply in_app_iff in Ic as [Ic|Ic]; auto. Qed.

Lemma cands_of_filter (points : points_t) (P : point -> Prop) (q : cand3 -> bool)
  (l : list cand3) :
  cands_of points P l -> cands_of points P (filter q l).
Proof. intros H c Ic. apply filter_In in Ic as [Ic _]. auto. Qed.

Lemma boundary_candidates_of (points : points_t) :
  cands_of points is_purple_or_blue (fst (build_boundary_candidates points))
  /\ cands_of points is_purple_or_blue (snd (build_boundary_candidates points)).
Proof.
  unfold build_boundary_candidates.
  apply (fold_left_inv (fun out => cands_of points is_purple_or_blue (fst out)
                                   /\ cands_of points is_purple_or_blue (snd out))).
  - intros [pid p] [aiv ajb] I [H1 H2]. unfold boundary_step. cbn [fst snd] in *.
    destruct (_ && _ && _); [cbn; auto|]. cbn [fst snd]. split.
    + destruct ((py_round (p_x p) =? x_AIV) && _) eqn:E; auto.
      apply cands_of_snoc; auto. apply andb_true_iff in E as [_ E].
      apply orb_true_iff in E as [E|E]; apply region_eqb_eq in E; [now left|now right].
    + destruct ((py_round (p_x p) =? x_AJB) && _) eqn:E; auto.
      apply cands_of_snoc; auto. apply andb_true_iff in E as [_ E].
      apply region_eqb_eq in E. now left.
  - cbn. split; apply cands_of_nil.
Qed.

Lemma grey_candidates_of (points : points_t) :
  cands_of points is_grey (fst (build_grey points))
  /\ cands_of points is_grey (snd (build_grey points)).
Proof.
  unfold build_grey.
  apply (fold_left_inv (fun out => cands_of points is_grey (fst out)
                                   /\ cands_of points is_grey (snd out))).
  - intros [gid gp] [gv gh] I [H1 H2]. unfold grey_step. cbn [fst snd] in *.
    destruct (negb (region_eqb (p_region gp) grey)) eqn:E; [cbn; auto|].
    apply negb_false_iff, region_eqb_eq in E.
    destruct (kind_eqb (p_kind gp) KV); cbn [fst snd].
    + split; auto. apply cands_of_snoc; auto.
    + destruct (_ && _); cbn [fst snd]; split; auto. apply cands_of_snoc; auto.
  - cbn. split; apply cands_of_nil.
Qed.

Lemma pb_row_of (points : points_t) (row : Z) :
  cands_of points is_purple_or_blue (pb_row points row).
Proof.
  unfold pb_row. apply fold_left_inv; [|apply cands_of_nil].
  intros [pid p] out I H.
  destruct (negb (_ || _)) eqn:E; auto. apply negb_false_iff in E.
  destruct (_ =? row); auto. apply cands_of_snoc; auto.
  apply orb_true_iff in E as [E|E]; apply region_eqb_eq in E; [now left|now right].
Qed.

Section Bridging.
Variable points : points_t.
Hypothesis points_wf : dwf points.

Lemma cands_good (P Q' : point -> Prop) (l : list cand3) (a : string) (pa : point)
  (c : cand3) :
  cands_of points P l -> In c l -> dget points a = Some pa ->
  (forall q, P q -> p_region q <> p_region pa) ->
  good points a (c_id c).
Proof.
  intros H I Ga Hr. destruct (H c I) as (pid & p & Ip & -> & Pp).
  unfold c_id, cand_of. cbn.
  apply good_by with (f := p_region) (p := pa) (q := p);
    [exact Ga|now apply In_dget|intros E; apply (Hr p Pp); auto].
Qed.

Lemma link_to_cands_ok (P : point -> Prop) (l : list cand3) (a : string) (pa : point)
  (ids : list string) (nm : next_map_t) :
  cands_of points P l -> dget points a = Some pa ->
  (forall q, P q -> p_region q <> p_region pa) ->
  (forall id, In id ids -> exists c, In c l /\ c_id c = id) ->
  nm_ok points nm -> nm_ok points (link_both a ids nm).
Proof.
  intros H Ga Hr Hids Hok. apply link_both_ok; auto.
  intros b Ib. destruct (Hids b Ib) as (c & Ic & <-).
  eapply cands_good with (Q' := P); eauto.
Qed.

Lemma grey_cand_point (l : list cand3) (g : cand3) :
  cands_of points is_grey l -> In g l ->
  exists p, dget points (c_id g) = Some p /\ p_region p = grey
            /\ c_x g = p_x p /\ c_y g = p_y p.
Proof.
  intros H I. destruct (H g I) as (pid & p & Ip & -> & Pp).
  exists p. repeat split; auto. now apply In_dget.
Qed.

Lemma pb_not_grey (q : point) : is_purple_or_blue q -> p_region q <> grey.
Proof. intros [E|E]; rewrite E; discriminate. Qed.

Lemma link_grey_v_ok (grey_v aiv ajb : list cand3) (nm : next_map_t) :
  cands_of points is_grey grey_v ->
  cands_of points is_purple_or_blue aiv ->
  cands_of points is_purple_or_blue ajb ->
  nm_ok points nm -> nm_ok points (link_grey_v grey_v aiv ajb nm).
Proof.
  intros Hg Ha Hb. unfold link_grey_v. apply fold_left_inv. intros g s I Hs.
  destruct (grey_cand_point _ g Hg I) as (p & G & R & _).
  assert (Hr : forall q, is_purple_or_blue q -> p_region q <> p_region p)
    by (intros q Pq; rewrite R; now apply pb_not_grey).
  apply link_to_cands_ok with (P := is_purple_or_blue) (l := ajb) (pa := p);
    auto; [intros id; apply nearest_by_y_ids_In|].
  apply link_to_cands_ok with (P := is_purple_or_blue) (l := aiv) (pa := p);
    auto. intros id; apply nearest_by_y_ids_In.
Qed.

Lemma link_grey_h_ok (grey_h : list cand3) (nm : next_map_t) :
  cands_of points is_grey grey_h ->
  nm_ok points nm -> nm_ok points (link_grey_h points grey_h nm).
Proof.
  intros Hg. unfold link_grey_h. apply fold_left_inv. intros g s I Hs.
  destruct (grey_cand_point _ g Hg I) as (p & G & R & _).
  assert (Hr : forall q, is_purple_or_blue q -> p_region q <> p_region p)
    by (intros q Pq; rewrite R; now apply pb_not_grey).
  assert (Hrow : forall row s',
            nm_ok points s' ->
            nm_ok points (link_both (c_id g)
                            (nearest_by_x_ids (pb_row points row) (c_x g) 2) s')).
  { intros row s' Hs'.
    apply link_to_cands_ok with (P := is_purple_or_blue) (l := pb_row points row) (pa := p);
      auto; [apply pb_row_of|intros id; apply nearest_by_x_ids_In]. }
  destruct (_ && _); auto.
Qed.

Lemma link_blue_rows_ok (grey_h : list cand3) (nm : next_map_t) :
  cands_of points is_grey grey_h ->
  nm_ok points nm -> nm_ok points (link_blue_rows points grey_h nm).
Proof.
  intros Hg. unfold link_blue_rows. apply fold_left_inv. intros [pid p] s I Hs.
  destruct (negb (region_eqb (p_region p) blue)) eqn:E; auto.
  apply negb_false_iff, region_eqb_eq in E.
  destruct (negb _); auto. destruct (_ || _); auto.
  assert (G : dget points pid = Some p) by now apply In_dget.
  assert (Hr : forall q, is_grey q -> p_region q <> p_region p).
  { intros q Pq. rewrite Pq, E. discriminate. }
  assert (Hband : forall q' s',
            nm_ok points s' ->
            nm_ok points (link_both pid
                            (nearest_grey_by_x_in_band (p_x p) (filter q' grey_h) 2) s')).
  { intros q' s' Hs'.
    apply link_to_cands_ok with (P := is_grey) (l := filter q' grey_h) (pa := p);
      auto; [now apply cands_of_filter|intros id; apply nearest_grey_by_x_in_band_In]. }
  destruct (_ =? 22); auto. destruct (_ =? 229); auto.
Qed.

Lemma has_any_grey_neighbor_done (nm : next_map_t) (pid : string) :
  nm_ok points nm -> exists b, has_any_grey_neighbor points nm pid = Done b.
Proof.
  intros Hok. unfold has_any_grey_neighbor. destruct (is_empty _); eauto.
  apply any_m_done. intros t It.
  assert (Hg : good points pid t) by (apply (proj1 (nm_ok_edge points nm) Hok); exact It).
  destruct Hg as (_ & _ & Ht). destruct (dget points t) as [q|] eqn:G; [|congruence].
  rewrite (region_is_done _ _ _ _ G). eauto.
Qed.

Lemma fallback_point_ok (all_grey : list cand3) (item : string * point)
  (nm : next_map_t) :
  cands_of points is_grey all_grey -> In item points -> nm_ok points nm ->
  exists nm', fallback_point points all_grey item nm = Done nm' /\ nm_ok points nm'.
Proof.
  intros Hg I Hok. destruct item as [pid p]. unfold fallback_point.
  destruct (negb (region_eqb (p_region p) blue)) eqn:E; eauto.
  apply negb_false_iff, region_eqb_eq in E.
  destruct (negb _); eauto.
  destruct (has_any_grey_neighbor_done nm pid Hok) as (b & ->). cbn [bind].
  destruct b; eauto. destruct (in_middle _); eauto.
  eexists. split; eauto.
  apply link_to_cands_ok with (P := is_grey) (l := all_grey) (pa := p); auto.
  - now apply In_dget.
  - intros q Pq. rewrite Pq, E. discriminate.
  - intros id Iid. apply fallback_targets_In in Iid as (c & Ic & Ec & _). eauto.
Qed.

Lemma fallback_bridge_ok (all_grey : list cand3) (nm : next_map_t) :
  cands_of points is_grey all_grey -> nm_ok points nm ->
  exists nm', fallback_bridge points all_grey nm = Done nm' /\ nm_ok points nm'.
Proof.
  intros Hg. unfold fallback_bridge. apply for_each_inv.
  intros item s I Hs. now apply fallback_point_ok.
Qed.

End Bridging.

(** ** The connectivity phase *)

Lemma connect_ok (ws : worksheet) (a : anchors) (points : points_t) :
  dwf points -> blue_are_cells points ->
  exists nm, connect ws a points = Done nm /\ nm_ok points nm.
Proof.
  intros W B. unfold connect.
  match goal with
  | |- context [blue_horizontal ws (blue_sig a) points _ ?nm0] =>
      destruct (blue_horizontal_ok points W ws (blue_sig a) nm0) as (nm1 & -> & H1)
  end.
  { apply og_lane_changes_ok; auto.
    repeat apply connect_segments_ok; auto.
    apply purple_lane_changes_ok; auto.
    repeat apply connect_purple_rows_ok; auto. apply nm_ok_nil. }
  cbn [bind]. rewrite (build_blue_points_by_x_done points _ B). cbn [bind].
  destruct (boundary_candidates_of points) as [Ha Hb].
  destruct (grey_candidates_of points) as [Hv Hh].
  destruct (build_boundary_candidates points) as [aiv ajb].
  destruct (build_grey points) as [grey_v grey_h]. cbn [fst snd] in *.
  apply fallback_bridge_ok; auto.
  - now apply cands_of_app.
  - apply link_blue_rows_ok; auto. apply link_grey_h_ok; auto.
    apply link_grey_v_ok; auto.
    apply col_lane_changes_ok; auto.
    apply blue_purple_adjacency_ok; auto.
    apply blue_vertical_bridge_ok; auto; [discriminate|].
    apply blue_vertical_bridge_ok; auto; [discriminate|].
    apply purple_vertical_chains_ok; auto.
    apply blue_vertical_chains_ok; auto.
    apply link_aip_ais_ok; auto.
Qed.

(** ** The generation phase *)

Lemma sample_turns_bound (s e lo hi step : Q) :
  (lo <= hi)%Q -> (Qabs (e - s) == hi - lo)%Q -> (0 < step)%Q ->
  (hi + EPS - lo < (inject_Z (Z.of_nat (sample_turns s e step)) + 1) * step)%Q.
Proof.
  intros Hle Habs Hstep. unfold sample_turns.
  assert (Hb : Qlt_bool 0 step = true) by now apply Qlt_bool_true.
  rewrite Hb. set (q := ((Qabs (e - s) + EPS) / step)%Q).
  assert (Hq : (q * step == hi - lo + EPS)%Q).
  { unfold q. rewrite Habs. field. lra. }
  pose proof (Qlt_floor q) as Hfl.
  assert (Hq0 : (0 <= q)%Q).
  { unfold q. apply Qle_shift_div_l; auto. rewrite Habs. unfold EPS. lra. }
  assert (Hf0 : 0 <= Qfloor q).
  { assert (H0 : (0 < inject_Z (Qfloor q + 1))%Q) by lra.
    change 0%Q with (inject_Z 0) in H0. rewrite <- Zlt_Qlt in H0. lia. }
  rewrite Z2Nat.id by exact Hf0.
  rewrite inject_Z_plus in Hfl. change (inject_Z 1) with 1%Q in Hfl.
  assert (Hm : (q * step < (inject_Z (Qfloor q) + 1) * step)%Q).
  { apply Qmult_lt_compat_r; auto. }
  lra.
Qed.

Lemma sample_close_gaps (lo hi step : Q) (xs : list Q) :
  xs <> [] -> gaps_ok step xs ->
  (hi + EPS < last xs lo + step)%Q -> (last xs lo <= hi + EPS)%Q ->
  gaps_ok step (sample_close lo hi xs).
Proof.
  intros Hne Hg H4 Hle. unfold sample_close.
  destruct (Qlt_bool EPS (Qabs (last xs lo - hi))) eqn:C; auto.
  apply Qlt_bool_true in C.
  assert (Hlt : (last xs lo < hi - EPS)%Q).
  { destruct (Qlt_le_dec (last xs lo - hi) 0) as [Hn|Hp].
    - rewrite Qabs_neg in C by lra. lra.
    - rewrite Qabs_pos in C by lra. lra. }
  apply gaps_ok_snoc with (d := lo) (x := last xs lo); auto; unfold EPS in *; lra.
Qed.

(** The rational sampler returns for every positive step, whatever the
    order of the bounds, and its result increases strictly. *)
Lemma sample_positions_total (s e step : Q) :
  (0 < step)%Q ->
  exists xs, sample_positions_including_end s e step = Some xs /\ gaps_ok step xs.
Proof.
  intros Hstep. unfold sample_positions_including_end, sample_positions_fuel.
  destruct (Qlt_bool e s) eqn:Sw.
  - apply Qlt_bool_true in Sw.
    destruct (sample_loop_spec s step (sample_turns s e step) Hstep e [e] e)
      as (xs' & R & H1 & H2 & H3 & H4 & H5);
      [|discriminate|reflexivity|reflexivity|exact I|].
    + apply sample_turns_bound; auto; [lra|]. rewrite Qabs_neg by lra. ring.
    + rewrite R. eexists. split; [reflexivity|].
      apply sample_close_gaps; auto. apply H5. unfold EPS. lra.
  - apply Qlt_bool_false in Sw.
    destruct (sample_loop_spec e step (sample_turns s e step) Hstep s [s] s)
      as (xs' & R & H1 & H2 & H3 & H4 & H5);
      [|discriminate|reflexivity|reflexivity|exact I|].
    + apply sample_turns_bound; auto. rewrite Qabs_pos by lra. ring.
    + rewrite R. eexists. split; [reflexivity|].
      apply sample_close_gaps; auto. apply H5. unfold EPS. lra.
Qed.

Lemma sample_int_positions_total (s e step : Z) :
  0 < step -> exists ys, sample_int_positions_including_end s e step = Some ys.
Proof.
  intros Hstep. unfold sample_int_positions_including_end, sample_int_positions_fuel.
  assert (Hturns : forall lo hi, lo <= hi -> Z.abs (e - s) = hi - lo ->
            hi - lo < (Z.of_nat (sample_int_turns s e step) + 1) * step).
  { intros lo hi Hle Habs. unfold sample_int_turns.
    assert (Hb : (0 <? step) = true) by now apply Z.ltb_lt. rewrite Hb, Habs.
    rewrite Z2Nat.id by (apply Z.div_pos; lia).
    pose proof (Z.mul_succ_div_gt (hi - lo) step Hstep). lia. }
  destruct (e <? s) eqn:Sw.
  - apply Z.ltb_lt in Sw.
    destruct (sample_int_loop_spec s step (sample_int_turns s e step) Hstep e [e] e)
      as (ys' & R & _); [|discriminate|reflexivity|reflexivity|exact I|].
    + apply Hturns; lia.
    + rewrite R. eauto.
  - apply Z.ltb_ge in Sw.
    destruct (sample_int_loop_spec e step (sample_int_turns s e step) Hstep s [s] s)
      as (ys' & R & _); [|discriminate|reflexivity|reflexivity|exact I|].
    + apply Hturns; lia.
    + rewrite R. eauto.
Qed.

Lemma blue_at_keq (cr : dict coord_t region) (k k' : coord_t) :
  keq k k' = true -> blue_at cr k = blue_at cr k'.
Proof. intros E. unfold blue_at. now rewrite (dget_keq cr k k' E). Qed.

Lemma blue_at_dset (cr : dict coord_t region) (k k' : coord_t) (reg : region) :
  blue_at (dset cr k reg) k' = if keq k' k then region_eqb reg blue else blue_at cr k'.
Proof.
  unfold blue_at. rewrite dget_dset. destruct (keq k' k); auto.
Qed.

Section Generation.
Variable ws : worksheet.
Variable a : anchors.

Lemma put_blue_inv (st : gen_state) (r c : Z) :
  blue_inv ws a st ->
  blue_inv ws a (put_point st (blue_id r c) (inject_Z (c - 1)) (inject_Z r) blue
                   (MetaCell r c)).
Proof.
  intros (W & O & B). unfold put_point. split; [|split]; cbn [fst snd].
  - now apply dwf_dset.
  - intros pid p I. apply In_dset in I as [[-> E]|I]; auto.
    apply str_keq in E. subst pid. constructor.
  - intros pid p I. apply In_dset in I as [[-> E]|I].
    + split; [reflexivity|].
      cbn [p_x p_y new_point]. rewrite blue_at_dset, keq_refl. reflexivity.
    + split; [now apply (B pid p)|]. rewrite blue_at_dset.
      match goal with |- context [if ?b then _ else _] => destruct b end; auto.
      now apply (B pid p).
Qed.

Lemma gen_blue_inv (sig : string) (c_lo c_hi : Z) (st : gen_state) :
  blue_inv ws a st -> blue_inv ws a (gen_blue ws sig c_lo c_hi st).
Proof.
  unfold gen_blue. apply fold_left_inv. intros r s _. apply fold_left_inv.
  intros c s' _ Hs. unfold gen_blue_cell. destruct (has_color _ _ _ _); auto.
  now apply put_blue_inv.
Qed.

Lemma blue_inv_gen_inv (st : gen_state) : blue_inv ws a st -> gen_inv ws a st.
Proof.
  intros (W & O & B). repeat split; auto.
  - intros pid p I _. now apply (B pid p).
  - intros pid p I N. destruct (B pid p I). contradiction.
Qed.

Lemma place_inv (st : gen_state) (pid : string) (x y : Q) (reg : region) (m : meta) :
  gen_inv ws a st -> reg <> blue -> origin ws a pid (new_point pid x y reg m) ->
  gen_inv ws a (place st pid x y reg m).
Proof.
  intros (W & O & I1 & I2) Hr Ho. unfold place.
  destruct (blue_at (snd st) (x, y)) eqn:Bk; [repeat split; auto|].
  unfold put_point. repeat split; cbn [fst snd].
  - now apply dwf_dset.
  - intros pid' p I. apply In_dset in I as [[-> E]|I]; auto.
    apply str_keq in E. now subst pid'.
  - intros pid' p I Bp. apply In_dset in I as [[-> E]|I].
    + cbn in Bp. contradiction.
    + rewrite blue_at_dset.
      match goal with |- context [if ?b then _ else _] => destruct b eqn:K end; [|eauto].
      pose proof (I1 pid' p I Bp) as T. rewrite (blue_at_keq _ _ _ K) in T.
      rewrite T in Bk. discriminate.
  - intros pid' p I Np. rewrite blue_at_dset.
    match goal with |- context [if ?b then _ else _] => destruct b eqn:K end.
    + now apply region_eqb_neq.
    + apply In_dset in I as [[-> E]|I]; [exact Bk|eauto].
Qed.

Lemma run_sampler_done {A} (r : option (list A)) (xs : list A) :
  r = Some xs -> run_sampler r = Done xs.
Proof. now intros ->. Qed.

Lemma gen_purple_row_inv (sig : string) (r : Z) (st : gen_state) :
  gen_inv ws a st ->
  exists st', gen_purple_row ws sig r st = Done st' /\ gen_inv ws a st'.
Proof.
  intros H. unfold gen_purple_row. destruct (negb _); eauto.
  destruct (sample_positions_total (inject_Z (col_E - 1)) (inject_Z (col_AIL - 1)) 5)
    as (xs & E & _); [reflexivity|].
  rewrite (run_sampler_done _ _ E). cbn [bind]. eexists. split; [reflexivity|].
  revert H. apply fold_left_inv. intros [i x] s _ Hs.
  apply place_inv; auto; [discriminate|constructor].
Qed.

Lemma gen_grey_band_inv (band : Z * Z * Z) (st : gen_state) :
  gen_inv ws a st ->
  exists st', gen_grey_band ws band st = Done st' /\ gen_inv ws a st'.
Proof.
  intros H. destruct band as [[row_min row_max] y]. unfold gen_grey_band.
  destruct (band_max_x ws row_min row_max) as [max_x|]; eauto.
  destruct (sample_positions_total 4 (inject_Z max_x) 2) as (xs & E & _); [reflexivity|].
  rewrite (run_sampler_done _ _ E). cbn [bind]. eexists. split; [reflexivity|].
  revert H. apply fold_left_inv. intros [i x] s _ Hs.
  apply place_inv; auto; [discriminate|constructor].
Qed.

Lemma gen_segments_inv (sig tag : string) (reg : region) (st : gen_state) :
  seg_family a tag sig reg -> gen_inv ws a st ->
  exists st', gen_segments ws sig tag reg st = Done st' /\ gen_inv ws a st'.
Proof.
  intros F. unfold gen_segments. apply for_each_inv. intros r s _.
  apply for_each_inv. intros [s_idx [c1 c2]] s' Is Hs'. unfold gen_segment.
  destruct (sample_positions_total (inject_Z (c1 - 1)) (inject_Z (c2 - 1)) 5)
    as (xs & E & _); [reflexivity|].
  rewrite (run_sampler_done _ _ E). cbn [bind]. eexists. split; [reflexivity|].
  revert Hs'. apply fold_left_inv. intros [i x] s'' Ii Hs''.
  apply place_inv; auto.
  - destruct F as [(_ & _ & ->)|(_ & _ & ->)]; discriminate.
  - econstructor; eauto.
Qed.

Lemma add_vertical_points_inv (col_from col_to tag : string) (reg : region)
  (step_v : Z) (st : gen_state) :
  reg <> blue -> 0 < step_v -> gen_inv ws a st ->
  exists st', add_vertical_points col_from col_to tag reg step_v st = Done st'
              /\ gen_inv ws a st'.
Proof.
  intros Hr Hstep. unfold add_vertical_points. apply for_each_inv. intros col s _.
  apply for_each_inv. intros [r1 r2] s' _ Hs'.
  destruct (sample_int_positions_total r1 r2 step_v Hstep) as (ys & E).
  rewrite (run_sampler_done _ _ E). cbn [bind]. eexists. split; [reflexivity|].
  revert Hs'. apply fold_left_inv. intros [i y] s'' _ Hs''.
  apply place_inv; auto. now constructor.
Qed.

Lemma generate_ok : exists st, generate ws a = Done st /\ gen_inv ws a st.
Proof.
  unfold generate.
  assert (H0 : gen_inv ws a
                 (gen_blue ws (blue_sig a) col_AIS col_AIV
                    (gen_blue ws (blue_sig a) 1 col_max_use ([], [])))).
  { apply blue_inv_gen_inv. repeat apply gen_blue_inv.
    split; [exact I|]. split; intros ? ? []. }
  destruct (for_each_inv (gen_inv ws a) purple_rows (gen_purple_row ws (purple_sig a)))
    with (s := gen_blue ws (blue_sig a) col_AIS col_AIV
                 (gen_blue ws (blue_sig a) 1 col_max_use ([], [])))
    as (s1 & -> & H1); auto.
  { intros r s _. apply gen_purple_row_inv. }
  cbn [bind].
  destruct (for_each_inv (gen_inv ws a) grey_bands (gen_grey_band ws)) with (s := s1)
    as (s2 & -> & H2); auto.
  { intros b s _. apply gen_grey_band_inv. }
  cbn [bind].
  destruct (gen_segments_inv (orange_sig a) "OR" orange s2) as (s3 & -> & H3); auto.
  { left. auto. }
  cbn [bind].
  destruct (gen_segments_inv (green_sig a) "GN" green s3) as (s4 & -> & H4); auto.
  { right. auto. }
  cbn [bind].
  destruct (add_vertical_points_inv "AIS" "AIT" "PUVUP" purple 5 s4)
    as (s5 & -> & H5); auto; [discriminate|reflexivity|]. cbn [bind].
  destruct (add_vertical_points_inv "AIU" "AIV" "PUVDN" purple 5 s5)
    as (s6 & -> & H6); auto; [discriminate|reflexivity|]. cbn [bind].
  destruct (add_vertical_points_inv "AJB" "AJE" "PUVDN" purple 5 s6)
    as (s7 & -> & H7); auto; [discriminate|reflexivity|]. cbn [bind].
  apply add_vertical_points_inv; auto; [discriminate|reflexivity].
Qed.

End Generation.

Lemma origin_id (ws : worksheet) (a : anchors) (pid : string) (p : point) :
  origin ws a pid p -> p_id p = pid.
Proof. now destruct 1. Qed.

Lemma origin_fresh (ws : worksheet) (a : anchors) (pid : string) (p : point) :
  origin ws a pid p -> p_inout p = None /\ p_next p = None.
Proof. now destruct 1. Qed.

Lemma origin_blue_cell (ws : worksheet) (a : anchors) (pid : string) (p : point) :
  origin ws a pid p -> p_region p = blue ->
  exists r c, pid = blue_id r c /\ p_meta p = MetaCell r c
              /\ p_x p = inject_Z (c - 1) /\ p_y p = inject_Z r.
Proof.
  intros O.
  destruct O as [r c|r i x|y i x|tag sig reg r s c1 c2 i x xs F Is Es Ii
                |tag reg x r1 r2 i y col Hr]; cbn; intros B; try discriminate.
  - exists r, c. auto.
  - destruct F as [(_ & _ & ->)|(_ & _ & ->)]; discriminate.
  - contradiction.
Qed.

Lemma gen_inv_blue_cells (ws : worksheet) (a : anchors) (st : gen_state) :
  gen_inv ws a st -> blue_are_cells (fst st).
Proof.
  intros (_ & O & _) pid p I B.
  destruct (origin_blue_cell ws a pid p (O pid p I) B) as (r & c & _ & M & _). eauto.
Qed.

(** ** The order of ids *)

Lemma ascii_compare_lt_trans (x y z : ascii) :
  (x ?= y)%char = Lt -> (y ?= z)%char = Lt -> (x ?= z)%char = Lt.
Proof.
  unfold Ascii.compare. rewrite !N.compare_lt_iff. apply N.lt_trans.
Qed.

Lemma str_le_trans (a b c : string) : str_le a b -> str_le b c -> str_le a c.
Proof.
  unfold str_le, String.leb. revert b c.
  induction a as [|x a IH]; intros [|y b] [|z c]; cbn; try easy.
  destruct (x ?= y)%char eqn:Exy; try easy.
  - apply Ascii.compare_eq_iff in Exy. subst y.
    destruct (x ?= z)%char eqn:Exz; try easy. apply IH.
  - destruct (y ?= z)%char eqn:Eyz; try easy.
    + apply Ascii.compare_eq_iff in Eyz. subst z. now rewrite Exy.
    + now rewrite (ascii_compare_lt_trans _ _ _ Exy Eyz).
Qed.

Lemma str_le_total (a b : string) : String.leb a b = false -> str_le b a.
Proof.
  intros E. destruct (String.leb_total a b) as [H|H]; [congruence|exact H].
Qed.

Lemma insert_str_sorted (a : string) (l : list string) :
  StronglySorted str_le l -> StronglySorted str_le (insert_str a l).
Proof.
  induction l as [|b l IH]; cbn; intros S.
  - repeat constructor.
  - inversion S as [|? ? S' F]; subst.
    destruct (String.leb a b) eqn:E.
    + constructor; auto. constructor; auto.
      eapply Forall_impl; [|exact F]. intros c Hc. eapply str_le_trans; eauto.
    + constructor; auto. apply Forall_forall. intros c Hc.
      apply (Permutation_in _ (insert_str_perm a l)) in Hc. destruct Hc as [->|Hc].
      * now apply str_le_total.
      * rewrite Forall_forall in F. auto.
Qed.

Lemma sorted_str_sorted (l : list string) : StronglySorted str_le (sorted_str l).
Proof.
  induction l as [|a l IH]; cbn; [constructor|]. now apply insert_str_sorted.
Qed.

(** ** The run of [main] *)

Lemma detect_anchors_found (ws : worksheet) :
  anchors_found ws = true -> exists a, detect_anchors ws = Done a.
Proof.
  unfold anchors_found, detect_anchors.
  destruct (cell_color ws 13 col_E), (cell_color ws 28 1),
    (cell_color ws 28 col_E), (cell_color ws 120 col_E); try discriminate; eauto.
Qed.

Lemma detect_anchors_missing (ws : worksheet) :
  anchors_found ws = false -> detect_anchors ws = Raised anchor_error.
Proof.
  unfold anchors_found, detect_anchors.
  destruct (cell_color ws 13 col_E), (cell_color ws 28 1),
    (cell_color ws 28 col_E), (cell_color ws 120 col_E); try discriminate; auto.
Qed.

(** With the anchors found, [main] runs to its end: the points are those
    of the generation phase, flagged and with their sorted neighbours. *)
Lemma main_done (ws : worksheet) :
  anchors_found ws = true ->
  exists a st nm,
    generate ws a = Done st /\ gen_inv ws a st
    /\ connect ws a (fst st) = Done nm /\ nm_ok (fst st) nm
    /\ main ws = Done (map snd (attach_next nm (flag_inout (fst st)))).
Proof.
  intros F. destruct (detect_anchors_found ws F) as (a & Ea).
  destruct (generate_ok ws a) as (st & Eg & Hg).
  destruct (connect_ok ws a (fst st)) as (nm & Ec & Hn).
  { apply Hg. }
  { eapply gen_inv_blue_cells; eauto. }
  exists a, st, nm.
  split; [exact Eg|]. split; [exact Hg|]. split; [exact Ec|]. split; [exact Hn|].
  unfold main. rewrite Ea. cbn [bind]. rewrite Eg. cbn [bind]. rewrite Ec. reflexivity.
Qed.

Lemma exported_point (nm : next_map_t) (points : points_t) (n : point) :
  In n (map snd (attach_next nm (flag_inout points))) ->
  exists pid p, In (pid, p) points
    /\ n = set_next (set_inout p (inout_flag p)) (sorted_str (dget_or nm pid [])).
Proof.
  intros I. apply in_map_iff in I as ([pid' n'] & E & I). cbn in E. subst n'.
  unfold attach_next in I. apply in_map_iff in I as ([pid1 p1] & E & I).
  inversion E; subst; clear E.
  unfold flag_inout in I. apply in_map_iff in I as ([pid2 p2] & E & I).
  inversion E; subst; clear E. eauto.
Qed.

Lemma exported_point_of (nm : next_map_t) (points : points_t) (pid : string) (p : point) :
  In (pid, p) points ->
  In (set_next (set_inout p (inout_flag p)) (sorted_str (dget_or nm pid [])))
     (map snd (attach_next nm (flag_inout points))).
Proof.
  intros I. apply in_map_iff. eexists (pid, _). split; [reflexivity|].
  unfold attach_next. apply in_map_iff. eexists (pid, _). split; [reflexivity|].
  unfold flag_inout. apply in_map_iff. exists (pid, p). auto.
Qed.

(** C7.  Error semantics: [main] raises exactly when an anchor colour
    is missing, and then with the anchor error; with the four anchors
    found it runs to its end.  The local gaps add no edge: a search over
    no candidate returns no id, nothing is linked to no id, and a row or
    segment with fewer than two nodes gets no chain edge. *)
Theorem error_semantics :
  (forall ws, anchors_found ws = false -> main ws = Raised anchor_error)
  /\ (forall ws, anchors_found ws = true -> exists g, main ws = Done g)
  /\ (forall y x bx b_y cap,
        nearest_by_y_ids [] y cap = [] /\ nearest_by_x_ids [] x cap = []
        /\ nearest_grey_by_x_in_band bx [] cap = []
        /\ fallback_targets bx b_y [] = [])
  /\ (forall a nm, link_both a [] nm = nm)
  /\ (forall d nm a, chain d nm [] = nm /\ chain d nm [a] = nm)
  /\ (forall idx r d nm,
        (List.length (ordered_in_row idx r) < 2)%nat ->
        connect_purple_rows idx [r] d nm = nm)
  /\ (forall key ids dir nm,
        (List.length ids < 2)%nat -> connect_segments [(key, ids)] dir nm = nm)
  /\ (forall row_x r_from r_to allow nm,
        dget row_x r_to = None -> lane_change_og row_x r_from r_to allow nm = nm)
  /\ (forall points edge_of nm, link_outside points None edge_of nm = Done nm).
Proof.
  split; [|split; [|split; [|split; [|split; [|split; [|split; [|split]]]]]]].
  - intros ws F. unfold main. now rewrite (detect_anchors_missing ws F).
  - intros ws F. destruct (main_done ws F) as (a & st & nm & _ & _ & _ & _ & E). eauto.
  - intros. repeat split; reflexivity.
  - reflexivity.
  - intros [] nm a; split; reflexivity.
  - intros idx r d nm L. unfold connect_purple_rows. cbn [fold_left]. cbv zeta.
    apply Nat.ltb_lt in L. now rewrite L.
  - intros [r s] ids dir nm L. unfold connect_segments. cbn [fold_left].
    apply Nat.ltb_lt in L. now rewrite L.
  - intros row_x r_from r_to allow nm G. unfold lane_change_og.
    destruct (negb allow); auto. unfold dget_or at 2. rewrite G. cbn.
    now rewrite orb_true_r.
  - reflexivity.
Qed.

Lemma small_sheet_anchors : anchors_found small_sheet = true.
Proof. reflexivity. Qed.

Lemma error_semantics_witness :
  (exists g, main small_sheet = Done g)
  /\ connect_segments [((1, 1), ["OR_R001_S01_0000"%string])] og_dir [] = [].
Proof.
  split.
  - apply (proj1 (proj2 error_semantics) small_sheet). reflexivity.
  - apply (proj1 (proj2 (proj2 (proj2 (proj2 (proj2 (proj2 error_semantics))))))).
    cbn. lia.
Defined.

(** C8.  No self-loops: with the anchors found, [main] returns a graph in
    which no node has its own id in its ["next"] list. *)
Theorem no_self_loops (ws : worksheet) :
  anchors_found ws = true ->
  exists g, main ws = Done g
    /\ forall n, In n g -> exists next, p_next n = Some next /\ ~ In (p_id n) next.
Proof.
  intros F. destruct (main_done ws F) as (a & st & nm & _ & Hg & _ & Hn & E).
  eexists. split; [exact E|]. intros n I.
  apply exported_point in I as (pid & p & Ip & ->). cbn [p_next set_next].
  eexists. split; [reflexivity|]. cbn [p_id set_next set_inout].
  destruct Hg as (_ & O & _). rewrite (origin_id _ _ _ _ (O pid p Ip)).
  intros I. apply (proj1 (sorted_str_In _ _)) in I.
  destruct (proj1 (nm_ok_edge _ _) Hn pid pid I) as [N _]. now apply N.
Qed.

Lemma no_self_loops_witness :
  exists g, main small_sheet = Done g
    /\ forall n, In n g -> exists next, p_next n = Some next /\ ~ In (p_id n) next.
Proof. apply (no_self_loops small_sheet). reflexivity. Defined.

(** C9.  Output integrity: with the anchors found, every ["next"] list
    of the exported graph is sorted by id, and every id in it is the id
    of a node of the exported graph. *)
Theorem output_integrity (ws : worksheet) :
  anchors_found ws = true ->
  exists g, main ws = Done g
    /\ forall n, In n g ->
         exists next, p_next n = Some next
           /\ StronglySorted str_le next
           /\ forall m, In m next -> exists n', In n' g /\ p_id n' = m.
Proof.
  intros F. destruct (main_done ws F) as (a & st & nm & _ & Hg & _ & Hn & E).
  eexists. split; [exact E|]. intros n I.
  apply exported_point in I as (pid & p & Ip & ->). cbn [p_next set_next].
  eexists. split; [reflexivity|]. split; [apply sorted_str_sorted|].
  intros m Im. apply (proj1 (sorted_str_In _ _)) in Im.
  destruct (proj1 (nm_ok_edge _ _) Hn pid m Im) as (_ & _ & Hm).
  destruct (dget (fst st) m) as [q|] eqn:G; [|congruence].
  apply sdget_In in G. eexists. split; [eapply exported_point_of; exact G|].
  cbn [p_id set_next set_inout]. destruct Hg as (_ & O & _).
  apply (origin_id _ _ _ _ (O m q G)).
Qed.

Lemma output_integrity_witness :
  exists g, main small_sheet = Done g
    /\ forall n, In n g ->
         exists next, p_next n = Some next
           /\ StronglySorted str_le next
           /\ forall m, In m next -> exists n', In n' g /\ p_id n' = m.
Proof. apply (output_integrity small_sheet). reflexivity. Defined.

(** C10.  The in/out step flags every grey point and writes nothing but
    the ["inout"] field: the ids stay as they are, a flagged point differs
    from the point it comes from in that field only, and in the graph
    [main] returns every grey node has [inout = true]. *)
Theorem grey_inout :
  (forall points,
     map fst (flag_inout points) = map fst points
     /\ forall pid p', In (pid, p') (flag_inout points) ->
          exists p, In (pid, p) points
            /\ p' = mkPoint (p_id p) (p_x p) (p_y p) (p_region p) (p_meta p)
                      (p_inout p') (p_next p)
            /\ (p_region p = grey -> p_inout p' = Some true))
  /\ (forall ws, anchors_found ws = true ->
        exists g, main ws = Done g
          /\ forall n, In n g -> p_region n = grey -> p_inout n = Some true).
Proof.
  split.
  - intros points. split.
    + unfold flag_inout. rewrite map_map. apply map_ext. now intros [pid p].
    + intros pid p' I. unfold flag_inout in I.
      apply in_map_iff in I as ([pid0 p] & E & I). inversion E; subst; clear E.
      exists p. split; auto. split; [reflexivity|].
      intros G. cbn. unfold inout_flag. now rewrite G.
  - intros ws F. destruct (main_done ws F) as (a & st & nm & _ & _ & _ & _ & E).
    eexists. split; [exact E|]. intros n I G.
    apply exported_point in I as (pid & p & Ip & ->). cbn in *.
    unfold inout_flag. now rewrite G.
Qed.

Lemma grey_inout_witness :
  exists g, main small_sheet = Done g
    /\ forall n, In n g -> p_region n = grey -> p_inout n = Some true.
Proof. apply (proj2 grey_inout small_sheet). reflexivity. Defined.

(** ** Coordinates *)

Lemma coord_keq (x1 y1 x2 y2 : Q) :
  (x1 == x2)%Q -> (y1 == y2)%Q -> keq (x1, y1) (x2, y2) = true.
Proof.
  intros Ex Ey. cbn. apply andb_true_iff. split; now apply Qeq_bool_iff.
Qed.




(** ** The tie cap *)

Lemma firstn_le {A} (n : nat) (l : list A) : (List.length (firstn n l) <= n)%nat.
Proof. rewrite length_firstn. apply Nat.le_min_l. Qed.

Lemma firstn_NoDup {A} (n : nat) (l : list A) : NoDup l -> NoDup (firstn n l).
Proof.
  revert n. induction l as [|a l IH]; intros [|n] N; cbn; try constructor.
  - inversion N; subst. intros I. apply firstn_In in I. contradiction.
  - inversion N; subst. auto.
Qed.

(** C4.  The tie cap: the three nearest-neighbour searches return at
    most [cap] ids, all distinct, and every call passes [cap = 2]; the
    fallback picks at most two distinct grey ids, and the fallback step
    of one blue point links the point to these ids and adds nothing
    else. *)
Theorem tie_cap :
  (forall cands y cap,
     (List.length (nearest_by_y_ids cands y cap) <= cap)%nat
     /\ NoDup (nearest_by_y_ids cands y cap))
  /\ (forall cands x cap,
        (List.length (nearest_by_x_ids cands x cap) <= cap)%nat
        /\ NoDup (nearest_by_x_ids cands x cap))
  /\ (forall bx band cap,
        (List.length (nearest_grey_by_x_in_band bx band cap) <= cap)%nat
        /\ NoDup (nearest_grey_by_x_in_band bx band cap))
  /\ (forall bx b_y all_grey,
        (List.length (fallback_targets bx b_y all_grey) <= 2)%nat
        /\ NoDup (fallback_targets bx b_y all_grey))
  /\ (forall points all_grey pid p nm nm',
        fallback_point points all_grey (pid, p) nm = Done nm' ->
        nm' = nm
        \/ nm' = link_both pid (fallback_targets (p_x p) (p_y p) all_grey) nm).
Proof.
  split; [|split; [|split; [|split]]].
  - intros cands y cap. unfold nearest_by_y_ids.
    destruct (is_empty cands); [split; [cbn; lia|constructor]|].
    cbv zeta. destruct (is_empty _); [split; [cbn; lia|constructor]|].
    split; [apply firstn_le|apply firstn_NoDup, uniq_NoDup].
  - intros cands x cap. unfold nearest_by_x_ids.
    destruct (is_empty cands); [split; [cbn; lia|constructor]|].
    split; [apply firstn_le|apply firstn_NoDup, uniq_NoDup].
  - intros bx band cap. unfold nearest_grey_by_x_in_band.
    destruct (is_empty band); [split; [cbn; lia|constructor]|].
    split; [apply firstn_le|apply firstn_NoDup, uniq_NoDup].
  - intros bx b_y all_grey. unfold fallback_targets. cbv zeta.
    destruct (is_empty _); [split; [cbn; lia|constructor]|].
    split; [apply firstn_le|apply firstn_NoDup, uniq_NoDup].
  - intros points all_grey pid p nm nm' E. unfold fallback_point in E.
    destruct (negb (region_eqb (p_region p) blue)); [left; congruence|].
    destruct (negb (py_round (p_x p) =? x_AIV)); [left; congruence|].
    destruct (has_any_grey_neighbor points nm pid) as [b| |]; cbn in E; try discriminate.
    destruct b; [left; congruence|].
    destruct (in_middle _); [left; congruence|]. right. congruence.
Qed.

Lemma tie_cap_witness :
  link_both "B" ["G"%string] [] = []
  \/ link_both "B" ["G"%string] []
     = link_both "B" (fallback_targets 931 30 [("G"%string, 934%Q, 30%Q)]) [].
Proof.
  apply (proj2 (proj2 (proj2 (proj2 tie_cap))) []
           [("G"%string, 934%Q, 30%Q)] "B"%string
           (new_point "B" 931 30 blue (MetaCell 30 932)) []).
  reflexivity.
Defined.

(** ** Chains: which edges, and in which direction *)

Lemma follows_cons {A} (l : list A) (c a b : A) : follows l a b -> follows (c :: l) a b.
Proof. intros (l1 & l2 & ->). exists (c :: l1), l2. reflexivity. Qed.

Lemma chain_right_edge (ids : list string) (nm : next_map_t) (x y : string) :
  edge (chain_right nm ids) x y -> edge nm x y \/ follows ids x y.
Proof.
  revert nm. induction ids as [|a ids IH]; intros nm E; [now left|].
  destruct ids as [|b tl]; [now left|].
  change (edge (chain_right (add_edge nm a (Some b)) (b :: tl)) x y) in E.
  apply IH in E. destruct E as [E|F].
  - apply edge_add_edge in E. destruct E as [[-> ->]|E]; [|now left].
    right. exists [], tl. reflexivity.
  - right. now apply follows_cons.
Qed.

Lemma chain_left_edge (ids : list string) (nm : next_map_t) (x y : string) :
  edge (chain_left nm ids) x y -> edge nm x y \/ follows ids y x.
Proof.
  revert nm. induction ids as [|a ids IH]; intros nm E; [now left|].
  destruct ids as [|b tl]; [now left|].
  change (edge (chain_left (add_edge nm b (Some a)) (b :: tl)) x y) in E.
  apply IH in E. destruct E as [E|F].
  - apply edge_add_edge in E. destruct E as [[-> ->]|E]; [|now left].
    right. exists [], tl. reflexivity.
  - right. now apply follows_cons.
Qed.

Lemma chain_edge (d : direction) (ids : list string) (nm : next_map_t) (x y : string) :
  edge (chain d nm ids) x y ->
  edge nm x y \/ match d with Right => follows ids x y | Left => follows ids y x end.
Proof. destruct d; [apply chain_right_edge|apply chain_left_edge]. Qed.

Lemma follows_map {A B} (f : A -> B) (l : list A) (x y : B) :
  follows (map f l) x y -> exists a b, follows l a b /\ f a = x /\ f b = y.
Proof.
  intros (l1 & l2 & E).
  apply map_eq_app in E as (l1' & r & -> & _ & E).
  apply map_eq_cons in E as (a & r' & -> & <- & E).
  apply map_eq_cons in E as (b & r'' & -> & <- & _).
  exists a, b. split; [|auto]. now exists l1', r''.
Qed.

Lemma follows_In {A} (l : list A) (a b : A) : follows l a b -> In a l /\ In b l.
Proof.
  intros (l1 & l2 & ->). split; apply in_or_app; right; cbn; auto.
Qed.

Lemma follows_NoDup {A B} (f : A -> B) (l : list A) (a b : A) :
  NoDup (map f l) -> follows l a b -> f a <> f b.
Proof.
  intros N (l1 & l2 & ->). rewrite map_app in N. apply NoDup_app_remove_l in N.
  cbn in N. inversion N as [|? ? Ni _]; subst. intros E. apply Ni. left. now symmetry.
Qed.

Lemma sorted_follows {A} (key : A -> Q) (l : list A) (a b : A) :
  StronglySorted (fun u w => (key u <= key w)%Q) l -> follows l a b ->
  (key a <= key b)%Q
  /\ forall c, In c l -> (key c <= key a)%Q \/ (key b <= key c)%Q.
Proof.
  intros S (l1 & l2 & ->). induction l1 as [|a0 l1 IH]; cbn in S.
  - inversion S as [|? ? S' F]; subst. inversion S' as [|? ? _ F']; subst.
    rewrite Forall_forall in F, F'. split; [apply F; now left|].
    intros c [<-|[<-|I]].
    + left. apply Qle_refl.
    + right. apply Qle_refl.
    + right. now apply F'.
  - inversion S as [|? ? S' F]; subst. destruct (IH S') as [L R]. split; [exact L|].
    intros c [<-|I]; [|now apply R].
    left. rewrite Forall_forall in F. apply F. apply in_or_app. right. now left.
Qed.

Lemma connect_purple_rows_edge (idx : dict Z (dict Q string)) (rows : list Z)
  (d : direction) (nm : next_map_t) (x y : string) :
  edge (connect_purple_rows idx rows d nm) x y ->
  edge nm x y
  \/ exists r, In r rows
       /\ match d with
          | Right => follows (map snd (ordered_in_row idx r)) x y
          | Left => follows (map snd (ordered_in_row idx r)) y x
          end.
Proof.
  unfold connect_purple_rows. revert nm.
  induction rows as [|r rows IH]; cbn [fold_left]; intros nm E; [now left|].
  apply IH in E. destruct E as [E|(r' & I & F)].
  - cbv zeta in E. destruct (_ <? _)%nat; [now left|].
    apply chain_edge in E. destruct E as [E|F]; [now left|].
    right. exists r. split; [now left|exact F].
  - right. exists r'. split; [now right|exact F].
Qed.

Lemma connect_segments_edge (rowseg : dict (Z * Z) (list string))
  (dir : Z -> direction) (nm : next_map_t) (x y : string) :
  edge (connect_segments rowseg dir nm) x y ->
  edge nm x y
  \/ exists r s ids, In ((r, s), ids) rowseg
       /\ match dir r with
          | Right => follows ids x y
          | Left => follows ids y x
          end.
Proof.
  unfold connect_segments. revert nm.
  induction rowseg as [|[[r s] ids] rowseg IH]; cbn [fold_left]; intros nm E; [now left|].
  apply IH in E. destruct E as [E|(r' & s' & ids' & I & F)].
  - destruct (_ <? _)%nat; [now left|].
    apply chain_edge in E. destruct E as [E|F]; [now left|].
    right. exists r, s, ids. split; [now left|exact F].
  - right. exists r', s', ids'. split; [now right|exact F].
Qed.

(** ** The rows of an index hold every key *)

Section IndexComplete.
Context {K1 K2 : Type} `{Hashable K1} `{Hashable K2}.
Variable f : point -> option (K1 * K2).

Lemma index_by_complete (points : points_t) (pid : string) (p : point)
  (k1 : K1) (k2 : K2) :
  In (pid, p) points -> f p = Some (k1, k2) ->
  exists pid', dget (dget_or (index_by f points) k1 []) k2 = Some pid'.
Proof.
  intros I F. unfold index_by.
  enough (G : forall l out,
    In (pid, p) l \/ (exists pid', dget (dget_or out k1 []) k2 = Some pid') ->
    exists pid', dget (dget_or (fold_left
      (fun out '(pid, p) =>
         match f p with
         | Some (k1, k2) => dset out k1 (dset (dget_or out k1 []) k2 pid)
         | None => out
         end) l out) k1 []) k2 = Some pid') by (apply G; now left).
  induction l as [|[q pq] l IH]; cbn [fold_left]; intros out [Il|G].
  - destruct Il.
  - exact G.
  - apply IH. destruct Il as [E|Il]; [|now left]. inversion E; subst. right.
    rewrite F. exists pid. unfold dget_or at 1. rewrite dget_dset, keq_refl.
    now rewrite dget_dset, keq_refl.
  - apply IH. right. destruct (f pq) as [[ka kb]|]; [|exact G].
    destruct G as (pid' & G). unfold dget_or at 1. rewrite dget_dset.
    destruct (keq k1 ka) eqn:E.
    + rewrite dget_dset. destruct (keq k2 kb); [eauto|].
      exists pid'. unfold dget_or in *. now rewrite <- (dget_keq out k1 ka E).
    + exists pid'. exact G.
Qed.

End IndexComplete.

Lemma py_round_inject_Z (r : Z) : py_round (inject_Z r) = r.
Proof.
  unfold py_round. rewrite Qfloor_Z.
  destruct (Qcompare_spec (inject_Z r - inject_Z r) (1 # 2)) as [E|E|E];
    [lra|reflexivity|lra].
Qed.

Lemma Q_keq (a b : Q) : keq a b = true <-> (a == b)%Q.
Proof. apply Qeq_bool_iff. Qed.

(** ** Rows *)

Lemma row_entry_point (points : points_t) (reg : region) (r : Z) (k : Q) (pid : string) :
  dwf points ->
  In (k, pid) (dget_or (build_row_index points reg) r []) ->
  exists p, In (pid, p) points /\ in_row reg r p /\ (k == p_x p)%Q.
Proof.
  intros W I. unfold build_row_index in I.
  apply (index_by_entry _ points W) in I as (p & r' & k' & G & F & E1 & E2).
  exists p. split; [now apply sdget_In|].
  destruct (negb (region_eqb (p_region p) reg)) eqn:R; [discriminate|].
  destruct (negb (kind_eqb (p_kind p) KH || kind_eqb (p_kind p) KSeg)) eqn:Kd;
    [discriminate|].
  inversion F; subst r' k'. apply Z_keq in E1. apply Q_keq in E2.
  apply negb_false_iff, region_eqb_eq in R. apply negb_false_iff, orb_true_iff in Kd.
  split; [|exact E2]. split; [exact R|]. split; [|now symmetry].
  destruct Kd as [Kd|Kd]; apply kind_eqb_eq in Kd; auto.
Qed.

Lemma row_point_entry (points : points_t) (reg : region) (r : Z) (pid : string)
  (p : point) :
  In (pid, p) points -> in_row reg r p ->
  exists k pid', In (k, pid') (dget_or (build_row_index points reg) r [])
                 /\ (k == p_x p)%Q.
Proof.
  intros I (R & Kd & Y). unfold build_row_index.
  match goal with |- context [index_by ?g points] => set (f := g) end.
  assert (F : f p = Some (r, p_x p)).
  { unfold f. rewrite R. replace (region_eqb reg reg) with true by now destruct reg.
    cbn [negb]. rewrite Y.
    destruct Kd as [-> | ->]; reflexivity. }
  destruct (index_by_complete f points pid p r (p_x p) I F) as (pid' & G).
  apply dget_In in G as (k' & I' & E). apply Q_keq in E.
  exists k', pid'. split; [exact I'|now symmetry].
Qed.

Lemma row_next_larger (points : points_t) (reg : region) (r : Z) (x y : string) :
  dwf points ->
  follows (map snd (ordered_in_row (build_row_index points reg) r)) x y ->
  next_larger points (in_row reg r) x y.
Proof.
  intros W F. unfold ordered_in_row in F.
  set (row := dget_or (build_row_index points reg) r []) in *.
  assert (Wrow : dwf row) by apply index_by_row_wf.
  assert (N : NoDup (map snd (sorted_by fst row))).
  { apply sorted_by_map_NoDup. apply index_by_row_NoDup. exact W. }
  apply follows_map in F as ([kx x'] & [ky y'] & F & Ex & Ey). cbn in Ex, Ey. subst x' y'.
  assert (D := follows_NoDup snd _ _ _ N F). cbn in D.
  destruct (follows_In _ _ _ F) as [Ia Ib].
  apply sorted_by_In in Ia, Ib.
  destruct (sorted_follows fst _ _ _ (sorted_by_sorted fst row) F) as [L B]. cbn in L, B.
  destruct (row_entry_point points reg r kx x W Ia) as (pa & Ipa & Ma & Xa).
  destruct (row_entry_point points reg r ky y W Ib) as (pb & Ipb & Mb & Xb).
  exists pa, pb. split; [exact Ipa|]. split; [exact Ipb|]. split; [exact Ma|].
  split; [exact Mb|]. split.
  - rewrite <- Xa, <- Xb. apply Qle_lteq in L. destruct L as [L|L]; [exact L|].
    exfalso. apply D. apply Q_keq in L.
    assert (G1 := In_dget _ _ _ Wrow Ia). assert (G2 := In_dget _ _ _ Wrow Ib).
    rewrite (dget_keq _ _ _ L) in G1. congruence.
  - intros c pc Ic Mc [L1 L2].
    destruct (row_point_entry points reg r c pc Ic Mc) as (k & pid' & Ik & Ek).
    apply (sorted_by_In fst) in Ik. destruct (B _ Ik) as [H|H]; cbn in H; lra.
Qed.

(** ** Segments *)

Lemma rowseg_entry (points : points_t) (reg : region) (r s : Z) (ids : list string) :
  In ((r, s), ids) (build_rowseg_index points reg) ->
  exists lst, ids = map snd (sorted_by fst lst)
    /\ (forall k pid, In (k, pid) lst ->
          exists p, In (pid, p) points /\ in_segment reg r s p /\ k = p_x p)
    /\ (forall pid p, In (pid, p) points -> in_segment reg r s p ->
          In (p_x p, pid) lst)
    /\ (dwf points -> NoDup (map snd lst)).
Proof.
  unfold build_rowseg_index. intros I.
  apply in_map_iff in I as ([key' lst] & E & I). inversion E; subst; clear E.
  match type of I with In _ (group_by ?g points) => set (f := g) in * end.
  assert (L : lst = dget_or (group_by f points) (r, s) []).
  { unfold dget_or. rewrite (In_dget _ _ _ (group_by_wf f points) I). reflexivity. }
  exists lst. split; [reflexivity|]. split; [|split].
  - intros k pid Ik. rewrite L in Ik.
    apply group_by_In in Ik as (pid0 & p & [r' s'] & Ip & F & E).
    unfold f in F. destruct (negb (region_eqb (p_region p) reg)) eqn:R; [discriminate|].
    destruct (p_meta p) eqn:M; try discriminate. inversion F; subst.
    cbn in E. apply andb_true_iff in E as [E1 E2]. apply Z_keq in E1, E2.
    apply negb_false_iff, region_eqb_eq in R.
    exists p. split; [exact Ip|]. split; [|reflexivity].
    split; [exact R|]. rewrite M. cbn. split; congruence.
  - intros pid p Ip (R & M & Y). rewrite L, group_by_spec. apply in_flat_map.
    exists (pid, p). split; [exact Ip|]. unfold group_sel, f. cbn [fst snd].
    rewrite R. replace (region_eqb reg reg) with true by now destruct reg. cbn [negb].
    destruct (p_meta p); cbn in M; try discriminate. inversion M; subst.
    cbn. rewrite !Z.eqb_refl. cbn. now left.
  - intros W. rewrite L. apply group_by_NoDup; auto.
    intros pid p k' a0. unfold f. destruct (negb _); [discriminate|].
    destruct (p_meta p); try discriminate. intros E. inversion E. reflexivity.
Qed.

Lemma py_enumerate_ge {A} (l : list A) (n i : Z) (a : A) :
  In (i, a) (py_enumerate n l) -> n <= i.
Proof.
  revert n. induction l as [|b l IH]; cbn; intros n; [tauto|].
  intros [E|I]; [inversion E; lia|]. apply IH in I. lia.
Qed.

Lemma py_enumerate_fun {A} (l : list A) (n i : Z) (a b : A) :
  In (i, a) (py_enumerate n l) -> In (i, b) (py_enumerate n l) -> a = b.
Proof.
  revert n. induction l as [|c l IH]; cbn; intros n; [tauto|].
  intros [E1|I1] [E2|I2].
  - congruence.
  - inversion E1; subst. apply py_enumerate_ge in I2. lia.
  - inversion E2; subst. apply py_enumerate_ge in I1. lia.
  - eapply IH; eauto.
Qed.

Lemma py_enumerate_In {A} (l : list A) (n i : Z) (a : A) :
  In (i, a) (py_enumerate n l) -> In a l.
Proof.
  revert n. induction l as [|c l IH]; cbn; intros n; [tauto|].
  intros [E|I]; [inversion E; auto|right; eauto].
Qed.

Lemma gaps_ok_tail (step : Q) (a : Q) (l : list Q) : gaps_ok step (a :: l) -> gaps_ok step l.
Proof. destruct l; cbn; tauto. Qed.

Lemma gaps_ok_head_lt (step : Q) (l : list Q) (a x : Q) :
  gaps_ok step (a :: l) -> In x l -> (a < x)%Q.
Proof.
  revert a. induction l as [|b l IH]; intros a G I; [destruct I|].
  destruct G as (L & _ & G). destruct I as [<-|I]; [exact L|].
  apply Qlt_trans with b; auto.
Qed.

Lemma gaps_ok_index (step : Q) (l : list Q) (n i j : Z) (x x' : Q) :
  gaps_ok step l ->
  In (i, x) (py_enumerate n l) -> In (j, x') (py_enumerate n l) ->
  (x == x')%Q -> i = j.
Proof.
  revert n. induction l as [|c l IH]; cbn [py_enumerate]; intros n G; [intros []|].
  intros [E1|I1] [E2|I2] E.
  - congruence.
  - inversion E1; subst. apply py_enumerate_In in I2.
    assert (L := gaps_ok_head_lt _ _ _ _ G I2). lra.
  - inversion E2; subst. apply py_enumerate_In in I1.
    assert (L := gaps_ok_head_lt _ _ _ _ G I1). lra.
  - apply gaps_ok_tail in G. eapply IH; eauto.
Qed.

Lemma seg_family_tag (a : anchors) (tag tag' sig sig' : string) (reg : region) :
  seg_family a tag sig reg -> seg_family a tag' sig' reg -> tag = tag' /\ sig = sig'.
Proof.
  intros [(-> & -> & ->)|(-> & -> & ->)] [(-> & -> & R)|(-> & -> & R)];
    try discriminate; auto.
Qed.

Lemma seg_x_unique (ws : worksheet) (a : anchors) (reg : region) (r s : Z)
  (x y : string) (pa pb : point) :
  origin ws a x pa -> origin ws a y pb ->
  in_segment reg r s pa -> in_segment reg r s pb ->
  (p_x pa == p_x pb)%Q -> x = y.
Proof.
  intros Oa Ob (Ra & Ma & Ya) (Rb & Mb & Yb) E.
  destruct Oa as [| | |tag sig reg1 r1 s1 c1 c2 i x1 xs F1 Is1 Es1 Ii|];
    cbn in Ma; try discriminate.
  destruct Ob as [| | |tag' sig' reg2 r2 s2 c1' c2' j x2 xs' F2 Is2 Es2 Ij|];
    cbn in Mb; try discriminate.
  cbn in Ra, Rb, Ya, Yb, E. subst reg1 reg2.
  rewrite py_round_inject_Z in Ya, Yb. subst r1 r2.
  inversion Ma; inversion Mb; subst s1 s2.
  destruct (seg_family_tag _ _ _ _ _ _ F1 F2) as [<- <-].
  assert (C := py_enumerate_fun _ _ _ _ _ Is1 Is2). inversion C; subst c1' c2'.
  rewrite Es1 in Es2. inversion Es2; subst xs'.
  destruct (sample_positions_total (inject_Z (c1 - 1)) (inject_Z (c2 - 1)) 5)
    as (xs0 & Es0 & G); [reflexivity|].
  rewrite Es1 in Es0. inversion Es0; subst xs0.
  rewrite (gaps_ok_index _ _ _ _ _ _ _ G Ii Ij E). reflexivity.
Qed.

Lemma seg_next_larger (ws : worksheet) (a : anchors) (points : points_t)
  (reg : region) (r s : Z) (ids : list string) (x y : string) :
  dwf points -> (forall pid p, In (pid, p) points -> origin ws a pid p) ->
  In ((r, s), ids) (build_rowseg_index points reg) ->
  follows ids x y -> next_larger points (in_segment reg r s) x y.
Proof.
  intros W O I F.
  destruct (rowseg_entry points reg r s ids I) as (lst & -> & Sound & Compl & N).
  assert (N' : NoDup (map snd (sorted_by fst lst))) by (apply sorted_by_map_NoDup; auto).
  apply follows_map in F as ([kx x'] & [ky y'] & F & Ex & Ey). cbn in Ex, Ey. subst x' y'.
  assert (D := follows_NoDup snd _ _ _ N' F). cbn in D.
  destruct (follows_In _ _ _ F) as [Ia Ib].
  apply sorted_by_In in Ia, Ib.
  destruct (sorted_follows fst _ _ _ (sorted_by_sorted fst lst) F) as [L B]. cbn in L, B.
  destruct (Sound kx x Ia) as (pa & Ipa & Ma & ->).
  destruct (Sound ky y Ib) as (pb & Ipb & Mb & ->).
  exists pa, pb. split; [exact Ipa|]. split; [exact Ipb|]. split; [exact Ma|].
  split; [exact Mb|]. split.
  - apply Qle_lteq in L. destruct L as [L|L]; [exact L|].
    exfalso. apply D.
    exact (seg_x_unique ws a reg r s x y pa pb (O _ _ Ipa) (O _ _ Ipb) Ma Mb L).
  - intros c pc Ic Mc [L1 L2].
    assert (Ik := Compl c pc Ic Mc).
    apply (sorted_by_In fst) in Ik. destruct (B _ Ik) as [H|H]; cbn in H; lra.
Qed.

Lemma has_edge_true (nm : next_map_t) (a b : string) :
  has_edge nm a b = true -> edge nm a b.
Proof.
  unfold has_edge, edge. intros E. apply existsb_exists in E as (c & I & E).
  apply String.eqb_eq in E. now subst.
Qed.

(** C5.  Direction of the chain edges, on the points of the generation
    phase.  An edge that [connect_purple_rows] adds for direction "right"
    goes from a point of a purple row to the point of that row with the
    next larger [x], and for "left" to the one with the next smaller [x];
    the same holds for the edges [connect_segments] adds inside a
    segment, with the direction the row gives. *)
Theorem direction_correctness (ws : worksheet) (a : anchors) :
  exists st, generate ws a = Done st
    /\ (forall rows d nm x y,
          edge (connect_purple_rows (build_row_index (fst st) purple) rows d nm) x y ->
          edge nm x y
          \/ exists r, In r rows /\ directed d (fst st) (in_row purple r) x y)
    /\ (forall reg dir nm x y,
          edge (connect_segments (build_rowseg_index (fst st) reg) dir nm) x y ->
          edge nm x y
          \/ exists r s, directed (dir r) (fst st) (in_segment reg r s) x y).
Proof.
  destruct (generate_ok ws a) as (st & E & W & O & _).
  exists st. split; [exact E|]. split.
  - intros rows d nm x y Ed. apply connect_purple_rows_edge in Ed.
    destruct Ed as [Ed|(r & I & F)]; [now left|]. right. exists r. split; [exact I|].
    destruct d; cbn; now apply row_next_larger.
  - intros reg dir nm x y Ed. apply connect_segments_edge in Ed.
    destruct Ed as [Ed|(r & s & ids & I & F)]; [now left|]. right. exists r, s.
    unfold directed. destruct (dir r); eapply seg_next_larger; eauto.
Qed.

Lemma direction_correctness_witness :
  exists st, generate small_sheet small_anchors = Done st
    /\ exists r, In r [13]
         /\ directed Right (fst st) (in_row purple r) "PUH_R013_0000" "PUH_R013_0001".
Proof.
  destruct (direction_correctness small_sheet small_anchors) as (st & E & Hrow & _).
  exists st. split; [exact E|].
  assert (L : match generate small_sheet small_anchors with
              | Done st =>
                  has_edge (connect_purple_rows (build_row_index (fst st) purple)
                              [13] Right []) "PUH_R013_0000" "PUH_R013_0001"
              | _ => false
              end = true) by (vm_compute; reflexivity).
  rewrite E in L. apply has_edge_true in L.
  destruct (Hrow [13] Right [] _ _ L) as [H|H]; [destruct H|exact H].
Defined.

(** ** The orange and green lane changes, edge by edge *)

Lemma fold_left_reach {A S} (Q : S -> Prop) (f : S -> A -> S) (l : list A) (r : A) :
  (forall s a, Q s -> Q (f s a)) -> (forall s, Q (f s r)) -> In r l ->
  forall s, Q (fold_left f l s).
Proof.
  intros Mono Est. induction l as [|a l IH]; cbn; intros I s; [destruct I|].
  destruct I as [->|I]; [|now apply IH].
  apply fold_left_inv; auto.
Qed.

Section LinkSameKey.
Context {K : Type} `{Hashable K}.

Lemma link_same_key_edge (a b : dict K string) (nm : next_map_t) (x y : string) :
  edge (link_same_key a b nm) x y ->
  edge nm x y \/ exists k, In (k, x) a /\ dget b k = Some y.
Proof.
  unfold link_same_key. revert nm.
  induction a as [|[k pid] a IH]; cbn [fold_left]; intros nm E; [now left|].
  apply IH in E. destruct E as [E|(k' & I & G)].
  - destruct (dget b k) as [pid2|] eqn:G; [|now left].
    destruct (truthy pid2); [|now left].
    apply edge_add_edge in E. destruct E as [[-> ->]|E]; [|now left].
    right. exists k. split; [now left|exact G].
  - right. exists k'. split; [now right|exact G].
Qed.

Lemma link_same_key_le (a b : dict K string) (nm : next_map_t) :
  nm_le nm (link_same_key a b nm).
Proof.
  unfold link_same_key. apply fold_left_inv; [|apply nm_le_refl].
  intros [k pid] s _ L. destruct (dget b k) as [pid2|]; [|exact L].
  destruct (truthy pid2); [|exact L].
  eapply nm_le_trans; [exact L|apply nm_le_add_edge].
Qed.

Lemma link_same_key_adds (a b : dict K string) (nm : next_map_t) (k : K)
  (x y : string) :
  In (k, x) a -> dget b k = Some y -> truthy y = true ->
  edge (link_same_key a b nm) x y.
Proof.
  intros I G T. unfold link_same_key.
  apply (fold_left_reach (fun s => edge s x y)) with (r := (k, x)); [| |exact I].
  - intros s [k' pid] E. destruct (dget b k') as [pid2|]; [|exact E].
    destruct (truthy pid2); [|exact E]. apply edge_add_edge. now right.
  - intros s. rewrite G, T. apply edge_add_edge. now left.
Qed.

End LinkSameKey.

Lemma lane_change_og_edge (row_x : dict Z (dict Q string)) (r r_to : Z) (allow : bool)
  (nm : next_map_t) (x y : string) :
  edge (lane_change_og row_x r r_to allow nm) x y ->
  edge nm x y
  \/ (allow = true
      /\ exists k, In (k, x) (dget_or row_x r [])
                   /\ dget (dget_or row_x r_to []) k = Some y).
Proof.
  unfold lane_change_og. destruct allow; cbn [negb]; [|now left].
  destruct (_ || _); [now left|]. intros E.
  apply link_same_key_edge in E. destruct E as [E|E]; [now left|now right].
Qed.

Lemma lane_change_og_le (row_x : dict Z (dict Q string)) (r r_to : Z) (allow : bool)
  (nm : next_map_t) : nm_le nm (lane_change_og row_x r r_to allow nm).
Proof.
  unfold lane_change_og. destruct (negb allow); [apply nm_le_refl|].
  destruct (_ || _); [apply nm_le_refl|apply link_same_key_le].
Qed.

Lemma lane_change_og_adds (row_x : dict Z (dict Q string)) (r r_to : Z)
  (nm : next_map_t) (k : Q) (x y : string) :
  In (k, x) (dget_or row_x r []) -> dget (dget_or row_x r_to []) k = Some y ->
  truthy y = true ->
  edge (lane_change_og row_x r r_to true nm) x y.
Proof.
  intros I G T. unfold lane_change_og. cbn [negb].
  destruct (dget_or row_x r []) as [|e a] eqn:Ea; [destruct I|].
  destruct (dget_or row_x r_to []) as [|e' b] eqn:Eb; [discriminate|].
  cbn [is_empty orb]. eapply link_same_key_adds; eauto.
Qed.

Lemma og_lane_step_edge (o g : dict Z (dict Q string)) (rows : list Z) (r r_to : Z)
  (nm : next_map_t) (x y : string) :
  r_to = r - 1 \/ r_to = r + 1 ->
  edge (og_lane_step o g rows r nm r_to) x y -> edge nm x y \/ og_lane_edge o g x y.
Proof.
  intros Adj. unfold og_lane_step. destruct (negb _); [now left|]. cbv zeta. intros E.
  apply lane_change_og_edge in E. destruct E as [E|(Al & k & I & G)].
  - apply lane_change_og_edge in E. destruct E as [E|(Al & k & I & G)]; [now left|].
    right. exists o, r, r_to, k. auto.
  - right. exists g, r, r_to, k. auto.
Qed.

Lemma og_lane_changes_edge (o g : dict Z (dict Q string)) (nm : next_map_t)
  (x y : string) :
  edge (og_lane_changes o g nm) x y -> edge nm x y \/ og_lane_edge o g x y.
Proof.
  unfold og_lane_changes. cbv zeta. revert x y.
  apply (fold_left_inv
    (fun s => forall x y, edge s x y -> edge nm x y \/ og_lane_edge o g x y));
    [|now left].
  intros r s _ Hs.
  apply (fold_left_inv
    (fun s => forall x y, edge s x y -> edge nm x y \/ og_lane_edge o g x y));
    [|exact Hs].
  intros r_to s' I Hs' x y E.
  apply og_lane_step_edge in E; [|cbn in I; intuition].
  destruct E as [E|E]; [now apply Hs'|now right].
Qed.

Lemma og_lane_step_le (o g : dict Z (dict Q string)) (rows : list Z) (r r_to : Z)
  (nm : next_map_t) : nm_le nm (og_lane_step o g rows r nm r_to).
Proof.
  unfold og_lane_step. destruct (negb _); [apply nm_le_refl|].
  eapply nm_le_trans; apply lane_change_og_le.
Qed.

Lemma all_og_rows_In (o g : dict Z (dict Q string)) (r : Z) :
  In r (all_og_rows o g) <-> dget o r <> None \/ dget g r <> None.
Proof.
  unfold all_og_rows. rewrite sorted_by_In, nodup_In, in_app_iff. unfold dkeys.
  assert (K : forall d : dict Z (dict Q string), In r (map fst d) <-> dget d r <> None).
  { intros d. split.
    - intros I. apply in_map_iff in I as ([r' v] & E & I). cbn in E. subst r'.
      eapply In_dget_some; eauto.
    - intros N. destruct (dget d r) as [v|] eqn:G; [|congruence].
      apply dget_In in G as (r' & I & E). apply Z_keq in E. subst r'.
      apply in_map_iff. exists (r, v). auto. }
  now rewrite !K.
Qed.

Lemma og_lane_changes_adds (o g row_x : dict Z (dict Q string)) (nm : next_map_t)
  (r r_to : Z) (k : Q) (x y : string) :
  row_x = o \/ row_x = g -> r_to = r - 1 \/ r_to = r + 1 -> og_allow r r_to = true ->
  In (k, x) (dget_or row_x r []) -> dget (dget_or row_x r_to []) k = Some y ->
  truthy y = true ->
  edge (og_lane_changes o g nm) x y.
Proof.
  intros Hx Adj Al I G T. unfold og_lane_changes. cbv zeta.
  assert (Ir : In r (all_og_rows o g)).
  { apply all_og_rows_In. unfold dget_or in I.
    destruct Hx; subst row_x; [left|right]; intros N; rewrite N in I; destruct I. }
  assert (Ito : In r_to (all_og_rows o g)).
  { apply all_og_rows_In. unfold dget_or in G.
    destruct Hx; subst row_x; [left|right]; intros N; rewrite N in G; discriminate. }
  apply (fold_left_reach (fun s => edge s x y)) with (r := r); [| |exact Ir].
  - intros s r' E. revert E. apply (fold_left_inv (fun s' => edge s' x y)).
    intros r2 s' _ E. now apply og_lane_step_le.
  - intros s.
    apply (fold_left_reach (fun s => edge s x y)) with (r := r_to).
    + intros s' r2 E. now apply og_lane_step_le.
    + intros s'. unfold og_lane_step.
      assert (M : existsb (Z.eqb r_to) (all_og_rows o g) = true).
      { apply existsb_exists. exists r_to. split; [exact Ito|apply Z.eqb_refl]. }
      rewrite M, Al. cbn [negb].
      destruct Hx; subst row_x.
      * apply lane_change_og_le. eapply lane_change_og_adds; eauto.
      * eapply lane_change_og_adds; eauto.
    + cbn. destruct Adj; subst; auto.
Qed.

Lemma row_x_entry_point (points : points_t) (reg : region) (r : Z) (k : Q)
  (pid : string) :
  dwf points ->
  In (k, pid) (dget_or (build_row_x_index points reg) r []) ->
  exists p, dget points pid = Some p /\ p_region p = reg /\ p_kind p = KSeg
            /\ py_round (p_y p) = r /\ (k == p_x p)%Q.
Proof.
  intros W I. unfold build_row_x_index in I.
  apply (index_by_entry _ points W) in I as (p & r' & k' & G & F & E1 & E2).
  exists p. split; [exact G|].
  destruct (negb (region_eqb (p_region p) reg)) eqn:R; [discriminate|].
  destruct (negb (kind_eqb (p_kind p) KSeg)) eqn:Kd; [discriminate|].
  inversion F; subst r' k'. apply Z_keq in E1. apply Q_keq in E2.
  apply negb_false_iff, region_eqb_eq in R. apply negb_false_iff, kind_eqb_eq in Kd.
  auto.
Qed.

Lemma origin_seg_truthy (ws : worksheet) (a : anchors) (pid : string) (p : point) :
  origin ws a pid p -> p_kind p = KSeg -> truthy pid = true.
Proof.
  intros O. destruct O as [| | |tag sig reg r s c1 c2 i x xs F _ _ _|];
    cbn; try discriminate.
  intros _. destruct F as [(-> & _)|(-> & _)]; reflexivity.
Qed.




(** ** The running minimum of the nearest-neighbour searches *)

Lemma nearest_step_inv (dist : cand3 -> Q) (done : list cand3)
  (st : option Q * list string) (c : cand3) :
  near_inv dist done st -> near_inv dist (done ++ [c]) (nearest_step dist st c).
Proof.
  unfold near_inv, nearest_step. destruct st as [[b|] ids]; cbn [fst snd].
  - intros (Lo & Hi & Ne).
    destruct (Qlt_bool (dist c) (b - EPS)) eqn:L; cbn [fst snd].
    + apply Qlt_bool_true in L. split; [|split; [|discriminate]].
      * intros c' I. apply in_app_iff in I as [I|[<-|[]]].
        -- apply Lo in I. unfold EPS in *. lra.
        -- unfold EPS. lra.
      * intros id [<-|[]]. exists c. split; [apply in_or_app; right; now left|].
        split; [reflexivity|]. unfold EPS. lra.
    + apply Qlt_bool_false in L.
      destruct (Qle_bool (Qabs (dist c - b)) EPS) eqn:T; cbn [fst snd].
      * apply Qle_bool_iff, Qabs_Qle_condition in T. destruct T as [T1 T2].
        split; [|split].
        -- intros c' I. apply in_app_iff in I as [I|[<-|[]]]; [now apply Lo|exact L].
        -- intros id I. apply in_app_iff in I as [I|[<-|[]]].
           ++ destruct (Hi id I) as (c0 & I0 & E0 & D0). exists c0.
              split; [apply in_or_app; now left|auto].
           ++ exists c. split; [apply in_or_app; right; now left|].
              split; [reflexivity|lra].
        -- intros E. apply app_eq_nil in E as [_ E]. discriminate.
      * split; [|split; [|exact Ne]].
        -- intros c' I. apply in_app_iff in I as [I|[<-|[]]]; [now apply Lo|exact L].
        -- intros id I. destruct (Hi id I) as (c0 & I0 & E0 & D0). exists c0.
           split; [apply in_or_app; now left|auto].
  - intros (-> & ->). cbn. split; [|split; [|discriminate]].
    + intros c' [<-|[]]. unfold EPS. lra.
    + intros id [<-|[]]. exists c. split; [now left|]. split; [reflexivity|].
      unfold EPS. lra.
Qed.

Lemma nearest_fold_inv (dist : cand3 -> Q) (l done : list cand3)
  (st : option Q * list string) :
  near_inv dist done st -> near_inv dist (done ++ l) (fold_left (nearest_step dist) l st).
Proof.
  revert done st. induction l as [|c l IH]; cbn [fold_left]; intros done st I.
  - now rewrite app_nil_r.
  - replace (done ++ c :: l) with ((done ++ [c]) ++ l) by now rewrite <- app_assoc.
    apply IH. now apply nearest_step_inv.
Qed.

Lemma best_ids_of_inv (dist : cand3 -> Q) (cands : list cand3) :
  near_inv dist cands (fold_left (nearest_step dist) cands (None, [])).
Proof. apply (nearest_fold_inv dist cands [] (None, [])). cbn. auto. Qed.

Lemma best_ids_of_near (dist : cand3 -> Q) (cands : list cand3) (id : string) :
  In id (best_ids_of dist cands) ->
  exists c, In c cands /\ c_id c = id
            /\ forall c', In c' cands -> (dist c <= dist c' + 2 * EPS)%Q.
Proof.
  unfold best_ids_of. assert (I := best_ids_of_inv dist cands). unfold near_inv in I.
  destruct (fst (fold_left (nearest_step dist) cands (None, []))) as [b|].
  - destruct I as (Lo & Hi & _). intros Iid.
    destruct (Hi id Iid) as (c & Ic & E & D). exists c. split; [exact Ic|].
    split; [exact E|]. intros c' Ic'. apply Lo in Ic'. unfold EPS in *. lra.
  - destruct I as (_ & ->). intros [].
Qed.

Lemma best_ids_of_nonempty (dist : cand3 -> Q) (cands : list cand3) :
  cands <> [] -> best_ids_of dist cands <> [].
Proof.
  unfold best_ids_of. assert (I := best_ids_of_inv dist cands). unfold near_inv in I.
  destruct (fst (fold_left (nearest_step dist) cands (None, []))) as [b|].
  - intros _. apply I.
  - destruct I as (-> & _). congruence.
Qed.

Lemma uniq_nonempty (ids : list string) : ids <> [] -> uniq ids <> [].
Proof.
  destruct ids as [|a l]; [congruence|]. intros _ E.
  assert (I : In a (uniq (a :: l))) by (apply uniq_In; now left).
  rewrite E in I. destruct I.
Qed.



(** ** Linking both ways *)

Lemma link_both_edge (a : string) (ids : list string) (nm : next_map_t) (x y : string) :
  edge (link_both a ids nm) x y
  <-> edge nm x y \/ exists g, In g ids /\ ((x = a /\ y = g) \/ (x = g /\ y = a)).
Proof.
  unfold link_both. revert nm. induction ids as [|b ids IH]; cbn [fold_left]; intros nm.
  - split; [now left|]. intros [E|(g & [] & _)]. exact E.
  - rewrite IH, !edge_add_edge. split.
    + intros [[[-> ->]|[[-> ->]|E]]|(g & I & H)].
      * right. exists b. split; [now left|now right].
      * right. exists b. split; [now left|now left].
      * now left.
      * right. exists g. split; [now right|exact H].
    + intros [E|(g & [<-|I] & H)].
      * left. right. now right.
      * left. destruct H as [[-> ->]|[-> ->]]; [right; now left|now left].
      * right. exists g. split; [exact I|exact H].
Qed.


(** ** The fallback loop *)

Section Fallback.
Variable points : points_t.
Variable all_grey : list cand3.
Variable nm0 : next_map_t.
Hypothesis points_wf : dwf points.
Hypothesis grey_cands : cands_of points is_grey all_grey.










End Fallback.



(** * Part III: further properties of the code *)

(** ** The scan of a row for the runs of a colour *)

Lemma py_range_snoc (lo : Z) (n : nat) :
  py_range lo (lo + Z.of_nat (S n)) = py_range lo (lo + Z.of_nat n) ++ [lo + Z.of_nat n].
Proof.
  unfold py_range.
  replace (Z.to_nat (lo + Z.of_nat (S n) - lo)) with (S n) by lia.
  replace (Z.to_nat (lo + Z.of_nat n - lo)) with n by lia.
  rewrite seq_S, map_app. reflexivity.
Qed.

Lemma fold_py_range {St} (P : Z -> St -> Prop) (f : St -> Z -> St) (lo hi : Z)
  (st0 : St) :
  lo <= hi -> P lo st0 ->
  (forall c st, lo <= c < hi -> P c st -> P (c + 1) (f st c)) ->
  P hi (fold_left f (py_range lo hi) st0).
Proof.
  intros Hle H0 Hstep.
  assert (G : forall n : nat, lo + Z.of_nat n <= hi ->
            P (lo + Z.of_nat n) (fold_left f (py_range lo (lo + Z.of_nat n)) st0)).
  { induction n as [|n IH]; intros B.
    - unfold py_range. replace (Z.to_nat (lo + Z.of_nat 0 - lo)) with O by lia.
      cbn. now replace (lo + 0) with lo by lia.
    - rewrite py_range_snoc, fold_left_app. cbn [fold_left].
      replace (lo + Z.of_nat (S n)) with (lo + Z.of_nat n + 1) by lia.
      apply Hstep; [lia|]. apply IH. lia. }
  specialize (G (Z.to_nat (hi - lo))).
  replace (lo + Z.of_nat (Z.to_nat (hi - lo))) with hi in G by lia.
  apply G. lia.
Qed.

Lemma scan_cell_inv (ws : worksheet) (row : Z) (sig : string) (col_min c : Z)
  (st : list (Z * Z) * bool * Z) :
  col_min <= c ->
  scan_inv ws row sig col_min c st ->
  scan_inv ws row sig col_min (c + 1) (scan_cell ws row sig st c).
Proof.
  intros Hc. destruct st as [[segs in_seg] s]. unfold scan_inv, scan_cell.
  intros (I1 & I2 & I3 & I4).
  destruct (has_color ws row c sig) eqn:Col; destruct in_seg.
  - destruct (I2 eq_refl) as (Hs & Hcol & Hl).
    split; [|split; [|split; [|exact I4]]].
    + intros sg I. destruct (I1 sg I) as (A & B & C & D).
      split; [exact A|]. split; [lia|]. split; [exact C|exact D].
    + intros _. split; [lia|]. split; [|exact Hl].
      intros j Hj. destruct (Z.eq_dec j c) as [->|N]; [exact Col|]. apply Hcol. lia.
    + intros j Hj Cj. destruct (Z.eq_dec j c) as [->|N]; [right; split; [reflexivity|lia]|].
      apply I3; [lia|exact Cj].
  - split; [|split; [|split; [|exact I4]]].
    + intros sg I. destruct (I1 sg I) as (A & B & C & D).
      split; [exact A|]. split; [lia|]. split; [intros _; lia|exact D].
    + intros _. split; [lia|]. split.
      * intros j Hj. now replace j with c by lia.
      * destruct (Z.eq_dec c col_min) as [->|N]; [now left|]. right.
        destruct (has_color ws row (c - 1) sig) eqn:Cp; [|reflexivity].
        destruct (I3 (c - 1)) as [(sg & I & Hsg)|[F _]]; [lia|exact Cp| |discriminate].
        destruct (I1 sg I) as (_ & B & _). lia.
    + intros j Hj Cj. destruct (Z.eq_dec j c) as [->|N]; [right; split; [reflexivity|lia]|].
      destruct (I3 j) as [H|[F _]]; [lia|exact Cj|now left|discriminate].
  - destruct (I2 eq_refl) as (Hs & Hcol & Hl).
    split; [|split; [|split]].
    + intros sg I. apply in_app_iff in I as [I|[<-|[]]].
      * destruct (I1 sg I) as (A & B & C & D & E & F).
        split; [exact A|]. split; [lia|]. split; [discriminate|]. auto.
      * cbn [fst snd]. split; [lia|]. split; [lia|]. split; [discriminate|].
        split; [intros j Hj; apply Hcol; lia|]. split; [exact Hl|].
        now replace (c - 1 + 1) with c by lia.
    + discriminate.
    + intros j Hj Cj. left.
      assert (N : j <> c) by (intros ->; congruence).
      destruct (I3 j) as [(sg & I & Hsg)|[_ Hsj]]; [lia|exact Cj| |].
      * exists sg. split; [apply in_or_app; now left|exact Hsg].
      * exists (s, c - 1). split; [apply in_or_app; right; now left|]. cbn. lia.
    + unfold segs_apart in *. clear I3.
      induction segs as [|sg segs IH]; [repeat constructor|].
      inversion I4 as [|? ? S' F]; subst. constructor.
      * apply IH; [|exact S']. intros sg' I'. apply I1. now right.
      * apply Forall_app. split; [exact F|]. constructor; [|constructor].
        cbn [fst]. destruct (I1 sg (or_introl eq_refl)) as (_ & _ & C & _). now apply C.
  - split; [|split; [|split; [|exact I4]]].
    + intros sg I. destruct (I1 sg I) as (A & B & C & D).
      split; [exact A|]. split; [lia|]. split; [exact C|exact D].
    + discriminate.
    + intros j Hj Cj. assert (N : j <> c) by (intros ->; congruence).
      apply I3; [lia|exact Cj].
Qed.

Lemma scan_inv_init (ws : worksheet) (row : Z) (sig : string) (col_min : Z) :
  scan_inv ws row sig col_min col_min ([], false, 0).
Proof.
  split; [intros sg []|]. split; [discriminate|]. split; [intros j Hj; lia|constructor].
Qed.

(** X1.  [contiguous_segments_for_color]: every segment returned is a
    run of cells of the colour inside [col_min .. col_max] that cannot be
    extended there; every cell of the colour in that range lies in a
    segment returned; and the segments come in increasing order, two of
    them with a gap between them. *)
Theorem contiguous_segments_runs (ws : worksheet) (row : Z) (sig : string)
  (col_min col_max : Z) :
  (forall sg, In sg (contiguous_segments_for_color ws row sig col_min col_max) ->
     maximal_run ws row sig col_min col_max sg)
  /\ (forall c, col_min <= c <= col_max -> has_color ws row c sig = true ->
        exists sg, In sg (contiguous_segments_for_color ws row sig col_min col_max)
                   /\ fst sg <= c <= snd sg)
  /\ segs_apart (contiguous_segments_for_color ws row sig col_min col_max).
Proof.
  unfold contiguous_segments_for_color.
  destruct (Z_lt_le_dec (col_max + 1) col_min) as [Lt|Le].
  - unfold py_range. replace (Z.to_nat (col_max + 1 - col_min)) with O by lia. cbn.
    split; [intros sg []|]. split; [intros c Hc; lia|constructor].
  - assert (I := fold_py_range (scan_inv ws row sig col_min)
                   (scan_cell ws row sig) col_min (col_max + 1) ([], false, 0) Le
                   (scan_inv_init ws row sig col_min)
                   (fun c st Hc => scan_cell_inv ws row sig col_min c st (proj1 Hc))).
    destruct (fold_left _ _ _) as [[segs in_seg] s]. unfold scan_inv in I.
    destruct I as (I1 & I2 & I3 & I4). destruct in_seg.
    + destruct (I2 eq_refl) as (Hs & Hcol & Hl). split; [|split].
      * intros sg I. apply in_app_iff in I as [I|[<-|[]]].
        -- destruct (I1 sg I) as (A & B & C & D & E & F). unfold maximal_run.
           split; [exact A|]. split; [lia|]. split; [exact D|]. split; [exact E|now right].
        -- unfold maximal_run. cbn [fst snd]. split; [lia|]. split; [lia|].
           split; [intros c Hc; apply Hcol; lia|]. split; [exact Hl|now left].
      * intros c Hc Cc. destruct (I3 c) as [(sg & I & Hsg)|[_ Hsc]]; [lia|exact Cc| |].
        -- exists sg. split; [apply in_or_app; now left|exact Hsg].
        -- exists (s, col_max). split; [apply in_or_app; right; now left|]. cbn. lia.
      * unfold segs_apart in *. clear I3.
        induction segs as [|sg segs IH]; [repeat constructor|].
        inversion I4 as [|? ? S' F]; subst. constructor.
        -- apply IH; [|exact S']. intros sg' I'. apply I1. now right.
        -- apply Forall_app. split; [exact F|]. constructor; [|constructor].
           cbn [fst]. destruct (I1 sg (or_introl eq_refl)) as (_ & _ & C & _). now apply C.
    + split; [|split; [|exact I4]].
      * intros sg I. destruct (I1 sg I) as (A & B & C & D & E & F). unfold maximal_run.
        split; [exact A|]. split; [lia|]. split; [exact D|]. split; [exact E|now right].
      * intros c Hc Cc. destruct (I3 c) as [H|[F _]]; [lia|exact Cc|exact H|discriminate].
Qed.

(** ** Edges as sets *)

Lemma dset_dset {V} (d : dict string V) (k : string) (v w : V) :
  dset (dset d k v) k w = dset d k w.
Proof.
  induction d as [|[k0 v0] d IH]; cbn [dset].
  - now rewrite keq_refl.
  - destruct (keq k k0) eqn:E; cbn [dset]; rewrite E; [reflexivity|now rewrite IH].
Qed.

Lemma set_add_again (b : string) (s : list string) : set_add b (set_add b s) = set_add b s.
Proof.
  unfold set_add at 1.
  assert (I : In b (set_add b s)) by (apply set_add_In; now left).
  assert (E : existsb (String.eqb b) (set_add b s) = true).
  { apply existsb_exists. exists b. split; [exact I|apply String.eqb_refl]. }
  now rewrite E.
Qed.

Lemma set_add_NoDup (b : string) (s : list string) : NoDup s -> NoDup (set_add b s).
Proof.
  intros N. unfold set_add. destruct (existsb (String.eqb b) s) eqn:E; [exact N|].
  apply NoDup_app; [exact N|repeat constructor; intros []|].
  intros a Ia [->|[]].
  assert (T : existsb (String.eqb a) s = true).
  { apply existsb_exists. exists a. split; [exact Ia|apply String.eqb_refl]. }
  congruence.
Qed.

Lemma three_points_wf : dwf three_points.
Proof. cbn. repeat split. Qed.

(** X2.  [add_edge]: a [None] target changes nothing; otherwise the edge
    [a -> b] is there afterwards, every earlier edge stays and no other
    edge appears; adding the same edge again changes nothing; and the
    neighbour sets stay sets. *)
Theorem add_edge_set :
  (forall nm a, add_edge nm a None = nm)
  /\ (forall nm a b x y,
        edge (add_edge nm a (Some b)) x y <-> (x = a /\ y = b) \/ edge nm x y)
  /\ (forall nm a b,
        add_edge (add_edge nm a (Some b)) a (Some b) = add_edge nm a (Some b))
  /\ (forall nm a b, sets_ok nm -> sets_ok (add_edge nm a b)).
Proof.
  split; [reflexivity|]. split; [intros; apply edge_add_edge|]. split.
  - intros nm a b. unfold add_edge.
    replace (dget_or (dset nm a (set_add b (dget_or nm a []))) a [])
      with (set_add b (dget_or nm a [])).
    + now rewrite set_add_again, dset_dset.
    + unfold dget_or at 2. now rewrite dget_dset, keq_refl.
  - intros nm a [b|] [W N]; [|now split]. unfold add_edge. split; [now apply dwf_dset|].
    intros x outs. rewrite dget_dset. destruct (keq x a) eqn:E.
    + intros G. inversion G; subst. apply set_add_NoDup. unfold dget_or.
      destruct (dget nm a) as [o|] eqn:Ga; [now apply (N a)|constructor].
    + apply N.
Qed.

Lemma add_edge_set_witness : sets_ok (add_edge [] "a" (Some "b"%string)).
Proof.
  apply (proj2 (proj2 (proj2 add_edge_set))). split; [exact I|]. intros a outs G.
  discriminate.
Defined.

(** ** The indexes, read in order *)

Lemma sorted_strict {A B} (key : A -> Q) (f : A -> B) (l : list A) :
  StronglySorted (fun u w => (key u <= key w)%Q) l ->
  NoDup (map f l) ->
  (forall a b, In a l -> In b l -> (key a == key b)%Q -> f a = f b) ->
  StronglySorted (fun u w => (key u < key w)%Q) l.
Proof.
  induction l as [|a l IH]; intros S N Hk; [constructor|].
  inversion S as [|? ? S' F]; subst. cbn in N. inversion N as [|? ? Ni N']; subst.
  constructor.
  - apply IH; auto. intros x y Ix Iy. apply Hk; now right.
  - rewrite Forall_forall in *. intros b Ib. assert (L := F b Ib).
    apply Qle_lteq in L. destruct L as [L|L]; [exact L|].
    exfalso. apply Ni. rewrite (Hk a b (or_introl eq_refl) (or_intror Ib) L).
    now apply in_map.
Qed.

Lemma StronglySorted_weaken {A} (R R' : A -> A -> Prop) (l : list A) :
  (forall u w, R u w -> R' u w) -> StronglySorted R l -> StronglySorted R' l.
Proof.
  intros Hr. induction 1 as [|a l S IH F]; constructor; [exact IH|].
  eapply Forall_impl; [|exact F]. intros w. apply Hr.
Qed.

Lemma row_same_key {K} `{Hashable K} (row : dict K string) (k1 k2 : K) (p1 p2 : string) :
  dwf row -> In (k1, p1) row -> In (k2, p2) row -> keq k1 k2 = true -> p1 = p2.
Proof.
  intros W I1 I2 E. apply (In_dget _ _ _ W) in I1, I2.
  rewrite (dget_keq _ _ _ E) in I1. congruence.
Qed.

(** X3.  [build_row_index] read through [ordered_in_row]: for points
    with distinct ids, the entries of row [r] come in strictly increasing
    [x], each one is the id of a point of the region and of kind "h" or
    "seg" whose rounded [y] is [r] and whose [x] is the key, the [x] of
    every such point is a key of the row, and no id comes twice. *)
Theorem ordered_row_points (points : points_t) (reg : region) (r : Z) :
  dwf points ->
  StronglySorted (fun u w => (fst u < fst w)%Q)
    (ordered_in_row (build_row_index points reg) r)
  /\ (forall k pid, In (k, pid) (ordered_in_row (build_row_index points reg) r) ->
        exists p, In (pid, p) points /\ in_row reg r p /\ (k == p_x p)%Q)
  /\ (forall pid p, In (pid, p) points -> in_row reg r p ->
        exists k pid', In (k, pid') (ordered_in_row (build_row_index points reg) r)
                       /\ (k == p_x p)%Q)
  /\ NoDup (map snd (ordered_in_row (build_row_index points reg) r)).
Proof.
  intros W. unfold ordered_in_row.
  set (row := dget_or (build_row_index points reg) r []).
  assert (Wrow : dwf row) by apply index_by_row_wf.
  assert (N : NoDup (map snd (sorted_by fst row))).
  { apply sorted_by_map_NoDup. apply index_by_row_NoDup. exact W. }
  split; [|split; [|split; [|exact N]]].
  - apply (sorted_strict fst snd); [apply sorted_by_sorted|exact N|].
    intros [k1 p1] [k2 p2] I1 I2 E. cbn in *.
    apply sorted_by_In in I1, I2. apply Q_keq in E.
    exact (row_same_key row k1 k2 p1 p2 Wrow I1 I2 E).
  - intros k pid I. apply sorted_by_In in I. now apply row_entry_point.
  - intros pid p I M. destruct (row_point_entry points reg r pid p I M) as (k & pid' & Ik & E).
    exists k, pid'. split; [now apply sorted_by_In|exact E].
Qed.

Lemma ordered_row_points_witness :
  StronglySorted (fun u w => (fst u < fst w)%Q)
    (ordered_in_row (build_row_index three_points purple) 13)
  /\ ordered_in_row (build_row_index three_points purple) 13
     = [(4%Q, "P1"%string); (9%Q, "P2"%string)].
Proof.
  split; [|reflexivity].
  apply (ordered_row_points three_points purple 13). cbn. repeat split.
Defined.

Lemma col_entry_point (points : points_t) (reg : region) (x y : Z) (pid : string) :
  dwf points ->
  In (y, pid) (dget_or (build_col_index points reg) x []) ->
  exists p, In (pid, p) points /\ in_col reg x p /\ py_round (p_y p) = y.
Proof.
  intros W I. unfold build_col_index in I.
  apply (index_by_entry _ points W) in I as (p & x' & y' & G & F & E1 & E2).
  exists p. split; [now apply sdget_In|].
  destruct (negb (region_eqb (p_region p) reg)) eqn:R; [discriminate|].
  destruct (negb (kind_eqb (p_kind p) KV)) eqn:Kd; [discriminate|].
  inversion F; subst x' y'. apply Z_keq in E1, E2.
  apply negb_false_iff, region_eqb_eq in R. apply negb_false_iff, kind_eqb_eq in Kd.
  unfold in_col. auto.
Qed.

Lemma col_point_entry (points : points_t) (reg : region) (x : Z) (pid : string)
  (p : point) :
  In (pid, p) points -> in_col reg x p ->
  exists pid', In (py_round (p_y p), pid') (dget_or (build_col_index points reg) x []).
Proof.
  intros I (R & Kd & X). unfold build_col_index.
  match goal with |- context [index_by ?g points] => set (f := g) end.
  assert (F : f p = Some (x, py_round (p_y p))).
  { unfold f. rewrite R. replace (region_eqb reg reg) with true by now destruct reg.
    cbn [negb]. rewrite Kd, X. reflexivity. }
  destruct (index_by_complete f points pid p x (py_round (p_y p)) I F) as (pid' & G).
  apply dget_In in G as (k' & I' & E). apply Z_keq in E. subst k'.
  exists pid'. exact I'.
Qed.

(** X4.  [build_col_index] read through [ordered_in_col]: for points
    with distinct ids, the entries of column [x] come in strictly
    increasing [y], each one is the id of a vertical point of the region
    whose rounded [x] is the column and whose rounded [y] is the key, the
    rounded [y] of every such point is a key of the column, and no id
    comes twice. *)
Theorem ordered_col_points (points : points_t) (reg : region) (x : Z) :
  dwf points ->
  StronglySorted (fun u w => fst u < fst w)
    (ordered_in_col (build_col_index points reg) x)
  /\ (forall y pid, In (y, pid) (ordered_in_col (build_col_index points reg) x) ->
        exists p, In (pid, p) points /\ in_col reg x p /\ py_round (p_y p) = y)
  /\ (forall pid p, In (pid, p) points -> in_col reg x p ->
        exists pid', In (py_round (p_y p), pid')
                       (ordered_in_col (build_col_index points reg) x))
  /\ NoDup (map snd (ordered_in_col (build_col_index points reg) x)).
Proof.
  intros W. unfold ordered_in_col.
  set (col := dget_or (build_col_index points reg) x []).
  assert (Wcol : dwf col) by apply index_by_row_wf.
  assert (N : NoDup (map snd (sorted_by (fun t => inject_Z (fst t)) col))).
  { apply sorted_by_map_NoDup. apply index_by_row_NoDup. exact W. }
  split; [|split; [|split; [|exact N]]].
  - assert (S := sorted_strict (fun t : Z * string => inject_Z (fst t)) snd _
                   (sorted_by_sorted _ col) N).
    eapply StronglySorted_weaken; [|apply S].
    + intros u w L. cbv beta in L. rewrite <- Zlt_Qlt in L. exact L.
    + intros [k1 p1] [k2 p2] I1 I2 E. cbn in *.
      apply sorted_by_In in I1, I2. apply inject_Z_keq in E. subst k2.
      exact (row_same_key col k1 k1 p1 p2 Wcol I1 I2 (keq_refl k1)).
  - intros y pid I. apply sorted_by_In in I. now apply col_entry_point.
  - intros pid p I M. destruct (col_point_entry points reg x pid p I M) as (pid' & Ik).
    exists pid'. now apply sorted_by_In.
Qed.

Lemma ordered_col_points_witness :
  StronglySorted (fun u w => fst u < fst w)
    (ordered_in_col (build_col_index three_points purple) 928)
  /\ ordered_in_col (build_col_index three_points purple) 928 = [(30, "V1"%string)].
Proof.
  split; [|reflexivity].
  apply (ordered_col_points three_points purple 928). cbn. repeat split.
Defined.

(** ** The index of the segments *)

Lemma group_by_nonempty {K A} `{Hashable K} (f : string -> point -> option (K * A))
  (points : points_t) (k : K) (l : list A) :
  In (k, l) (group_by f points) -> l <> [].
Proof.
  unfold group_by. revert k l.
  apply (fold_left_inv (fun out => forall k l, In (k, l) out -> l <> [])).
  - intros [pid p] out _ Hout k l. destruct (f pid p) as [[k0 a]|]; [|apply Hout].
    intros I. apply In_dset in I as [[-> _]|I]; [|now apply (Hout k)].
    intros E. apply app_eq_nil in E as [_ E]. discriminate.
  - intros k l [].
Qed.

Lemma sorted_map_by {A B} (key : A -> Q) (f : A -> B) (g : B -> Q) (l : list A) :
  (forall a, In a l -> g (f a) = key a) ->
  StronglySorted (fun u w => (key u <= key w)%Q) l ->
  StronglySorted (fun u w => (g u <= g w)%Q) (map f l).
Proof.
  induction l as [|a l IH]; intros Hg S; cbn; [constructor|].
  inversion S as [|? ? S' F]; subst. constructor.
  - apply IH; [|exact S']. intros b Ib. apply Hg. now right.
  - rewrite Forall_forall in *. intros y Iy. apply in_map_iff in Iy as (b & <- & Ib).
    rewrite (Hg a (or_introl eq_refl)), (Hg b (or_intror Ib)). now apply F.
Qed.

(** X5.  [build_rowseg_index]: for points with distinct ids, the list
    under the key [(r, s)] is not empty, holds no id twice, holds exactly
    the ids of the points of the region with [meta["seg"] = s] and
    rounded [y] equal to [r], and is in the order of [x]. *)
Theorem rowseg_index_sorted (points : points_t) (reg : region) (r s : Z)
  (ids : list string) :
  dwf points -> In ((r, s), ids) (build_rowseg_index points reg) ->
  ids <> [] /\ NoDup ids
  /\ (forall pid, In pid ids <-> exists p, In (pid, p) points /\ in_segment reg r s p)
  /\ StronglySorted (fun u w => (x_of points u <= x_of points w)%Q) ids.
Proof.
  intros W I.
  assert (Ne : ids <> []).
  { unfold build_rowseg_index in I.
    apply in_map_iff in I as ([key lst] & E & I). inversion E; subst.
    apply group_by_nonempty in I. intros E'. apply map_eq_nil in E'.
    apply I. destruct lst as [|a l]; [reflexivity|].
    assert (Ia : In a (sorted_by fst (a :: l))) by (apply sorted_by_In; now left).
    rewrite E' in Ia. destruct Ia. }
  destruct (rowseg_entry points reg r s ids I) as (lst & -> & Sound & Compl & N).
  split; [exact Ne|]. split; [apply sorted_by_map_NoDup; auto|]. split.
  - intros pid. split.
    + intros Ip. apply in_map_iff in Ip as ([k pid'] & E & Ik). cbn in E. subst pid'.
      apply sorted_by_In in Ik. destruct (Sound k pid Ik) as (p & Ip & M & _). eauto.
    + intros (p & Ip & M). apply in_map_iff. exists (p_x p, pid). split; [reflexivity|].
      apply sorted_by_In. now apply Compl.
  - apply (sorted_map_by fst snd (x_of points)); [|apply sorted_by_sorted].
    intros [k pid] Ik. apply sorted_by_In in Ik.
    destruct (Sound k pid Ik) as (p & Ip & _ & ->). cbn. unfold x_of.
    now rewrite (In_dget _ _ _ W Ip).
Qed.

Lemma rowseg_index_sorted_witness :
  build_rowseg_index three_points orange = [((31, 1), ["O1"%string])]
  /\ NoDup ["O1"%string].
Proof.
  split; [reflexivity|].
  apply (rowseg_index_sorted three_points orange 31 1 ["O1"%string]).
  - cbn. repeat split.
  - cbn. now left.
Defined.

(** ** The samplers outside their contract *)

Lemma sample_loop_none (step x_end : Q) :
  (step <= 0)%Q ->
  forall fuel x xs, (x <= x_end)%Q -> sample_loop fuel x x_end step xs = None.
Proof.
  intros Hs. induction fuel as [|fuel IH]; intros x xs Hx.
  - cbn [sample_loop].
    assert (C : Qle_bool (x + step) (x_end + EPS) = true)
      by (apply Qle_bool_iff; unfold EPS; lra).
    now rewrite C.
  - cbn [sample_loop].
    assert (C : Qle_bool (x + step) (x_end + EPS) = true)
      by (apply Qle_bool_iff; unfold EPS; lra).
    rewrite C. apply IH. lra.
Qed.

Lemma sample_int_loop_none (step y_end : Z) :
  step <= 0 ->
  forall fuel y ys, y <= y_end -> sample_int_loop fuel y y_end step ys = None.
Proof.
  intros Hs. induction fuel as [|fuel IH]; intros y ys Hy.
  - cbn [sample_int_loop]. assert (C : (y + step <=? y_end) = true) by lia. now rewrite C.
  - cbn [sample_int_loop]. assert (C : (y + step <=? y_end) = true) by lia.
    rewrite C. apply IH. lia.
Qed.

(** X6.  With a step that is not positive, the loop of either sampler
    never ends: whatever the number of turns allowed, no list is
    returned. *)
Theorem sampler_step_not_positive :
  (forall fuel s e step, (step <= 0)%Q -> sample_positions_fuel fuel s e step = None)
  /\ (forall fuel s e step,
        step <= 0 -> sample_int_positions_fuel fuel s e step = None).
Proof.
  split.
  - intros fuel s e step Hs. unfold sample_positions_fuel.
    destruct (Qlt_bool e s) eqn:Sw.
    + apply Qlt_bool_true in Sw. rewrite (sample_loop_none step s Hs fuel e [e]); auto.
      now apply Qlt_le_weak.
    + apply Qlt_bool_false in Sw. now rewrite (sample_loop_none step e Hs fuel s [s]).
  - intros fuel s e step Hs. unfold sample_int_positions_fuel.
    destruct (e <? s) eqn:Sw.
    + rewrite (sample_int_loop_none step s Hs fuel e [e]); [reflexivity|lia].
    + rewrite (sample_int_loop_none step e Hs fuel s [s]); [reflexivity|lia].
Qed.

Lemma sampler_step_not_positive_witness :
  sample_positions_fuel 1000 4 20 0 = None
  /\ sample_int_positions_fuel 1000 28 101 (-2) = None.
Proof.
  split.
  - apply (proj1 sampler_step_not_positive). discriminate.
  - apply (proj2 sampler_step_not_positive). lia.
Defined.

(** X7.  Either sampler puts its two bounds in order first: called with
    the bounds swapped it returns the same list. *)
Theorem sampler_swap :
  (forall s e step, (s < e)%Q ->
     sample_positions_including_end e s step = sample_positions_including_end s e step)
  /\ (forall s e step, s < e ->
        sample_int_positions_including_end e s step
        = sample_int_positions_including_end s e step).
Proof.
  split.
  - intros s e step L. unfold sample_positions_including_end, sample_turns.
    rewrite (Qabs_Qminus s e). unfold sample_positions_fuel.
    assert (E1 : Qlt_bool s e = true) by now apply Qlt_bool_true.
    assert (E2 : Qlt_bool e s = false) by (apply Qlt_bool_false; now apply Qlt_le_weak).
    now rewrite E1, E2.
  - intros s e step L. unfold sample_int_positions_including_end, sample_int_turns.
    replace (Z.abs (s - e)) with (Z.abs (e - s)) by lia.
    unfold sample_int_positions_fuel.
    assert (E1 : (s <? e) = true) by lia. assert (E2 : (e <? s) = false) by lia.
    now rewrite E1, E2.
Qed.

Lemma sampler_swap_witness :
  sample_positions_including_end 20 4 5 = sample_positions_including_end 4 20 5
  /\ sample_int_positions_including_end 101 28 5
     = sample_int_positions_including_end 28 101 5.
Proof.
  split.
  - apply (proj1 sampler_swap). reflexivity.
  - apply (proj2 sampler_swap). lia.
Defined.

(** ** The nearest-neighbour searches *)

Lemma bisect_split {A} (key : A -> Q) (l : list A) (y : Q) :
  StronglySorted (fun u w => (key u <= key w)%Q) l ->
  exists l1 l2, l = l1 ++ l2
    /\ List.length l1 = bisect_left (map key l) y
    /\ (forall a, In a l1 -> (key a < y)%Q)
    /\ (forall a, In a l2 -> (y <= key a)%Q).
Proof.
  induction l as [|a l IH]; intros S.
  - exists [], []. cbn. repeat split; intros a [].
  - inversion S as [|? ? S' F]; subst. cbn [map bisect_left].
    destruct (Qlt_bool (key a) y) eqn:L.
    + apply Qlt_bool_true in L. destruct (IH S') as (l1 & l2 & -> & Len & H1 & H2).
      exists (a :: l1), l2. split; [reflexivity|]. split; [cbn; now rewrite Len|].
      split; [|exact H2]. intros b [<-|Ib]; auto.
    + apply Qlt_bool_false in L. exists [], (a :: l). split; [reflexivity|].
      split; [reflexivity|]. split; [intros b []|].
      rewrite Forall_forall in F. intros b [<-|Ib]; [exact L|].
      apply Qle_trans with (key a); auto.
Qed.

Lemma sorted_app_le {A} (R : A -> A -> Prop) (l1 l2 : list A) :
  StronglySorted R (l1 ++ l2) -> forall x y, In x l1 -> In y l2 -> R x y.
Proof.
  induction l1 as [|a l1 IH]; cbn; intros S x y Ix Iy; [destruct Ix|].
  inversion S as [|? ? S' F]; subst. destruct Ix as [<-|Ix].
  - rewrite Forall_forall in F. apply F. apply in_or_app. now right.
  - now apply IH.
Qed.

Lemma sorted_app_tail {A} (R : A -> A -> Prop) (l1 l2 : list A) :
  StronglySorted R (l1 ++ l2) -> StronglySorted R l2.
Proof.
  induction l1 as [|a l1 IH]; cbn; intros Srt; [exact Srt|].
  inversion Srt; subst. now apply IH.
Qed.

Lemma Qabs_below (a b : Q) : (b <= a)%Q -> (a <= 0)%Q -> (Qabs a <= Qabs b)%Q.
Proof.
  intros L N. assert (H := Qle_Qabs (- b)). rewrite Qabs_opp in H.
  apply (proj2 (Qabs_Qle_condition _ _)). split; lra.
Qed.

Lemma Qabs_above (a b : Q) : (0 <= a)%Q -> (a <= b)%Q -> (Qabs a <= Qabs b)%Q.
Proof.
  intros N L. assert (H := Qle_Qabs b).
  apply (proj2 (Qabs_Qle_condition _ _)). split; lra.
Qed.

(** The two candidates around the insertion point are as near to [y] as
    any candidate of the sorted list. *)
Lemma bisect_neighbours (l : list cand3) (y : Q) (c' : cand3) :
  StronglySorted (fun u w => (c_y u <= c_y w)%Q) l -> In c' l ->
  exists n,
    In n (match bisect_left (map c_y l) y with
          | O => []
          | S j => nth_list l j
          end ++ nth_list l (bisect_left (map c_y l) y))
    /\ (Qabs (c_y n - y) <= Qabs (c_y c' - y))%Q.
Proof.
  intros Srt I. destruct (bisect_split c_y l y Srt) as (l1 & l2 & -> & Len & H1 & H2).
  rewrite <- Len. apply in_app_iff in I as [I|I].
  - destruct (exists_last (l := l1)) as (l' & n & ->); [intros ->; destruct I|].
    exists n. split.
    + apply in_or_app. left. rewrite length_app. cbn [List.length].
      replace (List.length l' + 1)%nat with (S (List.length l')) by lia.
      unfold nth_list. rewrite <- app_assoc.
      rewrite nth_error_app2 by lia. rewrite Nat.sub_diag. cbn. now left.
    + assert (Ln : (c_y n < y)%Q) by (apply H1; apply in_or_app; right; now left).
      apply Qabs_below; [|lra].
      apply in_app_iff in I as [I|[<-|[]]]; [|lra].
      assert (S1 : StronglySorted (fun u w => (c_y u <= c_y w)%Q) (l' ++ [n] ++ l2))
        by (rewrite app_assoc; exact Srt).
      assert (L := sorted_app_le _ _ _ S1 c' n I (or_introl eq_refl)). cbv beta in L. lra.
  - destruct l2 as [|n l2]; [destruct I|]. exists n. split.
    + apply in_or_app. right. unfold nth_list.
      rewrite nth_error_app2 by lia. rewrite Nat.sub_diag. cbn. now left.
    + assert (Ln : (y <= c_y n)%Q) by (apply H2; now left).
      apply Qabs_above; [lra|].
      destruct I as [<-|I]; [lra|].
      apply sorted_app_tail in Srt. inversion Srt as [|? ? _ F]; subst.
      rewrite Forall_forall in F. assert (L := F c' I). lra.
Qed.

Lemma firstn_nonempty {A} (n : nat) (l : list A) :
  (0 < n)%nat -> l <> [] -> firstn n l <> [].
Proof. destruct n; [lia|]. destruct l; [congruence|]. discriminate. Qed.

(** X8.  [nearest_by_y_ids]: although it looks at the two candidates
    around the insertion point only, every id it returns is the id of a
    candidate whose distance in [y] is the least one among all the
    candidates, up to the tolerance [2 * EPS]; and with a candidate and a
    positive cap it returns an id. *)
Theorem nearest_by_y_nearest (cands : list cand3) (y : Q) (cap : nat) :
  (forall id, In id (nearest_by_y_ids cands y cap) ->
     exists c, In c cands /\ c_id c = id
       /\ forall c', In c' cands ->
            (Qabs (c_y c - y) <= Qabs (c_y c' - y) + 2 * EPS)%Q)
  /\ (cands <> [] -> (0 < cap)%nat -> nearest_by_y_ids cands y cap <> []).
Proof.
  unfold nearest_by_y_ids. destruct cands as [|c0 cands0] eqn:Ec.
  { split; [intros id []|congruence]. }
  cbn [is_empty]. cbv zeta. rewrite <- Ec.
  set (l := sorted_by c_y cands).
  assert (Srt : StronglySorted (fun u w => (c_y u <= c_y w)%Q) l) by apply sorted_by_sorted.
  set (neigh := match bisect_left (map c_y l) y with
                | O => []
                | S j => nth_list l j
                end ++ nth_list l (bisect_left (map c_y l) y)).
  assert (I0 : In c0 l) by (apply sorted_by_In; rewrite Ec; now left).
  destruct (bisect_neighbours l y c0 Srt I0) as (n0 & In0 & _). fold neigh in In0.
  destruct neigh as [|n1 neigh'] eqn:En; [destruct In0|]. cbn [is_empty].
  rewrite <- En. split.
  - intros id I. apply firstn_In in I. apply (proj1 (uniq_In _ _)) in I.
    apply best_ids_of_near in I as (c & Ic & E & Min).
    exists c. split; [|split; [exact E|]].
    + apply (sorted_by_In c_y). fold l. unfold neigh in Ic.
      apply in_app_iff in Ic as [Ic|Ic].
      * destruct (bisect_left _ _); [destruct Ic|]. eapply nth_list_In; eauto.
      * eapply nth_list_In; eauto.
    + intros c' Ic'. apply (sorted_by_In c_y) in Ic'. fold l in Ic'.
      destruct (bisect_neighbours l y c' Srt Ic') as (n & In_n & Ln). fold neigh in In_n.
      assert (M := Min n In_n). cbv beta in M. lra.
  - intros _ Hcap. apply firstn_nonempty; [exact Hcap|].
    apply uniq_nonempty, best_ids_of_nonempty. rewrite En. discriminate.
Qed.

Lemma nearest_by_y_nearest_witness :
  nearest_by_y_ids [("a"%string, 0%Q, 10%Q); ("b"%string, 0%Q, 30%Q);
                    ("c"%string, 0%Q, 18%Q)] 21 2 <> [].
Proof.
  apply (proj2 (nearest_by_y_nearest _ 21 2)); [discriminate|lia].
Defined.

(** X9.  [nearest_by_x_ids] and [nearest_grey_by_x_in_band]: every id
    returned is the id of a candidate whose distance in [x] is the least
    one among the candidates, up to the tolerance [2 * EPS]; and with a
    candidate and a positive cap an id is returned. *)
Theorem nearest_by_x_nearest (cands : list cand3) (x : Q) (cap : nat) :
  (forall id, In id (nearest_by_x_ids cands x cap) ->
     exists c, In c cands /\ c_id c = id
       /\ forall c', In c' cands ->
            (Qabs (c_x c - x) <= Qabs (c_x c' - x) + 2 * EPS)%Q)
  /\ (cands <> [] -> (0 < cap)%nat -> nearest_by_x_ids cands x cap <> [])
  /\ nearest_grey_by_x_in_band x cands cap = nearest_by_x_ids cands x cap.
Proof.
  split; [|split; [|reflexivity]].
  - unfold nearest_by_x_ids. destruct (is_empty cands); [intros id []|].
    intros id I. apply firstn_In in I. apply (proj1 (uniq_In _ _)) in I.
    now apply best_ids_of_near in I.
  - intros Ne Hcap. unfold nearest_by_x_ids.
    destruct cands as [|c l]; [congruence|]. cbn [is_empty].
    apply firstn_nonempty; [exact Hcap|]. now apply uniq_nonempty, best_ids_of_nonempty.
Qed.

Lemma nearest_by_x_nearest_witness :
  nearest_by_x_ids [("a"%string, 4%Q, 16%Q); ("b"%string, 9%Q, 16%Q)] 8 2 <> [].
Proof.
  apply (proj1 (proj2 (nearest_by_x_nearest _ 8 2))); [discriminate|lia].
Defined.

(** ** Lane changes go both ways *)

Lemma og_lane_changes_le (o g : dict Z (dict Q string)) (nm : next_map_t) :
  nm_le nm (og_lane_changes o g nm).
Proof.
  unfold og_lane_changes. cbv zeta.
  apply (fold_left_inv (fun s => nm_le nm s)); [|apply nm_le_refl].
  intros r s _ Hs.
  apply (fold_left_inv (fun s => nm_le nm s)); [|exact Hs].
  intros r_to s' _ Hs'. eapply nm_le_trans; [exact Hs'|apply og_lane_step_le].
Qed.

Lemma og_allow_sym (r r_to : Z) : og_allow r_to r = og_allow r r_to.
Proof.
  unfold og_allow. f_equal. rewrite orb_comm. f_equal; apply andb_comm.
Qed.

Lemma row_x_index_wf (points : points_t) (reg : region) (r : Z) :
  dwf (dget_or (build_row_x_index points reg) r []).
Proof. apply index_by_row_wf. Qed.

Lemma og_lane_edge_sym (points : points_t) (x y : string) :
  og_lane_edge (build_row_x_index points orange) (build_row_x_index points green) x y ->
  og_lane_edge (build_row_x_index points orange) (build_row_x_index points green) y x.
Proof.
  intros (row_x & r & r_to & k & Hx & Adj & Al & I & G).
  assert (W : dwf (dget_or row_x r [])).
  { destruct Hx; subst row_x; apply row_x_index_wf. }
  apply dget_In in G as (k' & I' & E).
  exists row_x, r_to, r, k'. split; [exact Hx|]. split; [lia|].
  split; [now rewrite og_allow_sym|]. split; [exact I'|].
  rewrite <- (dget_keq _ _ _ E). now apply In_dget.
Qed.

(** X10.  The orange and green lane changes, on the points of the
    generation phase: the edges after the step are the edges before it
    and the lane edges (from the id at an [x] of a row to the id at the
    same [x] of an adjacent row of the same region, the pair 125, 126
    apart), no other; and with a lane edge its reverse is a lane edge. *)
Theorem og_lane_changes_exact (ws : worksheet) (a : anchors) :
  exists st, generate ws a = Done st
    /\ forall nm x y,
         (edge (og_lane_changes (build_row_x_index (fst st) orange)
                  (build_row_x_index (fst st) green) nm) x y
          <-> edge nm x y
              \/ og_lane_edge (build_row_x_index (fst st) orange)
                   (build_row_x_index (fst st) green) x y)
         /\ (og_lane_edge (build_row_x_index (fst st) orange)
               (build_row_x_index (fst st) green) x y ->
             og_lane_edge (build_row_x_index (fst st) orange)
               (build_row_x_index (fst st) green) y x).
Proof.
  destruct (generate_ok ws a) as (st & E & W & O & _).
  exists st. split; [exact E|]. intros nm x y. split; [split|].
  - apply og_lane_changes_edge.
  - intros [Ed|(row_x & r & r_to & k & Hx & Adj & Al & I & G)].
    + now apply og_lane_changes_le.
    + assert (T : truthy y = true).
      { apply dget_In in G as (k2 & Iy & _).
        assert (R : exists reg, row_x = build_row_x_index (fst st) reg)
          by (destruct Hx; subst; eauto).
        destruct R as (reg & ->).
        destruct (row_x_entry_point _ _ _ _ _ W Iy) as (p2 & G2 & _ & Kd & _).
        apply sdget_In in G2. exact (origin_seg_truthy ws a y p2 (O _ _ G2) Kd). }
      eapply og_lane_changes_adds; eauto.
  - apply og_lane_edge_sym.
Qed.

Lemma og_lane_changes_exact_witness :
  exists st, generate og_sheet small_anchors = Done st
    /\ edge (og_lane_changes (build_row_x_index (fst st) orange)
               (build_row_x_index (fst st) green) [])
         "OR_R127_S01_0000" "OR_R126_S01_0000".
Proof.
  destruct (og_lane_changes_exact og_sheet small_anchors) as (st & E & H).
  exists st. split; [exact E|].
  assert (L : match generate og_sheet small_anchors with
              | Done st =>
                  (dget (dget_or (build_row_x_index (fst st) orange) 126 []) 9%Q,
                   dget (dget_or (build_row_x_index (fst st) orange) 127 []) 9%Q)
              | _ => (None, None)
              end
              = (Some "OR_R126_S01_0000"%string, Some "OR_R127_S01_0000"%string))
    by (vm_compute; reflexivity).
  rewrite E in L. inversion L as [[L1 L2]].
  destruct (H [] "OR_R126_S01_0000"%string "OR_R127_S01_0000"%string) as [Iff Sym].
  apply (proj1 (H [] "OR_R127_S01_0000"%string "OR_R126_S01_0000"%string)).
  right. apply Sym.
  assert (L1' := L1). apply dget_In in L1' as (k' & I' & Ek).
  exists (build_row_x_index (fst st) orange), 126, 127, k'.
  split; [now left|]. split; [now right|]. split; [reflexivity|]. split; [exact I'|].
  rewrite <- (dget_keq _ _ _ Ek). exact L2.
Defined.

Lemma purple_pairs_sym (r r_to : Z) :
  In (r, r_to) purple_lane_pairs -> In (r_to, r) purple_lane_pairs.
Proof.
  intros I. vm_compute in I.
  repeat (destruct I as [I|I]; [inversion I; subst; vm_compute; tauto|]).
  destruct I.
Qed.

Lemma origin_row_truthy (ws : worksheet) (a : anchors) (pid : string) (p : point) :
  origin ws a pid p -> in_row purple (py_round (p_y p)) p -> truthy pid = true.
Proof.
  intros O (R & Kd & _).
  destruct O as [| | |tag sig reg r s c1 c2 i x xs F _ _ _|]; cbn in R, Kd;
    try discriminate; try reflexivity.
  - destruct F as [(_ & _ & ->)|(_ & _ & ->)]; discriminate.
  - destruct Kd; discriminate.
Qed.

Lemma purple_lane_changes_edge (idx : dict Z (dict Q string)) (nm : next_map_t)
  (x y : string) :
  edge (purple_lane_changes idx nm) x y -> edge nm x y \/ purple_lane_edge idx x y.
Proof.
  unfold purple_lane_changes. revert x y.
  apply (fold_left_inv
    (fun s => forall x y, edge s x y -> edge nm x y \/ purple_lane_edge idx x y));
    [|now left].
  intros [r r_to] s I Hs x y Ed.
  change (edge (lane_change_og idx r r_to true s) x y) in Ed.
  apply lane_change_og_edge in Ed. destruct Ed as [Ed|(_ & k & Ik & G)]; [now apply Hs|].
  right. exists r, r_to, k. auto.
Qed.

Lemma purple_lane_changes_le (idx : dict Z (dict Q string)) (nm : next_map_t) :
  nm_le nm (purple_lane_changes idx nm).
Proof.
  unfold purple_lane_changes.
  apply (fold_left_inv (fun s => nm_le nm s)); [|apply nm_le_refl].
  intros [r r_to] s _ Hs. eapply nm_le_trans; [exact Hs|].
  change (nm_le s (lane_change_og idx r r_to true s)). apply lane_change_og_le.
Qed.

Lemma purple_lane_changes_adds (idx : dict Z (dict Q string)) (nm : next_map_t)
  (x y : string) :
  truthy y = true -> purple_lane_edge idx x y ->
  edge (purple_lane_changes idx nm) x y.
Proof.
  intros T (r & r_to & k & Ip & Ik & G). unfold purple_lane_changes.
  apply (fold_left_reach (fun s => edge s x y)) with (r := (r, r_to)); [| |exact Ip].
  - intros s [r1 r2] Es.
    change (edge (lane_change_og idx r1 r2 true s) x y). now apply lane_change_og_le.
  - intros s. change (edge (lane_change_og idx r r_to true s) x y).
    eapply lane_change_og_adds; eauto.
Qed.

(** X11.  The purple lane changes, on the points of the generation
    phase: the edges after the step are the edges before it and the lane
    edges (from the id at an [x] of a row to the id at the same [x] of the
    other row of a listed pair), no other; every lane edge joins two
    purple points of the two rows with the same [x]; and with a lane edge
    its reverse is a lane edge. *)
Theorem purple_lane_changes_exact (ws : worksheet) (a : anchors) :
  exists st, generate ws a = Done st
    /\ forall nm x y,
         (edge (purple_lane_changes (build_row_index (fst st) purple) nm) x y
          <-> edge nm x y \/ purple_lane_edge (build_row_index (fst st) purple) x y)
         /\ (purple_lane_edge (build_row_index (fst st) purple) x y ->
             purple_lane_edge (build_row_index (fst st) purple) y x
             /\ exists r r_to px py,
                  In (r, r_to) purple_lane_pairs
                  /\ In (x, px) (fst st) /\ In (y, py) (fst st)
                  /\ in_row purple r px /\ in_row purple r_to py
                  /\ (p_x px == p_x py)%Q).
Proof.
  destruct (generate_ok ws a) as (st & E & W & O & _).
  exists st. split; [exact E|]. intros nm x y.
  set (idx := build_row_index (fst st) purple).
  assert (Pts : purple_lane_edge idx x y ->
            exists r r_to px py,
              In (r, r_to) purple_lane_pairs
              /\ In (x, px) (fst st) /\ In (y, py) (fst st)
              /\ in_row purple r px /\ in_row purple r_to py
              /\ (p_x px == p_x py)%Q).
  { intros (r & r_to & k & Ip & Ik & G). apply dget_In in G as (k' & Ik' & Ek).
    apply Q_keq in Ek.
    destruct (row_entry_point _ _ _ _ _ W Ik) as (px & Ix & Mx & Xx).
    destruct (row_entry_point _ _ _ _ _ W Ik') as (py & Iy & My & Xy).
    exists r, r_to, px, py. repeat (split; [assumption|]).
    rewrite <- Xx, <- Xy. exact Ek. }
  split; [split|].
  - apply purple_lane_changes_edge.
  - intros [Ed|L]; [now apply purple_lane_changes_le|].
    apply purple_lane_changes_adds; [|exact L].
    destruct (Pts L) as (r & r_to & px & py & _ & _ & Iy & _ & My & _).
    apply (origin_row_truthy ws a y py (O _ _ Iy)).
    destruct My as (R & Kd & Y). subst r_to. split; auto.
  - intros L. split; [|now apply Pts].
    destruct L as (r & r_to & k & Ip & Ik & G).
    assert (Wr : dwf (dget_or idx r [])) by apply index_by_row_wf.
    apply dget_In in G as (k' & I' & Ek).
    exists r_to, r, k'. split; [now apply purple_pairs_sym|]. split; [exact I'|].
    rewrite <- (dget_keq _ _ _ Ek). now apply In_dget.
Qed.

Lemma purple_lane_changes_exact_witness :
  exists st, generate lane_sheet small_anchors = Done st
    /\ edge (purple_lane_changes (build_row_index (fst st) purple) [])
         "PUH_R014_0001" "PUH_R013_0001".
Proof.
  destruct (purple_lane_changes_exact lane_sheet small_anchors) as (st & E & H).
  exists st. split; [exact E|].
  assert (L : match generate lane_sheet small_anchors with
              | Done st =>
                  (dget (dget_or (build_row_index (fst st) purple) 13 []) 9%Q,
                   dget (dget_or (build_row_index (fst st) purple) 14 []) 9%Q)
              | _ => (None, None)
              end
              = (Some "PUH_R013_0001"%string, Some "PUH_R014_0001"%string))
    by (vm_compute; reflexivity).
  rewrite E in L. inversion L as [[L1 L2]].
  destruct (H [] "PUH_R013_0001"%string "PUH_R014_0001"%string) as [_ Sym].
  apply (proj1 (H [] "PUH_R014_0001"%string "PUH_R013_0001"%string)).
  right. apply Sym.
  assert (L1' := L1). apply dget_In in L1' as (k' & I' & Ek).
  exists 13, 14, k'. split; [vm_compute; tauto|]. split; [exact I'|].
  rewrite <- (dget_keq _ _ _ Ek). exact L2.
Defined.

(** ** The point at a coordinate *)

Lemma filter_m_spec {A} (f : A -> outcome bool) (g : A -> bool) (l : list A) :
  (forall a, In a l -> f a = Done (g a)) -> filter_m f l = Done (filter g l).
Proof.
  induction l as [|a l IH]; cbn; intros Hf; [reflexivity|].
  rewrite (Hf a (or_introl eq_refl)). cbn. rewrite IH; [|intros; apply Hf; now right].
  cbn. now destruct (g a).
Qed.

Lemma find_m_spec {A} (f : A -> outcome bool) (g : A -> bool) (l : list A) :
  (forall a, In a l -> f a = Done (g a)) -> find_m f l = Done (find g l).
Proof.
  induction l as [|a l IH]; cbn; intros Hf; [reflexivity|].
  rewrite (Hf a (or_introl eq_refl)). cbn. destruct (g a); [reflexivity|].
  apply IH. intros; apply Hf; now right.
Qed.

Lemma coord_index_complete (points : points_t) (x y : Q) (pid : string) (p : point) :
  In (pid, p) points -> (x == p_x p)%Q -> (y == p_y p)%Q ->
  In pid (dget_or (build_coord_index points) (x, y) []).
Proof.
  intros I Ex Ey. unfold build_coord_index. rewrite group_by_spec.
  apply in_flat_map. exists (pid, p). split; [exact I|].
  unfold group_sel. cbn [fst snd].
  match goal with
  | |- In pid (if ?b then _ else _) =>
      assert (Hb : b = true) by exact (coord_keq _ _ _ _ Ex Ey); rewrite Hb
  end.
  now left.
Qed.

(** X12.  [get_pid_at] on the coordinate index of points with distinct
    ids: it returns; an id returned is the id of a point at the
    coordinate, outside the excluded region; [None] is returned only when
    every point at the coordinate is in the excluded region; and when a
    point of the preferred region, not excluded, is at the coordinate,
    the id returned is of a point of the preferred region. *)
Theorem get_pid_at_choice (points : points_t) (x y : Q)
  (prefer exclude : option region) :
  dwf points ->
  exists r,
    get_pid_at points (build_coord_index points) x y prefer exclude = Done r
    /\ (forall pid, r = Some pid ->
          exists p, In (pid, p) points /\ (x == p_x p)%Q /\ (y == p_y p)%Q
                    /\ exclude <> Some (p_region p))
    /\ (r = None ->
        forall pid p, In (pid, p) points -> (x == p_x p)%Q -> (y == p_y p)%Q ->
          exclude = Some (p_region p))
    /\ (forall pid p, In (pid, p) points -> (x == p_x p)%Q -> (y == p_y p)%Q ->
          exclude <> Some (p_region p) -> prefer = Some (p_region p) ->
          exists pid' p', r = Some pid' /\ In (pid', p') points
                          /\ p_region p' = p_region p).
Proof.
  intros W. unfold get_pid_at.
  set (cands := dget_or (build_coord_index points) (x, y) []).
  assert (Hc : forall pid, In pid cands ->
             exists p, dget points pid = Some p /\ (x == p_x p)%Q /\ (y == p_y p)%Q)
    by (intros pid; apply coord_index_In; exact W).
  assert (Hcomp : forall pid p, In (pid, p) points -> (x == p_x p)%Q -> (y == p_y p)%Q ->
             In pid cands) by (intros; eapply coord_index_complete; eauto).
  cbv zeta. destruct (is_empty cands) eqn:Em.
  { assert (E0 : cands = []) by (destruct cands; [reflexivity|discriminate]).
    exists None. split; [reflexivity|]. split; [discriminate|]. split.
    - intros _ pid p I Ex Ey. assert (Ic := Hcomp pid p I Ex Ey). rewrite E0 in Ic.
      destruct Ic.
    - intros pid p I Ex Ey. assert (Ic := Hcomp pid p I Ex Ey). rewrite E0 in Ic.
      destruct Ic. }
  set (kept := match exclude with
               | Some ex => filter (not_in_region points ex) cands
               | None => cands
               end).
  assert (Ek : match exclude with
               | Some ex => filter_m (region_is_not points ex) cands
               | None => Done cands
               end = Done kept).
  { unfold kept. destruct exclude as [ex|]; [|reflexivity].
    apply filter_m_spec. intros pid Ip. destruct (Hc pid Ip) as (p & G & _).
    unfold not_in_region. rewrite G. now apply region_is_not_done. }
  rewrite Ek. cbn [bind].
  assert (Hk : forall pid, In pid kept <->
             exists p, In (pid, p) points /\ (x == p_x p)%Q /\ (y == p_y p)%Q
                       /\ exclude <> Some (p_region p)).
  { intros pid. unfold kept. split.
    - intros Ip.
      assert (Ic : In pid cands).
      { destruct exclude; [apply filter_In in Ip; tauto|exact Ip]. }
      destruct (Hc pid Ic) as (p & G & Ex & Ey). exists p.
      split; [now apply sdget_In|]. split; [exact Ex|]. split; [exact Ey|].
      destruct exclude as [ex|]; [|discriminate].
      apply filter_In in Ip as [_ Ip]. unfold not_in_region in Ip. rewrite G in Ip.
      apply negb_true_iff, region_eqb_neq in Ip. congruence.
    - intros (p & I & Ex & Ey & N). assert (Ic := Hcomp pid p I Ex Ey).
      destruct exclude as [ex|]; [|exact Ic]. apply filter_In. split; [exact Ic|].
      unfold not_in_region. rewrite (In_dget _ _ _ W I).
      apply negb_true_iff. apply region_eqb_neq. congruence. }
  assert (Hnone : kept = [] ->
            forall pid p, In (pid, p) points -> (x == p_x p)%Q -> (y == p_y p)%Q ->
              exclude = Some (p_region p)).
  { intros E0 pid p I Ex Ey.
    destruct exclude as [ex|] eqn:Eex.
    - destruct (region_eqb (p_region p) ex) eqn:R;
        [apply region_eqb_eq in R; congruence|].
      apply region_eqb_neq in R. exfalso.
      assert (Ik : In pid kept) by (apply Hk; exists p; repeat split; auto; congruence).
      rewrite E0 in Ik. destruct Ik.
    - exfalso.
      assert (Ik : In pid kept) by (apply Hk; exists p; repeat split; auto; discriminate).
      rewrite E0 in Ik. destruct Ik. }
  destruct kept as [|first rest] eqn:Ekept.
  { exists None. split; [reflexivity|]. split; [discriminate|]. split.
    - intros _. now apply Hnone.
    - intros pid p I Ex Ey N _. exfalso.
      assert (Ik : In pid []) by (apply Hk; eauto). destruct Ik. }
  destruct prefer as [pr|].
  - assert (Ef : find_m (region_is points pr) (first :: rest)
                 = Done (find (in_region points pr) (first :: rest))).
    { apply find_m_spec. intros pid Ip. apply Hk in Ip as (p & I & _).
      unfold in_region. rewrite (In_dget _ _ _ W I). apply region_is_done.
      now apply In_dget. }
    rewrite Ef. cbn [bind].
    destruct (find (in_region points pr) (first :: rest)) as [hit|] eqn:Fd.
    + exists (Some hit). split; [reflexivity|].
      apply find_some in Fd as [Ih Rh].
      split; [intros pid E; inversion E; subst; now apply Hk|].
      split; [discriminate|].
      intros pid p I Ex Ey N Pr. apply Hk in Ih as (ph & Ih & _).
      exists hit, ph. split; [reflexivity|]. split; [exact Ih|].
      unfold in_region in Rh. rewrite (In_dget _ _ _ W Ih) in Rh.
      apply region_eqb_eq in Rh. congruence.
    + exists (Some first). split; [reflexivity|].
      split; [intros pid E; inversion E; subst; apply Hk; now left|].
      split; [discriminate|].
      intros pid p I Ex Ey N Pr. exfalso.
      assert (Ik : In pid (first :: rest)) by (apply Hk; eauto).
      assert (F := find_none _ _ Fd pid Ik). unfold in_region in F.
      rewrite (In_dget _ _ _ W I) in F. apply region_eqb_neq in F. congruence.
  - exists (Some first). split; [reflexivity|].
    split; [intros pid E; inversion E; subst; apply Hk; now left|].
    split; [discriminate|]. intros pid p _ _ _ _ Pr. discriminate.
Qed.

Lemma get_pid_at_choice_witness :
  exists r,
    get_pid_at three_points (build_coord_index three_points) 9 13 (Some blue) None
    = Done r
    /\ r = Some "P2"%string.
Proof.
  destruct (get_pid_at_choice three_points 9 13 (Some blue) None) as (r & E & _).
  - cbn. repeat split.
  - exists r. split; [exact E|]. cbn in E. congruence.
Defined.

(** ** The exported nodes *)

Lemma exported_ids (nm : next_map_t) (points : points_t) :
  map (fun n => (p_x n, p_y n, p_region n, p_meta n))
      (map snd (attach_next nm (flag_inout points)))
  = map (fun item => (p_x (snd item), p_y (snd item), p_region (snd item),
                      p_meta (snd item))) points
  /\ map p_id (map snd (attach_next nm (flag_inout points)))
     = map (fun item => p_id (snd item)) points.
Proof.
  unfold attach_next, flag_inout. rewrite !map_map.
  split; apply map_ext; now intros [pid p].
Qed.

(** X13.  The exported node list: with the anchors found, [main] returns
    one node per generated point, in the order of generation, with the
    point's id, coordinates, region and meta; the ids are pairwise
    distinct, and every node has its ["inout"] and ["next"] fields. *)
Theorem exported_nodes (ws : worksheet) :
  anchors_found ws = true ->
  exists a st g,
    detect_anchors ws = Done a /\ generate ws a = Done st /\ main ws = Done g
    /\ map p_id g = map fst (fst st)
    /\ NoDup (map p_id g)
    /\ map (fun n => (p_x n, p_y n, p_region n, p_meta n)) g
       = map (fun item => (p_x (snd item), p_y (snd item), p_region (snd item),
                           p_meta (snd item))) (fst st)
    /\ forall n, In n g -> p_inout n <> None /\ p_next n <> None.
Proof.
  intros F. destruct (detect_anchors_found ws F) as (a & Ea).
  destruct (generate_ok ws a) as (st & Eg & W & O & B).
  destruct (connect_ok ws a (fst st) W) as (nm & Ec & _).
  { apply (gen_inv_blue_cells ws a st). repeat split; auto; apply B. }
  exists a, st, (map snd (attach_next nm (flag_inout (fst st)))).
  split; [exact Ea|]. split; [exact Eg|]. split.
  { unfold main. rewrite Ea. cbn [bind]. rewrite Eg. cbn [bind]. now rewrite Ec. }
  destruct (exported_ids nm (fst st)) as [Ex Ei].
  assert (Ids : map p_id (map snd (attach_next nm (flag_inout (fst st))))
                = map fst (fst st)).
  { rewrite Ei. apply map_ext_in. intros [pid p] I. cbn.
    exact (origin_id ws a pid p (O pid p I)). }
  split; [exact Ids|]. split; [rewrite Ids; now apply dwf_NoDup_keys|].
  split; [exact Ex|].
  intros n I. apply exported_point in I as (pid & p & _ & ->). cbn. split; discriminate.
Qed.

Lemma exported_nodes_witness :
  exists a st g,
    detect_anchors small_sheet = Done a /\ generate small_sheet a = Done st
    /\ main small_sheet = Done g /\ NoDup (map p_id g).
Proof.
  destruct (exported_nodes small_sheet eq_refl) as (a & st & g & Ea & Eg & Em & _ & N & _).
  exists a, st, g. auto.
Defined.

(** X14.  The in/out rule in the exported graph: with the anchors found,
    a blue node is never flagged; a purple node is flagged exactly in
    the rows 13..16 and 235..238 and in the columns AJB..AJE; an orange
    node exactly in the listed orange rows and a green node exactly in
    the rows 120 and 131, by the rounded coordinates of the node. *)
Theorem inout_rule (ws : worksheet) :
  anchors_found ws = true ->
  exists g, main ws = Done g
    /\ forall n, In n g ->
         let x := py_round (p_x n) in
         let y := py_round (p_y n) in
         match p_region n with
         | blue => p_inout n = Some false
         | grey => p_inout n = Some true
         | purple =>
             p_inout n = Some (zmem y [13; 14; 15; 16; 235; 236; 237; 238]
                               || ((x_AJB <=? x) && (x <=? x_AJE)))
         | orange =>
             p_inout n = Some (zmem y [31; 54; 57; 80; 83; 106; 109; 142; 145; 168;
                                       171; 194; 197; 220])
         | green => p_inout n = Some (zmem y [120; 131])
         end.
Proof.
  intros F. destruct (main_done ws F) as (a & st & nm & _ & _ & _ & _ & E).
  eexists. split; [exact E|]. intros n I.
  apply exported_point in I as (pid & p & _ & ->). cbn.
  unfold inout_flag. destruct (p_region p); reflexivity.
Qed.

Lemma inout_rule_witness :
  exists g, main small_sheet = Done g
    /\ forall n, In n g -> p_region n = blue -> p_inout n = Some false.
Proof.
  destruct (inout_rule small_sheet eq_refl) as (g & E & H).
  exists g. split; [exact E|]. intros n I B. specialize (H n I). cbv zeta in H.
  now rewrite B in H.
Defined.

(** ** The bridging steps, edge by edge *)

Lemma fold_edges {A} (F : A -> next_map_t -> next_map_t)
  (New : A -> string -> string -> Prop) (l : list A) :
  (forall a nm x y, edge (F a nm) x y <-> edge nm x y \/ New a x y) ->
  forall nm x y,
    edge (fold_left (fun nm a => F a nm) l nm) x y
    <-> edge nm x y \/ exists a, In a l /\ New a x y.
Proof.
  intros HF. induction l as [|a l IH]; cbn [fold_left]; intros nm x y.
  - split; [now left|]. intros [E|(a & [] & _)]. exact E.
  - rewrite IH, HF. split.
    + intros [[E|N]|(b & I & N)].
      * now left.
      * right. exists a. split; [now left|exact N].
      * right. exists b. split; [now right|exact N].
    + intros [E|(b & [<-|I] & N)].
      * left. now left.
      * left. now right.
      * right. exists b. auto.
Qed.

Lemma link_both_ways (a : string) (ids : list string) (nm : next_map_t) (x y : string) :
  edge (link_both a ids nm) x y <-> edge nm x y \/ both_ways a ids x y.
Proof. apply link_both_edge. Qed.

Lemma both_ways_sym (a : string) (ids : list string) (x y : string) :
  both_ways a ids x y -> both_ways a ids y x.
Proof. intros (t & I & H). exists t. split; [exact I|tauto]. Qed.

(** X15.  The bridging steps add two-way links only, to nearest
    candidates.  After [link_grey_v] the edges are those before it and,
    for every vertical grey point, the two edges between it and each of
    its nearest AIV and AJB candidates in [y]; after [link_grey_h], for
    every grey point of a band, the two edges between it and each of its
    nearest points in [x] of the two rows that bound the band; after
    [link_blue_rows], for every blue cell of the columns E..AIL in row 22
    or 229, the two edges between it and each of its nearest grey points
    in [x] of the band next to the row. *)
Theorem bridging_links :
  (forall gv aiv ajb nm x y,
     edge (link_grey_v gv aiv ajb nm) x y
     <-> edge nm x y
         \/ exists g, In g gv
              /\ (both_ways (c_id g) (nearest_by_y_ids aiv (c_y g) 2) x y
                  \/ both_ways (c_id g) (nearest_by_y_ids ajb (c_y g) 2) x y))
  /\ (forall points gh nm x y,
        edge (link_grey_h points gh nm) x y
        <-> edge nm x y
            \/ exists g, In g gh
                 /\ exists r1 r2,
                      (if (17 <=? py_round (c_y g)) && (py_round (c_y g) <=? 21)
                       then r1 = 16 /\ r2 = 22 else r1 = 229 /\ r2 = 235)
                      /\ (both_ways (c_id g)
                            (nearest_by_x_ids (pb_row points r1) (c_x g) 2) x y
                          \/ both_ways (c_id g)
                               (nearest_by_x_ids (pb_row points r2) (c_x g) 2) x y))
  /\ (forall points gh nm x y,
        edge (link_blue_rows points gh nm) x y
        <-> edge nm x y
            \/ exists pid p, In (pid, p) points
                 /\ p_region p = blue /\ p_kind p = KCell
                 /\ x_E <= py_round (p_x p) <= x_AIL
                 /\ ((py_round (p_y p) = 22
                      /\ both_ways pid
                           (nearest_grey_by_x_in_band (p_x p) (grey_band_17_21 gh) 2) x y)
                     \/ (py_round (p_y p) = 229
                         /\ both_ways pid
                              (nearest_grey_by_x_in_band (p_x p)
                                 (grey_band_230_234 gh) 2) x y)))
  /\ (forall a ids x y, both_ways a ids x y -> both_ways a ids y x).
Proof.
  split; [|split; [|split; [|apply both_ways_sym]]].
  - intros gv aiv ajb nm x y. unfold link_grey_v.
    apply (fold_edges
      (fun g nm => link_both (c_id g) (nearest_by_y_ids ajb (c_y g) 2)
                     (link_both (c_id g) (nearest_by_y_ids aiv (c_y g) 2) nm))
      (fun g x y => both_ways (c_id g) (nearest_by_y_ids aiv (c_y g) 2) x y
                    \/ both_ways (c_id g) (nearest_by_y_ids ajb (c_y g) 2) x y)).
    intros g s u w. rewrite !link_both_ways. tauto.
  - intros points gh nm x y. unfold link_grey_h. cbv zeta.
    apply (fold_edges
      (fun g nm =>
         if (17 <=? py_round (c_y g)) && (py_round (c_y g) <=? 21)
         then link_both (c_id g) (nearest_by_x_ids (pb_row points 22) (c_x g) 2)
                (link_both (c_id g) (nearest_by_x_ids (pb_row points 16) (c_x g) 2) nm)
         else link_both (c_id g) (nearest_by_x_ids (pb_row points 235) (c_x g) 2)
                (link_both (c_id g) (nearest_by_x_ids (pb_row points 229) (c_x g) 2) nm))
      (fun g x y =>
         exists r1 r2,
           (if (17 <=? py_round (c_y g)) && (py_round (c_y g) <=? 21)
            then r1 = 16 /\ r2 = 22 else r1 = 229 /\ r2 = 235)
           /\ (both_ways (c_id g) (nearest_by_x_ids (pb_row points r1) (c_x g) 2) x y
               \/ both_ways (c_id g)
                    (nearest_by_x_ids (pb_row points r2) (c_x g) 2) x y))).
    intros g s u w. destruct ((17 <=? py_round (c_y g)) && (py_round (c_y g) <=? 21));
      rewrite !link_both_ways; split.
    + intros [[E|B]|B]; [now left| |]; right; exists 16, 22; tauto.
    + intros [E|(r1 & r2 & [-> ->] & B)]; tauto.
    + intros [[E|B]|B]; [now left| |]; right; exists 229, 235; tauto.
    + intros [E|(r1 & r2 & [-> ->] & B)]; tauto.
  - intros points gh nm x y. unfold link_blue_rows. cbv zeta.
    fold (grey_band_17_21 gh). fold (grey_band_230_234 gh).
    set (F := fun (item : string * point) (nm : next_map_t) =>
      let '(pid, p) := item in
      if negb (region_eqb (p_region p) blue) then nm
      else if negb (kind_eqb (p_kind p) KCell) then nm
      else if (py_round (p_x p) <? x_E) || (py_round (p_x p) >? x_AIL) then nm
      else if py_round (p_y p) =? 22
           then link_both pid
                  (nearest_grey_by_x_in_band (p_x p) (grey_band_17_21 gh) 2) nm
           else if py_round (p_y p) =? 229
                then link_both pid
                       (nearest_grey_by_x_in_band (p_x p) (grey_band_230_234 gh) 2) nm
                else nm).
    set (New := fun (item : string * point) (x y : string) =>
      p_region (snd item) = blue /\ p_kind (snd item) = KCell
      /\ x_E <= py_round (p_x (snd item)) <= x_AIL
      /\ ((py_round (p_y (snd item)) = 22
           /\ both_ways (fst item)
                (nearest_grey_by_x_in_band (p_x (snd item)) (grey_band_17_21 gh) 2) x y)
          \/ (py_round (p_y (snd item)) = 229
              /\ both_ways (fst item)
                   (nearest_grey_by_x_in_band (p_x (snd item))
                      (grey_band_230_234 gh) 2) x y))).
    assert (HF : forall a s u w, edge (F a s) u w <-> edge s u w \/ New a u w).
    { intros [pid p] s u w. unfold F, New. cbn [fst snd].
      destruct (region_eqb (p_region p) blue) eqn:R; cbn [negb].
      2:{ apply region_eqb_neq in R. tauto. }
      apply region_eqb_eq in R.
      destruct (kind_eqb (p_kind p) KCell) eqn:Kd; cbn [negb].
      2:{ assert (p_kind p <> KCell) by (intros E; apply kind_eqb_eq in E; congruence).
          tauto. }
      apply kind_eqb_eq in Kd.
      destruct ((py_round (p_x p) <? x_E) || (py_round (p_x p) >? x_AIL)) eqn:Rg.
      { apply orb_true_iff in Rg. split; [now left|]. intros [E|(_ & _ & Hx & _)]; [exact E|].
        destruct Rg as [Rg|Rg]; lia. }
      apply orb_false_iff in Rg as [Rg1 Rg2].
      assert (Hx : x_E <= py_round (p_x p) <= x_AIL) by lia.
      destruct (py_round (p_y p) =? 22) eqn:Y1.
      { apply Z.eqb_eq in Y1. rewrite link_both_ways. split.
        - intros [E|B]; [now left|]. right. auto 6.
        - intros [E|(_ & _ & _ & [[_ B]|[Y2 _]])]; [now left|now right|lia]. }
      apply Z.eqb_neq in Y1.
      destruct (py_round (p_y p) =? 229) eqn:Y2.
      { apply Z.eqb_eq in Y2. rewrite link_both_ways. split.
        - intros [E|B]; [now left|]. right. auto 6.
        - intros [E|(_ & _ & _ & [[Y _]|[_ B]])]; [now left|lia|now right]. }
      apply Z.eqb_neq in Y2. split; [now left|].
      intros [E|(_ & _ & _ & [[Y _]|[Y _]])]; [exact E|lia|lia]. }
    assert (G := fold_edges F New points HF nm x y).
    assert (Efold : fold_left (fun nm a => F a nm) points nm
                    = fold_left
                        (fun nm '(pid, p) =>
                           if negb (region_eqb (p_region p) blue) then nm
                           else if negb (kind_eqb (p_kind p) KCell) then nm
                           else if (py_round (p_x p) <? x_E) || (py_round (p_x p) >? x_AIL)
                                then nm
                                else if py_round (p_y p) =? 22
                                     then link_both pid
                                            (nearest_grey_by_x_in_band (p_x p)
                                               (grey_band_17_21 gh) 2) nm
                                     else if py_round (p_y p) =? 229
                                          then link_both pid
                                                 (nearest_grey_by_x_in_band (p_x p)
                                                    (grey_band_230_234 gh) 2) nm
                                          else nm)
                        points nm).
    { clear G. revert nm. induction points as [|[pid p] l IH]; cbn [fold_left]; intros s;
        [reflexivity|]. rewrite IH. reflexivity. }
    rewrite <- Efold, G. unfold New. split.
    + intros [E|([pid p] & I & H)]; [now left|]. right. exists pid, p. cbn in H. tauto.
    + intros [E|(pid & p & I & H)]; [now left|]. right. exists (pid, p). cbn. tauto.
Qed.

Lemma bridging_links_witness : both_ways "g" ["t"%string] "t" "g".
Proof.
  apply (proj2 (proj2 (proj2 bridging_links))).
  exists "t"%string. split; [now left|]. left. split; reflexivity.
Defined.

(** ** The test for a grey neighbour *)

Lemma any_m_spec {A} (f : A -> outcome bool) (g : A -> bool) (l : list A) :
  (forall a, In a l -> f a = Done (g a)) -> any_m f l = Done (existsb g l).
Proof.
  induction l as [|a l IH]; cbn; intros Hf; [reflexivity|].
  rewrite (Hf a (or_introl eq_refl)). cbn. destruct (g a); [reflexivity|].
  apply IH. intros; apply Hf; now right.
Qed.

(** X16.  [has_any_grey_neighbor]: when every id stored as a neighbour
    of [pid] is an id of [points], the test returns, and it returns true
    exactly when one of the neighbours of [pid] is a grey point; with no
    neighbour stored it returns false. *)
Theorem has_any_grey_neighbor_spec (points : points_t) (nm : next_map_t) (pid : string) :
  (forall t, edge nm pid t -> dget points t <> None) ->
  exists b, has_any_grey_neighbor points nm pid = Done b
    /\ (b = true <-> exists t p, edge nm pid t /\ dget points t = Some p
                                /\ p_region p = grey)
    /\ (dget nm pid = None -> b = false).
Proof.
  intros Hk. unfold has_any_grey_neighbor, edge in *.
  set (outs := dget_or nm pid []) in *.
  assert (E : any_m (region_is points grey) outs
              = Done (existsb (in_region points grey) outs)).
  { apply any_m_spec. intros t It. unfold in_region.
    destruct (dget points t) as [p|] eqn:G; [|now apply Hk in It].
    now apply region_is_done. }
  exists (existsb (in_region points grey) outs). split; [|split].
  - destruct outs; [reflexivity|exact E].
  - rewrite existsb_exists. unfold in_region. split.
    + intros (t & It & R). destruct (dget points t) as [p|] eqn:G; [|discriminate].
      apply region_eqb_eq in R. eauto.
    + intros (t & p & It & G & R). exists t. split; [exact It|]. rewrite G.
      now apply region_eqb_eq.
  - intros N. unfold outs, dget_or. now rewrite N.
Qed.

Lemma has_any_grey_neighbor_spec_witness :
  exists b, has_any_grey_neighbor three_points [("P1"%string, ["P2"%string])] "P1"
            = Done b /\ b = false.
Proof.
  destruct (has_any_grey_neighbor_spec three_points [("P1"%string, ["P2"%string])]
              "P1"%string) as (b & E & _).
  - intros t [<-|[]]. discriminate.
  - exists b. split; [exact E|]. cbn in E. congruence.
Defined.

(** ** The candidate lists of the bridging *)

Lemma fold_fst_snoc {A B C} (step : list B * list C -> A -> list B * list C)
  (P : A -> B -> Prop) (l : list A) :
  (forall out a b, In b (fst (step out a)) <-> In b (fst out) \/ P a b) ->
  forall out b, In b (fst (fold_left step l out))
                <-> In b (fst out) \/ exists a, In a l /\ P a b.
Proof.
  intros Hs. induction l as [|a l IH]; cbn [fold_left]; intros out b.
  - split; [now left|]. intros [I|(a & [] & _)]. exact I.
  - rewrite IH, Hs. split.
    + intros [[I|Pa]|(c & I & Pc)]; [now left| |].
      * right. exists a. split; [now left|exact Pa].
      * right. exists c. split; [now right|exact Pc].
    + intros [I|(c & [<-|I] & Pc)]; [left; now left|left; now right|].
      right. exists c. auto.
Qed.

Lemma fold_snd_snoc {A B C} (step : list B * list C -> A -> list B * list C)
  (P : A -> C -> Prop) (l : list A) :
  (forall out a b, In b (snd (step out a)) <-> In b (snd out) \/ P a b) ->
  forall out b, In b (snd (fold_left step l out))
                <-> In b (snd out) \/ exists a, In a l /\ P a b.
Proof.
  intros Hs. induction l as [|a l IH]; cbn [fold_left]; intros out b.
  - split; [now left|]. intros [I|(a & [] & _)]. exact I.
  - rewrite IH, Hs. split.
    + intros [[I|Pa]|(c & I & Pc)]; [now left| |].
      * right. exists a. split; [now left|exact Pa].
      * right. exists c. split; [now right|exact Pc].
    + intros [I|(c & [<-|I] & Pc)]; [left; now left|left; now right|].
      right. exists c. auto.
Qed.

Lemma In_snoc_iff {A} (l : list A) (a b : A) : In b (l ++ [a]) <-> In b l \/ b = a.
Proof. rewrite in_app_iff. cbn. intuition. Qed.

(** X17.  The candidate lists of the bridging hold exactly the points
    the loops select: [aiv_candidates] the purple points of column AIV
    and its blue points outside the rows 102..149, [ajb_candidates] the
    purple points of column AJB, [grey_v] the vertical grey points and
    [grey_h] the horizontal grey points of the bands 17..21 and
    230..234; each with the id and the coordinates of its point. *)
Theorem bridging_candidates (points : points_t) (c : cand3) :
  (In c (fst (build_boundary_candidates points))
   <-> exists pid p, In (pid, p) points /\ c = cand_of pid p
         /\ py_round (p_x p) = x_AIV
         /\ (p_region p = purple
             \/ (p_region p = blue /\ in_middle (py_round (p_y p)) = false)))
  /\ (In c (snd (build_boundary_candidates points))
      <-> exists pid p, In (pid, p) points /\ c = cand_of pid p
            /\ py_round (p_x p) = x_AJB /\ p_region p = purple)
  /\ (In c (fst (build_grey points))
      <-> exists pid p, In (pid, p) points /\ c = cand_of pid p
            /\ p_region p = grey /\ p_kind p = KV)
  /\ (In c (snd (build_grey points))
      <-> exists pid p, In (pid, p) points /\ c = cand_of pid p
            /\ p_region p = grey /\ p_kind p = KH
            /\ in_grey_band (py_round (p_y p)) = true).
Proof.
  split; [|split; [|split]].
  - unfold build_boundary_candidates.
    rewrite (fold_fst_snoc boundary_step
      (fun item b => b = cand_of (fst item) (snd item)
         /\ py_round (p_x (snd item)) = x_AIV
         /\ (p_region (snd item) = purple
             \/ (p_region (snd item) = blue
                 /\ in_middle (py_round (p_y (snd item))) = false)))).
    + cbn. split.
      * intros [[]|([pid p] & I & H)]. exists pid, p. cbn in H. tauto.
      * intros (pid & p & I & H). right. exists (pid, p). cbn. tauto.
    + intros [aiv ajb] [pid p] b. unfold boundary_step. cbn [fst snd].
      destruct (py_round (p_x p) =? x_AIV) eqn:X;
        [apply Z.eqb_eq in X|apply Z.eqb_neq in X];
        destruct (p_region p) eqn:R; cbn [region_eqb orb andb];
        try destruct (in_middle (py_round (p_y p))) eqn:M;
        cbn [andb fst snd]; rewrite ?In_snoc_iff; intuition congruence.
  - unfold build_boundary_candidates.
    rewrite (fold_snd_snoc boundary_step
      (fun item b => b = cand_of (fst item) (snd item)
         /\ py_round (p_x (snd item)) = x_AJB /\ p_region (snd item) = purple)).
    + cbn. split.
      * intros [[]|([pid p] & I & H)]. exists pid, p. cbn in H. tauto.
      * intros (pid & p & I & H). right. exists (pid, p). cbn. tauto.
    + intros [aiv ajb] [pid p] b. unfold boundary_step. cbn [fst snd].
      destruct (((py_round (p_x p) =? x_AIV)
                 && (region_eqb (p_region p) purple || region_eqb (p_region p) blue))
                && region_eqb (p_region p) blue && in_middle (py_round (p_y p))) eqn:Skip.
      * cbn [snd]. split; [now left|]. intros [I|(_ & _ & R)]; [exact I|].
        rewrite R in Skip. cbn in Skip. rewrite andb_false_r in Skip. discriminate.
      * cbn [snd]. destruct (py_round (p_x p) =? x_AJB) eqn:X; cbn [andb].
        -- apply Z.eqb_eq in X. destruct (region_eqb (p_region p) purple) eqn:R.
           ++ apply region_eqb_eq in R. rewrite In_snoc_iff. tauto.
           ++ apply region_eqb_neq in R. tauto.
        -- apply Z.eqb_neq in X. tauto.
  - unfold build_grey.
    rewrite (fold_fst_snoc grey_step
      (fun item b => b = cand_of (fst item) (snd item)
         /\ p_region (snd item) = grey /\ p_kind (snd item) = KV)).
    + cbn. split.
      * intros [[]|([pid p] & I & H)]. exists pid, p. cbn in H. tauto.
      * intros (pid & p & I & H). right. exists (pid, p). cbn. tauto.
    + intros [gv gh] [pid p] b. unfold grey_step. cbn [fst snd].
      destruct (region_eqb (p_region p) grey) eqn:R; cbn [negb].
      2:{ apply region_eqb_neq in R. cbn [fst]. tauto. }
      apply region_eqb_eq in R.
      destruct (kind_eqb (p_kind p) KV) eqn:Kd.
      * apply kind_eqb_eq in Kd. cbn [fst]. rewrite In_snoc_iff. tauto.
      * assert (p_kind p <> KV) by (intros E; apply kind_eqb_eq in E; congruence).
        destruct (_ && _); cbn [fst]; tauto.
  - unfold build_grey.
    rewrite (fold_snd_snoc grey_step
      (fun item b => b = cand_of (fst item) (snd item)
         /\ p_region (snd item) = grey /\ p_kind (snd item) = KH
         /\ in_grey_band (py_round (p_y (snd item))) = true)).
    + cbn. split.
      * intros [[]|([pid p] & I & H)]. exists pid, p. cbn in H. tauto.
      * intros (pid & p & I & H). right. exists (pid, p). cbn. tauto.
    + intros [gv gh] [pid p] b. unfold grey_step. cbn [fst snd].
      destruct (region_eqb (p_region p) grey) eqn:R; cbn [negb].
      2:{ apply region_eqb_neq in R. cbn [snd]. tauto. }
      apply region_eqb_eq in R.
      destruct (kind_eqb (p_kind p) KV) eqn:Kd.
      * apply kind_eqb_eq in Kd. cbn [snd]. split; [now left|].
        intros [I|(_ & _ & K & _)]; [exact I|congruence].
      * destruct (kind_eqb (p_kind p) KH) eqn:Kh; cbn [andb].
        -- apply kind_eqb_eq in Kh.
           destruct (in_grey_band (py_round (p_y p))) eqn:Bd; cbn [snd].
           ++ rewrite In_snoc_iff. tauto.
           ++ split; [now left|]. intros [I|(_ & _ & _ & F)]; [exact I|discriminate].
        -- assert (p_kind p <> KH) by (intros E; apply kind_eqb_eq in E; congruence).
           cbn [snd]. tauto.
Qed.

(** ** The vertical purple chains *)

Lemma chain_up_within_edge (l : list (Z * string)) (nm : next_map_t) (x y : string) :
  edge (chain_up_within nm l) x y ->
  edge nm x y
  \/ exists ya yb, follows l (ya, y) (yb, x) /\ close_enough ya yb = true.
Proof.
  revert nm. induction l as [|[y0 a] l IH]; intros nm E; [now left|].
  destruct l as [|[y1 b] tl]; [now left|].
  change (edge (chain_up_within
                  (if close_enough y0 y1 then add_edge nm b (Some a) else nm)
                  ((y1, b) :: tl)) x y) in E.
  apply IH in E. destruct E as [E|(ya & yb & F & C)].
  - destruct (close_enough y0 y1) eqn:C; [|now left].
    apply edge_add_edge in E. destruct E as [[-> ->]|E]; [|now left].
    right. exists y0, y1. split; [|exact C]. now exists [], tl.
  - right. exists ya, yb. split; [now apply follows_cons|exact C].
Qed.

Lemma chain_down_within_edge (l : list (Z * string)) (nm : next_map_t) (x y : string) :
  edge (chain_down_within nm l) x y ->
  edge nm x y
  \/ exists ya yb, follows l (ya, x) (yb, y) /\ close_enough ya yb = true.
Proof.
  revert nm. induction l as [|[y0 a] l IH]; intros nm E; [now left|].
  destruct l as [|[y1 b] tl]; [now left|].
  change (edge (chain_down_within
                  (if close_enough y0 y1 then add_edge nm a (Some b) else nm)
                  ((y1, b) :: tl)) x y) in E.
  apply IH in E. destruct E as [E|(ya & yb & F & C)].
  - destruct (close_enough y0 y1) eqn:C; [|now left].
    apply edge_add_edge in E. destruct E as [[-> ->]|E]; [|now left].
    right. exists y0, y1. split; [|exact C]. now exists [], tl.
  - right. exists ya, yb. split; [now apply follows_cons|exact C].
Qed.

Lemma close_enough_le (ya yb : Z) : close_enough ya yb = true -> yb - ya <= step_v_purple.
Proof.
  unfold close_enough, step_v_purple. intros C. apply Qle_bool_iff in C.
  destruct (Z_le_gt_dec (yb - ya) 5) as [L|G]; [exact L|]. exfalso.
  assert (H : (inject_Z 6 <= inject_Z (yb - ya))%Q) by (rewrite <- Zle_Qle; lia).
  unfold EPS in C. change (inject_Z 6) with 6%Q in H. change (inject_Z 5) with 5%Q in C.
  lra.
Qed.

Lemma sorted_filter {A} (R : A -> A -> Prop) (f : A -> bool) (l : list A) :
  StronglySorted R l -> StronglySorted R (filter f l).
Proof.
  induction 1 as [|a l Srt IH F]; cbn; [constructor|].
  destruct (f a); [|exact IH]. constructor; [exact IH|].
  rewrite Forall_forall in *. intros b Ib. apply filter_In in Ib as [Ib _]. auto.
Qed.

Lemma sorted_follows_Z {A} (key : A -> Z) (l : list A) (a b : A) :
  StronglySorted (fun u w => key u < key w) l -> follows l a b ->
  key a < key b /\ forall c, In c l -> key c <= key a \/ key b <= key c.
Proof.
  intros Srt (l1 & l2 & ->). induction l1 as [|a0 l1 IH]; cbn in Srt.
  - inversion Srt as [|? ? S' F]; subst. inversion S' as [|? ? _ F']; subst.
    rewrite Forall_forall in F, F'. split; [apply F; now left|].
    intros c [<-|[<-|I]]; [left; lia|right; lia|]. right. apply F' in I. lia.
  - inversion Srt as [|? ? S' F]; subst. destruct (IH S') as [L R]. split; [exact L|].
    intros c [<-|I]; [|now apply R].
    left. rewrite Forall_forall in F. assert (H := F a). 
    assert (Ia : In a (l1 ++ a :: b :: l2)) by (apply in_or_app; right; now left).
    apply H in Ia. lia.
Qed.

Lemma ordered_col_sorted (points : points_t) (reg : region) (x : Z) :
  dwf points ->
  StronglySorted (fun u w => fst u < fst w)
    (ordered_in_col (build_col_index points reg) x)
  /\ (forall y pid, In (y, pid) (ordered_in_col (build_col_index points reg) x) ->
        exists p, In (pid, p) points /\ in_col reg x p /\ py_round (p_y p) = y)
  /\ (forall pid p, In (pid, p) points -> in_col reg x p ->
        exists pid', In (py_round (p_y p), pid')
                       (ordered_in_col (build_col_index points reg) x)).
Proof.
  intros W. unfold ordered_in_col.
  set (col := dget_or (build_col_index points reg) x []).
  assert (Wcol : dwf col) by apply index_by_row_wf.
  assert (N : NoDup (map snd (sorted_by (fun t => inject_Z (fst t)) col))).
  { apply sorted_by_map_NoDup. apply index_by_row_NoDup. exact W. }
  split; [|split].
  - assert (Srt := sorted_strict (fun t : Z * string => inject_Z (fst t)) snd _
                     (sorted_by_sorted _ col) N).
    eapply StronglySorted_weaken; [|apply Srt].
    + intros u w L. cbv beta in L. rewrite <- Zlt_Qlt in L. exact L.
    + intros [k1 p1] [k2 p2] I1 I2 E. cbn in *.
      apply sorted_by_In in I1, I2. apply inject_Z_keq in E. subst k2.
      exact (row_same_key col k1 k1 p1 p2 Wcol I1 I2 (keq_refl k1)).
  - intros y pid I. apply sorted_by_In in I. now apply col_entry_point.
  - intros pid p I M. destruct (col_point_entry points reg x pid p I M) as (pid' & Ik).
    exists pid'. now apply sorted_by_In.
Qed.

(** The pairs that follow one another in a column, cut to a range. *)
Lemma col_follows_below (points : points_t) (reg : region) (col r1 r2 ya yb : Z)
  (a b : string) :
  dwf points ->
  follows (filter (in_range r1 r2) (ordered_in_col (build_col_index points reg) col))
    (ya, a) (yb, b) ->
  close_enough ya yb = true ->
  next_below points (in_col_range reg col r1 r2) a b.
Proof.
  intros W F C.
  destruct (ordered_col_sorted points reg col W) as (Srt & Sound & Compl).
  set (l := ordered_in_col (build_col_index points reg) col) in *.
  assert (Sf : StronglySorted (fun u w : Z * string => fst u < fst w)
                 (filter (in_range r1 r2) l)) by now apply sorted_filter.
  destruct (sorted_follows_Z fst _ _ _ Sf F) as [L B]. cbn [fst] in L, B.
  destruct (follows_In _ _ _ F) as [Ia Ib].
  apply filter_In in Ia as [Ia Ra], Ib as [Ib Rb].
  unfold in_range in Ra, Rb. cbn [fst] in Ra, Rb.
  destruct (Sound ya a Ia) as (pa & Ipa & Ma & Ya).
  destruct (Sound yb b Ib) as (pb & Ipb & Mb & Yb).
  exists pa, pb. split; [exact Ipa|]. split; [exact Ipb|].
  split; [split; [exact Ma|lia]|]. split; [split; [exact Mb|lia]|].
  split; [lia|]. split; [apply close_enough_le in C; lia|].
  intros c pc Ic [Mc Rc] Btw.
  destruct (Compl c pc Ic Mc) as (pid' & Ik).
  assert (Ik' : In (py_round (p_y pc), pid') (filter (in_range r1 r2) l)).
  { apply filter_In. split; [exact Ik|]. unfold in_range. cbn [fst]. lia. }
  destruct (B _ Ik') as [H|H]; cbn [fst] in H; lia.
Qed.

(** X18.  The vertical purple chains, for points with distinct ids: an
    edge the step adds joins two vertical purple points of one column
    and one vertical range that follow one another in rounded [y], at
    most five rows apart, with no such point between them; in the
    columns AIS..AIT it goes up, from the larger [y] to the smaller, and
    in the columns AIU..AIV and AJB..AJE it goes down. *)
Theorem vertical_chain_direction (points : points_t) (nm : next_map_t) (x y : string) :
  dwf points ->
  edge (purple_vertical_chains (build_col_index points purple) nm) x y ->
  edge nm x y
  \/ exists r1 r2 col,
       In (r1, r2) vertical_ranges
       /\ ((x_AIS <= col <= x_AIT
            /\ next_below points (in_col_range purple col r1 r2) y x)
           \/ ((x_AIU <= col <= x_AIV \/ x_AJB <= col <= x_AJE)
               /\ next_below points (in_col_range purple col r1 r2) x y)).
Proof.
  intros W. unfold purple_vertical_chains. revert x y.
  apply (fold_left_inv
    (fun s => forall x y, edge s x y ->
       edge nm x y
       \/ exists r1 r2 col,
            In (r1, r2) vertical_ranges
            /\ ((x_AIS <= col <= x_AIT
                 /\ next_below points (in_col_range purple col r1 r2) y x)
                \/ ((x_AIU <= col <= x_AIV \/ x_AJB <= col <= x_AJE)
                    /\ next_below points (in_col_range purple col r1 r2) x y))));
    [|now left].
  intros [r1 r2] s Ir Hs. cbv zeta.
  apply (fold_left_inv
    (fun s => forall x y, edge s x y ->
       edge nm x y
       \/ exists r1 r2 col,
            In (r1, r2) vertical_ranges
            /\ ((x_AIS <= col <= x_AIT
                 /\ next_below points (in_col_range purple col r1 r2) y x)
                \/ ((x_AIU <= col <= x_AIV \/ x_AJB <= col <= x_AJE)
                    /\ next_below points (in_col_range purple col r1 r2) x y)))).
  - intros col s' Ic Hs' x y Ed.
    apply chain_down_within_edge in Ed. destruct Ed as [Ed|(ya & yb & F & C)];
      [now apply Hs'|].
    right. exists r1, r2, col. split; [exact Ir|]. right. split.
    + apply in_app_iff in Ic as [Ic|Ic]; apply py_range_In in Ic; lia.
    + eapply col_follows_below; eauto.
  - apply (fold_left_inv
      (fun s => forall x y, edge s x y ->
         edge nm x y
         \/ exists r1 r2 col,
              In (r1, r2) vertical_ranges
              /\ ((x_AIS <= col <= x_AIT
                   /\ next_below points (in_col_range purple col r1 r2) y x)
                  \/ ((x_AIU <= col <= x_AIV \/ x_AJB <= col <= x_AJE)
                      /\ next_below points (in_col_range purple col r1 r2) x y))));
      [|exact Hs].
    intros col s' Ic Hs' x y Ed.
    apply chain_up_within_edge in Ed. destruct Ed as [Ed|(ya & yb & F & C)];
      [now apply Hs'|].
    right. exists r1, r2, col. split; [exact Ir|]. left. split.
    + apply py_range_In in Ic. lia.
    + eapply col_follows_below; eauto.
Qed.

Lemma vertical_chain_direction_witness :
  purple_vertical_chains (build_col_index column_points purple) []
  = [("V2"%string, ["V1"%string])]
  /\ exists r1 r2 col,
       In (r1, r2) vertical_ranges
       /\ ((x_AIS <= col <= x_AIT
            /\ next_below column_points (in_col_range purple col r1 r2) "V1" "V2")
           \/ ((x_AIU <= col <= x_AIV \/ x_AJB <= col <= x_AJE)
               /\ next_below column_points (in_col_range purple col r1 r2) "V2" "V1")).
Proof.
  split; [reflexivity|].
  destruct (vertical_chain_direction column_points [] "V2" "V1") as [[]|H].
  - cbn. repeat split.
  - vm_compute. now left.
  - exact H.
Defined.

(** ** The generated points *)

(** X19.  The points of the generation phase: the key of a point is its
    [id], the fields ["inout"] and ["next"] are not set yet, every point
    lies on an integer row, and the kind of a point fixes its region and
    its id: a cell is blue, at the column and the row its id names; a
    point of a purple row or of a grey band carries the row in its id; a
    segment point is orange or green; a vertical point is not blue and
    lies on an integer column. *)
Theorem generated_points (ws : worksheet) (a : anchors) :
  exists st, generate ws a = Done st
    /\ forall pid p, In (pid, p) (fst st) ->
         p_id p = pid /\ p_inout p = None /\ p_next p = None
         /\ (exists r, p_y p = inject_Z r)
         /\ match p_meta p with
            | MetaCell r c =>
                p_region p = blue /\ pid = blue_id r c
                /\ p_x p = inject_Z (c - 1) /\ p_y p = inject_Z r
            | MetaRow r =>
                p_region p = purple /\ p_y p = inject_Z r
                /\ exists i, pid = purple_h_id r i
            | MetaBand y =>
                p_region p = grey /\ p_y p = inject_Z y /\ exists i, pid = grey_h_id y i
            | MetaSeg r s c1 c2 =>
                (p_region p = orange \/ p_region p = green) /\ p_y p = inject_Z r
                /\ exists tag i, pid = seg_id tag r s i
            | MetaCol col r1 r2 =>
                p_region p <> blue
                /\ exists tag x i, pid = vertical_id tag x r1 i /\ p_x p = inject_Z x
            end.
Proof.
  destruct (generate_ok ws a) as (st & E & _ & O & _).
  exists st. split; [exact E|]. intros pid p I.
  destruct (O pid p I) as [r c|r i x|y i x|tag sig reg r s c1 c2 i x xs F _ _ _
                          |tag reg x r1 r2 i y col Hr]; cbn.
  - repeat split; eauto.
  - repeat split; eauto.
  - repeat split; eauto.
  - split; [reflexivity|]. split; [reflexivity|]. split; [reflexivity|].
    split; [eauto|]. split; [|split; [reflexivity|eauto]].
    destruct F as [(_ & _ & ->)|(_ & _ & ->)]; auto.
  - repeat split; eauto.
Qed.

(** ** The lane changes between columns *)

Lemma truthy_append_r (s t : string) : truthy t = true -> truthy (s ++ t) = true.
Proof. destruct s; cbn; auto. Qed.

Lemma origin_col_truthy (ws : worksheet) (a : anchors) (pid : string) (p : point) :
  origin ws a pid p -> p_kind p = KV -> truthy pid = true.
Proof.
  intros O. destruct O as [| | | |tag reg x r1 r2 i y col Hr]; cbn; try discriminate.
  intros _. unfold vertical_id, cat. cbn [String.concat].
  apply truthy_append_r. reflexivity.
Qed.

Lemma col_lane_changes_edge (idx : dict Z (dict Z string)) (nm : next_map_t)
  (x y : string) :
  edge (col_lane_changes idx nm) x y -> edge nm x y \/ col_lane_edge idx x y.
Proof.
  unfold col_lane_changes. revert x y.
  apply (fold_left_inv
    (fun s => forall x y, edge s x y -> edge nm x y \/ col_lane_edge idx x y));
    [|now left].
  intros [xf xt] s I Hs x y Ed. unfold lane_change_cols in Ed. cbn [negb] in Ed.
  apply link_same_key_edge in Ed. destruct Ed as [Ed|(k & Ik & G)]; [now apply Hs|].
  right. exists xf, xt, k. auto.
Qed.

Lemma col_lane_changes_le (idx : dict Z (dict Z string)) (nm : next_map_t) :
  nm_le nm (col_lane_changes idx nm).
Proof.
  unfold col_lane_changes.
  apply (fold_left_inv (fun s => nm_le nm s)); [|apply nm_le_refl].
  intros [xf xt] s _ Hs. eapply nm_le_trans; [exact Hs|].
  unfold lane_change_cols. cbn [negb]. apply link_same_key_le.
Qed.

Lemma col_lane_changes_adds (idx : dict Z (dict Z string)) (nm : next_map_t)
  (x y : string) :
  truthy y = true -> col_lane_edge idx x y -> edge (col_lane_changes idx nm) x y.
Proof.
  intros T (xf & xt & k & Ip & Ik & G). unfold col_lane_changes.
  apply (fold_left_reach (fun s => edge s x y)) with (r := (xf, xt)); [| |exact Ip].
  - intros s [x1 x2] Es. unfold lane_change_cols. cbn [negb]. now apply link_same_key_le.
  - intros s. unfold lane_change_cols. cbn [negb]. eapply link_same_key_adds; eauto.
Qed.

(** X20.  The lane changes between the vertical purple columns, on the
    points of the generation phase: the edges after the step are the
    edges before it and the lane edges, no other; and a lane edge goes
    from a vertical purple point of a column to the vertical purple
    point with the same rounded [y] of the other column of a listed
    pair. *)
Theorem col_lane_changes_exact (ws : worksheet) (a : anchors) :
  exists st, generate ws a = Done st
    /\ forall nm x y,
         (edge (col_lane_changes (build_col_index (fst st) purple) nm) x y
          <-> edge nm x y \/ col_lane_edge (build_col_index (fst st) purple) x y)
         /\ (col_lane_edge (build_col_index (fst st) purple) x y ->
             exists x_from x_to px py,
               In (x_from, x_to) col_lane_pairs
               /\ In (x, px) (fst st) /\ In (y, py) (fst st)
               /\ in_col purple x_from px /\ in_col purple x_to py
               /\ py_round (p_y px) = py_round (p_y py)).
Proof.
  destruct (generate_ok ws a) as (st & E & W & O & _).
  exists st. split; [exact E|]. intros nm x y.
  set (idx := build_col_index (fst st) purple).
  assert (Pts : col_lane_edge idx x y ->
            exists x_from x_to px py,
              In (x_from, x_to) col_lane_pairs
              /\ In (x, px) (fst st) /\ In (y, py) (fst st)
              /\ in_col purple x_from px /\ in_col purple x_to py
              /\ py_round (p_y px) = py_round (p_y py)).
  { intros (xf & xt & k & Ip & Ik & G). apply dget_In in G as (k' & Ik' & Ek).
    apply Z_keq in Ek. subst k'.
    destruct (col_entry_point _ _ _ _ _ W Ik) as (px & Ix & Mx & Yx).
    destruct (col_entry_point _ _ _ _ _ W Ik') as (py & Iy & My & Yy).
    exists xf, xt, px, py. repeat (split; [assumption|]). congruence. }
  split; [split|exact Pts].
  - apply col_lane_changes_edge.
  - intros [Ed|L]; [now apply col_lane_changes_le|].
    apply col_lane_changes_adds; [|exact L].
    destruct (Pts L) as (xf & xt & px & py & _ & _ & Iy & _ & My & _).
    apply (origin_col_truthy ws a y py (O _ _ Iy)). apply My.
Qed.

Lemma col_lane_changes_exact_witness :
  exists st, generate small_sheet small_anchors = Done st
    /\ edge (col_lane_changes (build_col_index (fst st) purple) [])
         "PUVUP_X0928_R028_000" "PUVUP_X0929_R028_000".
Proof.
  destruct (col_lane_changes_exact small_sheet small_anchors) as (st & E & H).
  exists st. split; [exact E|].
  assert (L : match generate small_sheet small_anchors with
              | Done st =>
                  (dget (dget_or (build_col_index (fst st) purple) x_AIS []) 28,
                   dget (dget_or (build_col_index (fst st) purple) (x_AIS + 1) []) 28)
              | _ => (None, None)
              end
              = (Some "PUVUP_X0928_R028_000"%string, Some "PUVUP_X0929_R028_000"%string))
    by (vm_compute; reflexivity).
  rewrite E in L. inversion L as [[L1 L2]].
  apply (proj1 (H [] "PUVUP_X0928_R028_000"%string "PUVUP_X0929_R028_000"%string)).
  right. assert (L1' := L1). apply dget_In in L1' as (k' & I' & Ek).
  apply Z_keq in Ek. subst k'.
  exists x_AIS, (x_AIS + 1), 28. split; [now left|]. split; [exact I'|exact L2].
Defined.
